(** * A generic ordered map backed by an AVL tree with parent pointers

    Shallow embedding of [C-Experiments/map_with_function_pointers.c].

    The C file holds the same AVL algorithm twice: once over [malloc]'ed
    nodes with [void *] keys and values and caller-supplied callbacks
    ([map_t]), and once over a fixed pool of 256 nodes with [uint32_t] keys
    ([u32map_t]).  The node-level code (heights, rotations, rebalancing, the
    descent and ascent loops) is textually identical in both, so it is
    embedded once, in [AvlCore], over an abstract node memory; [DynMap] and
    [PoolMap] supply the two memories and the public functions.

    Conventions.
    - A node pointer is [option nat]: [None] is [NULL], [Some a] the
      address of a node.
    - Every function that dereferences a pointer returns a [result]:
      [Undefined] stands for C undefined behaviour (a [NULL] or dangling
      dereference), [OutOfFuel] for a loop that did not finish within the
      given number of iterations.
    - [int] values (heights, comparator results, return codes) are [Z];
      [size_t] is [Z] with the wrap-around at [2^64] written out. *)

From Stdlib Require Import ZArith Lia.
From stdpp Require Import base option list gmap.

Local Open Scope Z_scope.
Set Warnings "-clear-no-such-hyp".

(** ** Results of partial computations *)

Inductive result (A : Type) : Type :=
| Ok (a : A)
| Undefined
| OutOfFuel.
Arguments Ok {A} a.
Arguments Undefined {A}.
Arguments OutOfFuel {A}.

Global Instance result_ret : MRet result := λ A a, Ok a.
Global Instance result_bind : MBind result := λ A B f r,
  match r with
  | Ok a => f a
  | Undefined => Undefined
  | OutOfFuel => OutOfFuel
  end.

(** [struct map_node *]: [None] is [NULL]. *)
Definition ptr : Type := option nat.

Definition size_t_max : Z := 2 ^ 64.

(** ** The node-level algorithm, shared by both variants *)
Module AvlCore.

(** [struct map_node] / [struct node] without the pool's [in_use] flag. *)
Record map_node_t (K V : Type) : Type := MapNode {
  key : K;
  value : V;
  left : ptr;
  right : ptr;
  parent : ptr;
  height : Z
}.
Arguments MapNode {K V} _ _ _ _ _ _.
Arguments key {K V} _.
Arguments value {K V} _.
Arguments left {K V} _.
Arguments right {K V} _.
Arguments parent {K V} _.
Arguments height {K V} _.

(** Single-field assignments [n->f = x]. *)
Definition set_key {K V} (x : K) (n : map_node_t K V) : map_node_t K V :=
  MapNode x (value n) (left n) (right n) (parent n) (height n).
Definition set_value {K V} (x : V) (n : map_node_t K V) : map_node_t K V :=
  MapNode (key n) x (left n) (right n) (parent n) (height n).
Definition set_left {K V} (x : ptr) (n : map_node_t K V) : map_node_t K V :=
  MapNode (key n) (value n) x (right n) (parent n) (height n).
Definition set_right {K V} (x : ptr) (n : map_node_t K V) : map_node_t K V :=
  MapNode (key n) (value n) (left n) x (parent n) (height n).
Definition set_parent {K V} (x : ptr) (n : map_node_t K V) : map_node_t K V :=
  MapNode (key n) (value n) (left n) (right n) x (height n).
Definition set_height {K V} (x : Z) (n : map_node_t K V) : map_node_t K V :=
  MapNode (key n) (value n) (left n) (right n) (parent n) x.

(** Node memory.  [load s a] reads the node object at address [a] ([None]
    when [a] is not the address of a node object), [store s a n] overwrites
    it, and [live s a] says that the object at [a] is currently handed out
    by the allocator ([malloc]'ed and not yet freed, or a pool slot whose
    [in_use] flag is set). *)
Class NodeStore (K V S : Type) : Type := {
  load : S → nat → option (map_node_t K V);
  store : S → nat → map_node_t K V → S;
  live : S → nat → Prop;
  load_store : ∀ s a b n, is_Some (load s a) →
    load (store s a n) b = if decide (b = a) then Some n else load s b;
  live_store : ∀ s a b n, is_Some (load s a) →
    live (store s a n) b ↔ live s b
}.

(** The fields of the map object that the algorithm reads and writes
    ([m->root], [m->size]) together with the node memory. *)
Record tree_state (S : Type) : Type := TreeState {
  ts_root : ptr;
  ts_size : Z;
  ts_mem : S
}.
Arguments TreeState {S} _ _ _.
Arguments ts_root {S} _.
Arguments ts_size {S} _.
Arguments ts_mem {S} _.

Section code.
Context {K V S : Type} `{!NodeStore K V S}.

(** [*p] *)
Definition deref (s : S) (p : ptr) : result (map_node_t K V) :=
  match p with
  | Some a => match load s a with Some n => Ok n | None => Undefined end
  | None => Undefined
  end.

(** [p->field = x], as the update [f] of the node at [p]. *)
Definition write (s : S) (p : ptr) (f : map_node_t K V → map_node_t K V)
    : result S :=
  match p with
  | Some a =>
      match load s a with
      | Some n => Ok (store s a (f n))
      | None => Undefined
      end
  | None => Undefined
  end.

(** [if (p) p->field = x;] *)
Definition write_if (s : S) (p : ptr) (f : map_node_t K V → map_node_t K V)
    : result S :=
  match p with
  | Some _ => write s p f
  | None => Ok s
  end.

Definition node_height (s : S) (n : ptr) : result Z :=
  match n with
  | Some _ => nd ← deref s n; Ok (height nd)
  | None => Ok 0
  end.

Definition update_height (s : S) (n : ptr) : result S :=
  match n with
  | Some _ =>
      nd ← deref s n;
      hl ← node_height s (left nd);
      hr ← node_height s (right nd);
      write s n (set_height ((if hl >? hr then hl else hr) + 1))
  | None => Ok s
  end.

Definition rotate_right (s : S) (y : ptr) : result (ptr * S) :=
  ny ← deref s y;
  let x := left ny in
  nx ← deref s x;
  let T2 := right nx in
  s ← write s x (set_right y);
  s ← write s y (set_left T2);
  s ← write_if s T2 (set_parent y);
  ny ← deref s y;
  s ← write s x (set_parent (parent ny));
  s ← write s y (set_parent x);
  s ← update_height s y;
  s ← update_height s x;
  Ok (x, s).

Definition rotate_left (s : S) (x : ptr) : result (ptr * S) :=
  nx ← deref s x;
  let y := right nx in
  ny ← deref s y;
  let T2 := left ny in
  s ← write s y (set_left x);
  s ← write s x (set_right T2);
  s ← write_if s T2 (set_parent x);
  nx ← deref s x;
  s ← write s y (set_parent (parent nx));
  s ← write s x (set_parent y);
  s ← update_height s x;
  s ← update_height s y;
  Ok (y, s).

(** [set_child(m, parent, old_child, new_child)]; the first component
    of the result is [m->root] afterwards. *)
Definition set_child (root : ptr) (s : S) (parent old_child new_child : ptr)
    : result (ptr * S) :=
  match parent with
  | None =>
      s ← write_if s new_child (set_parent None);
      Ok (new_child, s)
  | Some _ =>
      np ← deref s parent;
      s ← (if decide (left np = old_child)
           then write s parent (set_left new_child)
           else write s parent (set_right new_child));
      s ← write_if s new_child (set_parent parent);
      Ok (root, s)
  end.

Definition rebalance_at (s : S) (node : ptr) : result (ptr * S) :=
  s ← update_height s node;
  nd ← deref s node;
  hl ← node_height s (left nd);
  hr ← node_height s (right nd);
  let balance := hl - hr in
  if balance >? 1 then
    nl ← deref s (left nd);
    hll ← node_height s (left nl);
    hlr ← node_height s (right nl);
    if hll >=? hlr then
      rotate_right s node
    else
      '(l', s) ← rotate_left s (left nd);
      s ← write s node (set_left l');
      nd ← deref s node;
      s ← write_if s (left nd) (set_parent node);
      rotate_right s node
  else if balance <? -1 then
    nr ← deref s (right nd);
    hrr ← node_height s (right nr);
    hrl ← node_height s (left nr);
    if hrr >=? hrl then
      rotate_left s node
    else
      '(r', s) ← rotate_right s (right nd);
      s ← write s node (set_right r');
      nd ← deref s node;
      s ← write_if s (right nd) (set_parent node);
      rotate_left s node
  else
    Ok (node, s).

(** The loop [while (p) { ... rebalance_at ... set_child ... }] that
    ends [map_insert] and [map_erase]. *)
Fixpoint rebalance_up (fuel : nat) (root : ptr) (s : S) (p : ptr)
    : result (ptr * S) :=
  match p with
  | None => Ok (root, s)
  | Some _ =>
      match fuel with
      | O => OutOfFuel
      | Datatypes.S fuel =>
          let old_p := p in
          '(new_subroot, s) ← rebalance_at s p;
          nn ← deref s new_subroot;
          '(root, s) ← set_child root s (parent nn) old_p new_subroot;
          nn ← deref s new_subroot;
          rebalance_up fuel root s (parent nn)
      end
  end.

(** [if (m->root && m->root->parent) m->root->parent = NULL;] *)
Definition clear_root_parent (root : ptr) (s : S) : result S :=
  match root with
  | None => Ok s
  | Some _ =>
      nr ← deref s root;
      match parent nr with
      | Some _ => write s root (set_parent None)
      | None => Ok s
      end
  end.

(** The loop of [find_node], started at [cur]. *)
Fixpoint find_from (cmp : K → K → Z) (fuel : nat) (s : S) (k : K)
    (cur : ptr) : result ptr :=
  match cur with
  | None => Ok None
  | Some _ =>
      match fuel with
      | O => OutOfFuel
      | Datatypes.S fuel =>
          nc ← deref s cur;
          let c := cmp k (key nc) in
          if c =? 0 then Ok cur
          else find_from cmp fuel s k (if c <? 0 then left nc else right nc)
      end
  end.

Definition find_node (cmp : K → K → Z) (fuel : nat) (m : tree_state S)
    (k : K) : result ptr :=
  find_from cmp fuel (ts_mem m) k (ts_root m).

(** The descent loop of [map_insert]: [None] when an equal key is met
    ([return 0]), otherwise the final [parent] and [cmpv]. *)
Fixpoint insert_descend (cmp : K → K → Z) (fuel : nat) (s : S) (k : K)
    (parent cur : ptr) (cmpv : Z) : result (option (ptr * Z)) :=
  match cur with
  | None => Ok (Some (parent, cmpv))
  | Some _ =>
      match fuel with
      | O => OutOfFuel
      | Datatypes.S fuel =>
          nc ← deref s cur;
          let cmpv := cmp k (key nc) in
          if cmpv =? 0 then Ok None
          else insert_descend cmp fuel s k cur
                 (if cmpv <? 0 then left nc else right nc) cmpv
      end
  end.

(** [map_insert] on a non-[NULL] map.  [node_new s key value] is the
    variant's allocation of an initialised node ([NULL] on failure). *)
Definition map_insert (node_new : S → K → V → result (ptr * S))
    (cmp : K → K → Z) (fuel : nat) (m : tree_state S) (k : K) (v : V)
    : result (Z * tree_state S) :=
  match ts_root m with
  | None =>
      '(n, s) ← node_new (ts_mem m) k v;
      match n with
      | None => Ok (-1, TreeState (ts_root m) (ts_size m) s)
      | Some _ => Ok (1, TreeState n 1 s)
      end
  | Some _ =>
      d ← insert_descend cmp fuel (ts_mem m) k None (ts_root m) 0;
      match d with
      | None => Ok (0, m)
      | Some (parent, cmpv) =>
          '(n, s) ← node_new (ts_mem m) k v;
          match n with
          | None => Ok (-1, TreeState (ts_root m) (ts_size m) s)
          | Some _ =>
              s ← write s n (set_parent parent);
              s ← (if cmpv <? 0 then write s parent (set_left n)
                   else write s parent (set_right n));
              let size := (ts_size m + 1) mod size_t_max in
              nn ← deref s n;
              '(root, s) ← rebalance_up fuel (ts_root m) s (AvlCore.parent nn);
              s ← clear_root_parent root s;
              Ok (1, TreeState root size s)
          end
      end
  end.

(** The loop [while (n->left) n = n->left;]. *)
Fixpoint leftmost (fuel : nat) (s : S) (n : ptr) : result ptr :=
  match fuel with
  | O => OutOfFuel
  | Datatypes.S fuel =>
      nd ← deref s n;
      match left nd with
      | Some _ => leftmost fuel s (left nd)
      | None => Ok n
      end
  end.

(** The loop [while (n->right) n = n->right;]. *)
Fixpoint rightmost (fuel : nat) (s : S) (n : ptr) : result ptr :=
  match fuel with
  | O => OutOfFuel
  | Datatypes.S fuel =>
      nd ← deref s n;
      match right nd with
      | Some _ => rightmost fuel s (right nd)
      | None => Ok n
      end
  end.

Definition subtree_min (fuel : nat) (s : S) (n : ptr) : result ptr :=
  match n with
  | None => Ok None
  | Some _ => leftmost fuel s n
  end.

(** [erase_node(m, n)]; the result is the returned parent and the map
    afterwards.  [release m n] is the variant's [node_free(m, n)]
    followed by its decrement of [m->size]. *)
Fixpoint erase_node (release : tree_state S → ptr → result (tree_state S))
    (fuel : nat) (m : tree_state S) (n : ptr)
    : result (ptr * tree_state S) :=
  match n with
  | None => Ok (None, m)
  | Some _ =>
      match fuel with
      | O => OutOfFuel
      | Datatypes.S fuel =>
          let s := ts_mem m in
          nd ← deref s n;
          match left nd, right nd with
          | Some _, Some _ =>
              suc ← subtree_min (Datatypes.S fuel) s (right nd);
              nsuc ← deref s suc;
              let tkey := key nd in
              s ← write s n (set_key (key nsuc));
              s ← write s suc (set_key tkey);
              nd ← deref s n;
              nsuc ← deref s suc;
              let tval := value nd in
              s ← write s n (set_value (value nsuc));
              s ← write s suc (set_value tval);
              erase_node release fuel
                (TreeState (ts_root m) (ts_size m) s) suc
          | _, _ =>
              let child :=
                match left nd with Some _ => left nd | None => right nd end in
              let parent := AvlCore.parent nd in
              '(root, s) ←
                match parent with
                | None =>
                    s ← write_if s child (set_parent None);
                    Ok (child, s)
                | Some _ =>
                    np ← deref s parent;
                    s ← (if decide (left np = n)
                         then write s parent (set_left child)
                         else write s parent (set_right child));
                    s ← write_if s child (set_parent parent);
                    Ok (ts_root m, s)
                end;
              m ← release (TreeState root (ts_size m) s) n;
              Ok (parent, m)
          end
      end
  end.

(** [map_erase] on a non-[NULL] map. *)
Definition map_erase (release : tree_state S → ptr → result (tree_state S))
    (cmp : K → K → Z) (fuel : nat) (m : tree_state S) (k : K)
    : result (Z * tree_state S) :=
  n ← find_node cmp fuel m k;
  match n with
  | None => Ok (0, m)
  | Some _ =>
      '(p, m) ← erase_node release fuel m n;
      '(root, s) ← rebalance_up fuel (ts_root m) (ts_mem m) p;
      s ← clear_root_parent root s;
      Ok (1, TreeState root (ts_size m) s)
  end.

(** The ascent loop of [map_next]:
    [while (p && p->right == cur) { cur = p; p = p->parent; }]. *)
Fixpoint climb_from_right (fuel : nat) (s : S) (p cur : ptr) : result ptr :=
  match p with
  | None => Ok p
  | Some _ =>
      match fuel with
      | O => OutOfFuel
      | Datatypes.S fuel =>
          np ← deref s p;
          if decide (right np = cur)
          then climb_from_right fuel s (parent np) p
          else Ok p
      end
  end.

(** The ascent loop of [map_prev]. *)
Fixpoint climb_from_left (fuel : nat) (s : S) (p cur : ptr) : result ptr :=
  match p with
  | None => Ok p
  | Some _ =>
      match fuel with
      | O => OutOfFuel
      | Datatypes.S fuel =>
          np ← deref s p;
          if decide (left np = cur)
          then climb_from_left fuel s (parent np) p
          else Ok p
      end
  end.

Definition map_next (fuel : nat) (s : S) (it : ptr) : result ptr :=
  match it with
  | None => Ok None
  | Some _ =>
      ni ← deref s it;
      match right ni with
      | Some _ => leftmost fuel s (right ni)
      | None => climb_from_right fuel s (parent ni) it
      end
  end.

Definition map_prev (fuel : nat) (s : S) (it : ptr) : result ptr :=
  match it with
  | None => Ok None
  | Some _ =>
      ni ← deref s it;
      match left ni with
      | Some _ => rightmost fuel s (left ni)
      | None => climb_from_left fuel s (parent ni) it
      end
  end.

(** The loop [for (it = start; it != NULL; it = step(it))] of [main],
    with [step] being [map_next] or [map_prev]; the result lists what
    [read] gives at the nodes visited. *)
Fixpoint visit {A : Type} (read : ptr → result A) (step : ptr → result ptr)
    (n : nat) (it : ptr) : result (list A) :=
  match it with
  | None => Ok []
  | Some _ =>
      match n with
      | O => OutOfFuel
      | Datatypes.S n =>
          x ← read it;
          it' ← step it;
          rest ← visit read step n it';
          Ok (x :: rest)
      end
  end.

End code.
End AvlCore.

(** [NULL] of a [void *] (or function pointer) type. *)
Class Nullable (A : Type) : Type := null : A.

(** ** The [malloc]-backed map: [map_t] *)
Module DynMap.
Import AvlCore.

(** A call of [key_free] or [val_free], with its argument. *)
Inductive event (K V : Type) : Type :=
| KeyFree (k : K)
| ValFree (v : V).
Arguments KeyFree {K V} k.
Arguments ValFree {K V} v.

(** The part of the C heap that holds the nodes of one map, and the log of
    the free callbacks invoked so far. *)
Record world (K V : Type) : Type := World {
  heap : gmap nat (map_node_t K V);
  trace : list (event K V)
}.
Arguments World {K V} _ _.
Arguments heap {K V} _.
Arguments trace {K V} _.

(** [struct map].  The callbacks [key_free] and [val_free] only act on
    memory outside the map, so they are kept as flags (configured or
    [NULL]) and their calls are recorded in [trace (mem m)]. *)
Record map_t (K V : Type) : Type := Map {
  root : ptr;
  size : Z;
  cmp : K → K → Z;
  key_dup : option (K → K);
  key_free : bool;
  val_dup : option (V → V);
  val_free : bool;
  mem : world K V
}.
Arguments Map {K V} _ _ _ _ _ _ _ _.
Arguments root {K V} _.
Arguments size {K V} _.
Arguments cmp {K V} _.
Arguments key_dup {K V} _.
Arguments key_free {K V} _.
Arguments val_dup {K V} _.
Arguments val_free {K V} _.
Arguments mem {K V} _.

Definition world_store {K V} (w : world K V) (a : nat) (n : map_node_t K V)
    : world K V :=
  World (<[a:=n]> (heap w)) (trace w).

Lemma world_load_store {K V} (w : world K V) a b n :
  is_Some (heap w !! a) →
  heap (world_store w a n) !! b = if decide (b = a) then Some n else heap w !! b.
Proof.
  intros _. unfold world_store. simpl.
  destruct (decide (b = a)) as [->|Hne].
  - apply lookup_insert_eq.
  - apply lookup_insert_ne. congruence.
Qed.

Lemma world_live_store {K V} (w : world K V) a b n :
  is_Some (heap w !! a) →
  is_Some (heap (world_store w a n) !! b) ↔ is_Some (heap w !! b).
Proof.
  intros Ha. rewrite world_load_store by done.
  destruct (decide (b = a)) as [->|Hne]; [|done].
  split; [done|eauto].
Qed.

Section code.
Context {K V : Type} `{!EqDecision K, !EqDecision V}
        `{!Nullable K, !Nullable V}.

#[export] Instance world_node_store : NodeStore K V (world K V) := {|
  load w a := heap w !! a;
  store := world_store;
  live w a := is_Some (heap w !! a);
  load_store := world_load_store;
  live_store := world_live_store
|}.

Definition state_of (m : map_t K V) : tree_state (world K V) :=
  TreeState (root m) (size m) (mem m).

Definition with_state (m : map_t K V) (t : tree_state (world K V))
    : map_t K V :=
  Map (ts_root t) (ts_size t) (cmp m) (key_dup m) (key_free m)
      (val_dup m) (val_free m) (ts_mem t).

(** [m->key_dup ? m->key_dup(key) : key] *)
Definition dup_or_raw {A} (dup : option (A → A)) (x : A) : A :=
  match dup with Some f => f x | None => x end.

(** [node_new]; [malloc_ok] tells whether its [malloc] succeeds. *)
Definition node_new (m : map_t K V) (malloc_ok : bool) (w : world K V)
    (k : K) (v : V) : result (ptr * world K V) :=
  if malloc_ok then
    let a := fresh (dom (heap w)) in
    let n := MapNode (dup_or_raw (key_dup m) k) (dup_or_raw (val_dup m) v)
                     None None None 1 in
    Ok (Some a, World (<[a:=n]> (heap w)) (trace w))
  else Ok (None, w).

Definition node_free (m : map_t K V) (w : world K V) (n : ptr)
    : result (world K V) :=
  match n with
  | None => Ok w
  | Some a =>
      nd ← deref w n;
      let t1 :=
        if key_free m && bool_decide (key nd ≠ null)
        then trace w ++ [KeyFree (key nd)] else trace w in
      let t2 :=
        if val_free m && bool_decide (value nd ≠ null)
        then t1 ++ [ValFree (value nd)] else t1 in
      Ok (World (delete a (heap w)) t2)
  end.

(** [map_create]; [malloc_ok] tells whether its [malloc] succeeds. *)
Definition map_create (malloc_ok : bool) (cmp : option (K → K → Z))
    (key_dup : option (K → K)) (key_free : bool)
    (val_dup : option (V → V)) (val_free : bool) : option (map_t K V) :=
  match cmp with
  | None => None
  | Some c =>
      if malloc_ok
      then Some (Map None 0 c key_dup key_free val_dup val_free (World ∅ []))
      else None
  end.

Definition find_node (fuel : nat) (m : option (map_t K V)) (k : K)
    : result ptr :=
  match m with
  | None => Undefined
  | Some m => AvlCore.find_node (cmp m) fuel (state_of m) k
  end.

Definition map_insert (fuel : nat) (malloc_ok : bool)
    (m : option (map_t K V)) (k : K) (v : V)
    : result (Z * option (map_t K V)) :=
  match m with
  | None => Ok (-1, None)
  | Some m =>
      '(rc, t) ← AvlCore.map_insert (node_new m malloc_ok) (cmp m) fuel
                   (state_of m) k v;
      Ok (rc, Some (with_state m t))
  end.

Definition map_put (fuel : nat) (malloc_ok : bool)
    (m : option (map_t K V)) (k : K) (v : V)
    : result (Z * option (map_t K V)) :=
  match m with
  | None => Ok (-1, None)
  | Some m0 =>
      existing ← find_node fuel m k;
      match existing with
      | Some _ =>
          ne ← deref (mem m0) existing;
          let tr :=
            if val_free m0 then trace (mem m0) ++ [ValFree (value ne)]
            else trace (mem m0) in
          let w := World (heap (mem m0)) tr in
          w ← write w existing (set_value (dup_or_raw (val_dup m0) v));
          Ok (2, Some (with_state m0 (TreeState (root m0) (size m0) w)))
      | None => map_insert fuel malloc_ok m k v
      end
  end.

Definition map_find (fuel : nat) (m : option (map_t K V)) (k : K)
    : result V :=
  n ← find_node fuel m k;
  match n, m with
  | Some _, Some m => nd ← deref (mem m) n; Ok (value nd)
  | Some _, None => Undefined
  | None, _ => Ok null
  end.

(** [node_free(m, n); m->size--;] at the end of [erase_node]. *)
Definition release (m : map_t K V) (t : tree_state (world K V)) (n : ptr)
    : result (tree_state (world K V)) :=
  w ← node_free m (ts_mem t) n;
  Ok (TreeState (ts_root t) ((ts_size t - 1) mod size_t_max) w).

Definition erase_node (fuel : nat) (m : map_t K V) (n : ptr)
    : result (ptr * map_t K V) :=
  '(p, t) ← AvlCore.erase_node (release m) fuel (state_of m) n;
  Ok (p, with_state m t).

Definition map_erase (fuel : nat) (m : option (map_t K V)) (k : K)
    : result (Z * option (map_t K V)) :=
  match m with
  | None => Ok (0, None)
  | Some m =>
      '(rc, t) ← AvlCore.map_erase (release m) (cmp m) fuel (state_of m) k;
      Ok (rc, Some (with_state m t))
  end.

Definition map_size (m : option (map_t K V)) : Z :=
  match m with
  | Some m => size m
  | None => 0
  end.

Fixpoint free_subtree (fuel : nat) (m : map_t K V) (w : world K V)
    (n : ptr) : result (world K V) :=
  match n with
  | None => Ok w
  | Some _ =>
      match fuel with
      | O => OutOfFuel
      | S fuel =>
          nd ← deref w n;
          w ← free_subtree fuel m w (left nd);
          nd ← deref w n;
          w ← free_subtree fuel m w (right nd);
          node_free m w n
      end
  end.

Definition map_clear (fuel : nat) (m : option (map_t K V))
    : result (option (map_t K V)) :=
  match m with
  | None => Ok None
  | Some m =>
      w ← free_subtree fuel m (mem m) (root m);
      Ok (Some (with_state m (TreeState None 0 w)))
  end.

(** [map_destroy]: the map object is gone afterwards; what is left is
    the node memory and the callback log. *)
Definition map_destroy (fuel : nat) (m : option (map_t K V))
    : result (option (world K V)) :=
  match m with
  | None => Ok None
  | Some _ =>
      m' ← map_clear fuel m;
      Ok (option_map mem m')
  end.

Definition map_begin (fuel : nat) (m : option (map_t K V)) : result ptr :=
  match m with
  | Some m => subtree_min fuel (mem m) (root m)
  | None => Ok None
  end.

Definition map_end (m : option (map_t K V)) : ptr := None.

(** The iterator functions take only the node pointer in C; the model
    passes the map whose memory the pointer refers to. *)
Definition map_next (fuel : nat) (m : map_t K V) (it : ptr) : result ptr :=
  AvlCore.map_next fuel (mem m) it.

Definition map_prev (fuel : nat) (m : map_t K V) (it : ptr) : result ptr :=
  AvlCore.map_prev fuel (mem m) it.

Definition map_iter_key (m : map_t K V) (it : ptr) : result K :=
  match it with
  | Some _ => nd ← deref (mem m) it; Ok (key nd)
  | None => Ok null
  end.

Definition map_iter_value (m : map_t K V) (it : ptr) : result V :=
  match it with
  | Some _ => nd ← deref (mem m) it; Ok (value nd)
  | None => Ok null
  end.

(** The loop [for (it = map_begin(m); it != map_end(m); it = map_next(it))]
    of [main], reading [map_iter_key(it)] at every node. *)
Definition keys_forward (fuel n : nat) (m : map_t K V) : result (list K) :=
  it ← map_begin fuel (Some m);
  visit (map_iter_key m) (map_next fuel m) n it.

(** The same loop run backwards with [map_prev], from the node [start]. *)
Definition keys_backward (fuel n : nat) (m : map_t K V) (start : ptr)
    : result (list K) :=
  visit (map_iter_key m) (map_prev fuel m) n start.

End code.
End DynMap.

(** ** The statically allocated map: [u32map_t] *)
Module PoolMap.

Definition MAX_NODES : nat := 256.

(** [struct node]; [in_use] is [0] for a free slot and [1] for a used one. *)
Record node_t (V : Type) : Type := Node {
  key : Z;
  value : V;
  left : ptr;
  right : ptr;
  parent : ptr;
  height : Z;
  in_use : Z
}.
Arguments Node {V} _ _ _ _ _ _ _.
Arguments key {V} _.
Arguments value {V} _.
Arguments left {V} _.
Arguments right {V} _.
Arguments parent {V} _.
Arguments height {V} _.
Arguments in_use {V} _.

(** [u32map_t].  A [node_t *] is always the address of a pool slot,
    [&m->pool[i]], and is represented by the index [i]. *)
Record u32map_t (V : Type) : Type := U32Map {
  pool : list (node_t V);
  size : Z;
  root : ptr
}.
Arguments U32Map {V} _ _ _.
Arguments pool {V} _.
Arguments size {V} _.
Arguments root {V} _.

(** The fields of a slot that the shared algorithm sees. *)
Definition fields {V} (n : node_t V) : AvlCore.map_node_t Z V :=
  AvlCore.MapNode (key n) (value n) (left n) (right n) (parent n) (height n).

Definition with_fields {V} (f : AvlCore.map_node_t Z V) (n : node_t V)
    : node_t V :=
  Node (AvlCore.key f) (AvlCore.value f) (AvlCore.left f) (AvlCore.right f)
       (AvlCore.parent f) (AvlCore.height f) (in_use n).

Definition pool_load {V} (p : list (node_t V)) (i : nat)
    : option (AvlCore.map_node_t Z V) :=
  fields <$> p !! i.

Definition pool_store {V} (p : list (node_t V)) (i : nat)
    (f : AvlCore.map_node_t Z V) : list (node_t V) :=
  alter (with_fields f) i p.

Definition pool_live {V} (p : list (node_t V)) (i : nat) : Prop :=
  ∃ n, p !! i = Some n ∧ in_use n ≠ 0.

Lemma pool_load_store {V} (p : list (node_t V)) a b f :
  is_Some (pool_load p a) →
  pool_load (pool_store p a f) b
  = if decide (b = a) then Some f else pool_load p b.
Proof.
  unfold pool_load, pool_store. intros [n Hn].
  destruct (decide (b = a)) as [->|Hne].
  - rewrite list_lookup_alter_eq.
    destruct (p !! a) as [x|]; [|discriminate]. simpl.
    destruct f; reflexivity.
  - rewrite list_lookup_alter_ne by congruence. reflexivity.
Qed.

Lemma pool_live_store {V} (p : list (node_t V)) a b f :
  is_Some (pool_load p a) →
  pool_live (pool_store p a f) b ↔ pool_live p b.
Proof.
  unfold pool_live, pool_store. intros _.
  destruct (decide (b = a)) as [->|Hne].
  - rewrite list_lookup_alter_eq. split.
    + intros (n & Hn & Hu). destruct (p !! a) as [x|]; [|discriminate].
      simpl in Hn. injection Hn as <-. eauto.
    + intros (n & Hn & Hu). rewrite Hn. simpl. eauto.
  - rewrite list_lookup_alter_ne by congruence. reflexivity.
Qed.

(** The comparisons [key == cur->key] and [key < cur->key] of the pool
    variant, as the three-way result that [map_insert] keeps in [cmpv]. *)
Definition u32_order (a b : Z) : Z :=
  if a =? b then 0 else if a <? b then -1 else 1.

Section code.
Context {V : Type} `{!Nullable V}.

#[export] Instance pool_node_store
    : AvlCore.NodeStore Z V (list (node_t V)) := {|
  AvlCore.load := pool_load;
  AvlCore.store := pool_store;
  AvlCore.live := pool_live;
  AvlCore.load_store := pool_load_store;
  AvlCore.live_store := pool_live_store
|}.

Definition state_of (m : u32map_t V) : AvlCore.tree_state (list (node_t V)) :=
  AvlCore.TreeState (root m) (size m) (pool m).

Definition of_state (t : AvlCore.tree_state (list (node_t V))) : u32map_t V :=
  U32Map (AvlCore.ts_mem t) (AvlCore.ts_size t) (AvlCore.ts_root t).

(** The slot written by one iteration of [pool_init]'s loop. *)
Definition blank : node_t V := Node 0 null None None None 0 0.

Definition pool_init (m : u32map_t V) : u32map_t V :=
  U32Map (foldl (λ p i, <[i:=blank]> p) (pool m) (seq 0 MAX_NODES)) 0 None.

(** The loop of [node_alloc], from slot [i] with [n] slots left to scan. *)
Fixpoint node_alloc_from (p : list (node_t V)) (i n : nat)
    : result (ptr * list (node_t V)) :=
  match n with
  | O => Ok (None, p)
  | S n =>
      match p !! i with
      | Some x =>
          if in_use x =? 0
          then Ok (Some i,
                   <[i := Node (key x) null None None None 1 1]> p)
          else node_alloc_from p (S i) n
      | None => Undefined
      end
  end.

Definition node_alloc (p : list (node_t V)) : result (ptr * list (node_t V)) :=
  node_alloc_from p 0 MAX_NODES.

Definition node_free (p : list (node_t V)) (n : ptr)
    : result (list (node_t V)) :=
  match n with
  | None => Ok p
  | Some i =>
      match p !! i with
      | Some x => Ok (<[i := Node (key x) null None None None 0 0]> p)
      | None => Undefined
      end
  end.

Definition map_init (m : u32map_t V) : u32map_t V := pool_init m.

Definition find_node (fuel : nat) (m : u32map_t V) (k : Z) : result ptr :=
  AvlCore.find_node u32_order fuel (state_of m) k.

(** [n = node_alloc(m); if (!n) return -1; n->key = key; n->value = value;] *)
Definition node_new (p : list (node_t V)) (k : Z) (v : V)
    : result (ptr * list (node_t V)) :=
  '(n, p) ← node_alloc p;
  match n with
  | None => Ok (None, p)
  | Some _ =>
      p ← AvlCore.write p n (AvlCore.set_key k);
      p ← AvlCore.write p n (AvlCore.set_value v);
      Ok (n, p)
  end.

Definition map_insert (fuel : nat) (m : u32map_t V) (k : Z) (v : V)
    : result (Z * u32map_t V) :=
  '(rc, t) ← AvlCore.map_insert node_new u32_order fuel (state_of m) k v;
  Ok (rc, of_state t).

Definition map_put (fuel : nat) (m : u32map_t V) (k : Z) (v : V)
    : result (Z * u32map_t V) :=
  ex ← find_node fuel m k;
  match ex with
  | Some _ =>
      p ← AvlCore.write (pool m) ex (AvlCore.set_value v);
      Ok (2, U32Map p (size m) (root m))
  | None => map_insert fuel m k v
  end.

Definition map_find (fuel : nat) (m : u32map_t V) (k : Z) : result V :=
  n ← find_node fuel m k;
  match n with
  | Some _ => nd ← AvlCore.deref (pool m) n; Ok (AvlCore.value nd)
  | None => Ok null
  end.

(** [node_free(m, n); if (m->size > 0) m->size--;] *)
Definition release (t : AvlCore.tree_state (list (node_t V))) (n : ptr)
    : result (AvlCore.tree_state (list (node_t V))) :=
  p ← node_free (AvlCore.ts_mem t) n;
  Ok (AvlCore.TreeState (AvlCore.ts_root t)
        (if AvlCore.ts_size t >? 0 then AvlCore.ts_size t - 1
         else AvlCore.ts_size t) p).

Definition map_erase (fuel : nat) (m : u32map_t V) (k : Z)
    : result (Z * u32map_t V) :=
  '(rc, t) ← AvlCore.map_erase release u32_order fuel (state_of m) k;
  Ok (rc, of_state t).

Definition map_size (m : option (u32map_t V)) : Z :=
  match m with
  | Some m => size m
  | None => 0
  end.

Definition map_begin (fuel : nat) (m : option (u32map_t V)) : result ptr :=
  match m with
  | Some m => AvlCore.subtree_min fuel (pool m) (root m)
  | None => Ok None
  end.

Definition map_next (fuel : nat) (m : u32map_t V) (it : ptr) : result ptr :=
  AvlCore.map_next fuel (pool m) it.

End code.
End PoolMap.

(** ** Abstract trees and what it means for the node memory to hold one *)
Module Tree.
Import AvlCore.

(** A binary tree whose nodes carry their address and their stored
    [height] field. *)
Inductive tree (K V : Type) : Type :=
| E
| T (a : nat) (l : tree K V) (k : K) (v : V) (h : Z) (r : tree K V).
Arguments E {K V}.
Arguments T {K V} a l k v h r.

(** On which side of its parent a subtree hangs. *)
Inductive dir : Type := L | R.

(** One step of a path from a node up to the root: the parent node, the
    side on which the path continues below it, and the subtree on the other
    side. *)
Record frame (K V : Type) : Type := Frame {
  f_dir : dir;
  f_addr : nat;
  f_key : K;
  f_val : V;
  f_ht : Z;
  f_sib : tree K V
}.
Arguments Frame {K V} _ _ _ _ _ _.
Arguments f_dir {K V} _.
Arguments f_addr {K V} _.
Arguments f_key {K V} _.
Arguments f_val {K V} _.
Arguments f_ht {K V} _.
Arguments f_sib {K V} _.

Section defs.
Context {K V : Type}.
Implicit Types (t l r : tree K V) (f : frame K V) (c : list (frame K V)).

Definition root_ptr t : ptr :=
  match t with
  | E => None
  | T a _ _ _ _ _ => Some a
  end.

(** The stored height of the root, [node_height]. *)
Definition ht t : Z :=
  match t with
  | E => 0
  | T _ _ _ _ h _ => h
  end.

(** Nodes in symmetric order. *)
Fixpoint inorder t : list (nat * (K * V)) :=
  match t with
  | E => []
  | T a l k v _ r => inorder l ++ (a, (k, v)) :: inorder r
  end.

Definition addrs t : list nat := (inorder t).*1.
Definition entries t : list (K * V) := (inorder t).*2.
Definition keys t : list K := (entries t).*1.

Fixpoint count t : nat :=
  match t with
  | E => O
  | T _ l _ _ _ r => S (count l + count r)
  end.

(** The number of nodes on the longest path from the root down. *)
Fixpoint depth t : nat :=
  match t with
  | E => O
  | T _ l _ _ _ r => S (Nat.max (depth l) (depth r))
  end.

Definition fill f t : tree K V :=
  match f_dir f with
  | L => T (f_addr f) t (f_key f) (f_val f) (f_ht f) (f_sib f)
  | R => T (f_addr f) (f_sib f) (f_key f) (f_val f) (f_ht f) t
  end.

(** [plug c t]: the tree with [t] at the end of the path [c]; the first
    frame of [c] is the parent of [t], the last one is the root. *)
Fixpoint plug c t : tree K V :=
  match c with
  | [] => t
  | f :: c => plug c (fill f t)
  end.

Definition ctx_parent c : ptr :=
  match c with
  | [] => None
  | f :: _ => Some (f_addr f)
  end.

(** The root pointer of [plug c t] when [p] is the root pointer of [t]. *)
Fixpoint ctx_root c (p : ptr) : ptr :=
  match c with
  | [] => p
  | f :: c => ctx_root c (Some (f_addr f))
  end.

(** Nodes of the context before and after the hole, in symmetric order. *)
Fixpoint before c : list (nat * (K * V)) :=
  match c with
  | [] => []
  | f :: c =>
      before c ++
      match f_dir f with
      | L => []
      | R => inorder (f_sib f) ++ [(f_addr f, (f_key f, f_val f))]
      end
  end.

Fixpoint after c : list (nat * (K * V)) :=
  match c with
  | [] => []
  | f :: c =>
      match f_dir f with
      | L => (f_addr f, (f_key f, f_val f)) :: inorder (f_sib f)
      | R => []
      end ++ after c
  end.

(** *** Distinctness of addresses, in a form that computes on a tree
    whose upper part is known *)

Fixpoint notin (n : nat) t : Prop :=
  match t with
  | E => True
  | T m l _ _ _ r => n ≠ m ∧ notin n l ∧ notin n r
  end.

Fixpoint disj t1 t2 : Prop :=
  match t1 with
  | E => True
  | T m l _ _ _ r => notin m t2 ∧ disj l t2 ∧ disj r t2
  end.

Fixpoint distinct t : Prop :=
  match t with
  | E => True
  | T a l _ _ _ r =>
      notin a l ∧ notin a r ∧ disj l r ∧ distinct l ∧ distinct r
  end.

Fixpoint notin_ctx (n : nat) c : Prop :=
  match c with
  | [] => True
  | f :: c => n ≠ f_addr f ∧ notin n (f_sib f) ∧ notin_ctx n c
  end.

Fixpoint disj_ctx t c : Prop :=
  match c with
  | [] => True
  | f :: c => notin (f_addr f) t ∧ disj t (f_sib f) ∧ disj_ctx t c
  end.

Fixpoint distinct_ctx c : Prop :=
  match c with
  | [] => True
  | f :: c =>
      notin (f_addr f) (f_sib f) ∧ notin_ctx (f_addr f) c ∧
      disj_ctx (f_sib f) c ∧ distinct (f_sib f) ∧ distinct_ctx c
  end.

(** *** The pure counterparts of the node-level code *)

(** A node whose height field has just been recomputed by
    [update_height]. *)
Definition mk (a : nat) l (k : K) (v : V) r : tree K V :=
  T a l k v (Z.max (ht l) (ht r) + 1) r.

Definition rot_right t : tree K V :=
  match t with
  | T y (T x A kx vx _ B) ky vy _ C => mk x A kx vx (mk y B ky vy C)
  | _ => t
  end.

Definition rot_left t : tree K V :=
  match t with
  | T x A kx vx _ (T y B ky vy _ C) => mk y (mk x A kx vx B) ky vy C
  | _ => t
  end.

Definition rebal t : tree K V :=
  match t with
  | E => E
  | T a l k v _ r =>
      if ht l - ht r >? 1 then
        match l with
        | T _ ll _ _ _ lr =>
            if ht ll >=? ht lr then rot_right (mk a l k v r)
            else rot_right (mk a (rot_left l) k v r)
        | E => mk a l k v r
        end
      else if ht l - ht r <? -1 then
        match r with
        | T _ rl _ _ _ rr =>
            if ht rr >=? ht rl then rot_left (mk a l k v r)
            else rot_left (mk a l k v (rot_right r))
        | E => mk a l k v r
        end
      else mk a l k v r
  end.

(** The ascent loop: rebalance every node of the path, innermost first. *)
Fixpoint rebal_up c t : tree K V :=
  match c with
  | [] => t
  | f :: c => rebal_up c (rebal (fill f t))
  end.

(** *** The pure counterparts of the search loops *)

(** Where the descent for [k] from the root of [t] ends, below the path
    [c]: at the node whose key compares equal to [k], or at the empty
    position where [k] would be attached. *)
Fixpoint locate (cmp : K → K → Z) (k : K) t c : list (frame K V) * tree K V :=
  match t with
  | E => (c, E)
  | T a l k' v h r =>
      let cv := cmp k k' in
      if cv =? 0 then (c, t)
      else if cv <? 0 then locate cmp k l (Frame L a k' v h r :: c)
      else locate cmp k r (Frame R a k' v h l :: c)
  end.

(** The value of [cmpv] when the descent of [map_insert] has followed the
    path [c]. *)
Definition last_cmp (cmp : K → K → Z) (k : K) c : Z :=
  match c with
  | [] => 0
  | f :: _ => cmp k (f_key f)
  end.

(** The leftmost node of [t] (which is not [E]), as a path below [c] and
    the node. *)
Fixpoint min_path t c : list (frame K V) * tree K V :=
  match t with
  | E => (c, E)
  | T a E _ _ _ _ => (c, t)
  | T a l k v h r => min_path l (Frame L a k v h r :: c)
  end.

Fixpoint max_path t c : list (frame K V) * tree K V :=
  match t with
  | E => (c, E)
  | T a _ _ _ _ E => (c, t)
  | T a l k v h r => max_path r (Frame R a k v h l :: c)
  end.

(** [map_insert] of a key that is not present: the new node [n] is
    attached at the end of the search path, then the path is rebalanced. *)
Definition insert_at c (n : nat) (k : K) (v : V) : tree K V :=
  rebal_up c (T n E k v 1 E).

(** [erase_node] on the node at the end of the path [c]: the path to the
    position that is emptied, the subtree that takes this position, and the
    address of the node that is unlinked and released.  With two children
    the successor's key and value have gone to [n] and it is the
    successor's node that is unlinked. *)
Definition erase_pos c t : list (frame K V) * tree K V * option nat :=
  match t with
  | E => (c, E, None)
  | T n l kn vn hn r =>
      match l, r with
      | T _ _ _ _ _ _, T _ _ _ _ _ _ =>
          match min_path r [] with
          | (c2, T sa _ ks vs _ sr) =>
              (c2 ++ Frame R n ks vs hn l :: c, sr, Some sa)
          | (_, E) => (c, t, None)
          end
      | T _ _ _ _ _ _, E => (c, l, Some n)
      | E, _ => (c, r, Some n)
      end
  end.

(** [erase_node] followed by the rebalancing loop of [map_erase]. *)
Definition erase_at c t : tree K V :=
  rebal_up (erase_pos c t).1.1 (erase_pos c t).1.2.

(** *** Invariants *)

(** Every height field is [1 + max] of the children's. *)
Fixpoint hts_ok t : Prop :=
  match t with
  | E => True
  | T _ l _ _ h r => h = Z.max (ht l) (ht r) + 1 ∧ hts_ok l ∧ hts_ok r
  end.

Fixpoint hts_ok_ctx c : Prop :=
  match c with
  | [] => True
  | f :: c => hts_ok (f_sib f) ∧ hts_ok_ctx c
  end.

(** Every height field is [1 + max] of the children's, and every node is
    balanced. *)
Fixpoint avl t : Prop :=
  match t with
  | E => True
  | T _ l _ _ h r =>
      h = Z.max (ht l) (ht r) + 1 ∧ -1 ≤ ht l - ht r ≤ 1 ∧ avl l ∧ avl r
  end.

(** The context of an AVL tree around a hole that held a subtree of
    height [h]. *)
Fixpoint avl_ctx c (h : Z) : Prop :=
  match c with
  | [] => True
  | f :: c =>
      avl (f_sib f) ∧ -1 ≤ h - ht (f_sib f) ≤ 1 ∧
      avl_ctx c (Z.max h (ht (f_sib f)) + 1)
  end.

(** The node that takes the place of an erased node with at most one
    child. *)
Definition only_child l r : tree K V :=
  match l with
  | E => r
  | _ => l
  end.

(** The keys of a list of nodes. *)
Definition node_keys (xs : list (nat * (K * V))) : list K := xs.*2.*1.

(** The shape of a tree: everything but the values. *)
Fixpoint strip t : tree K unit :=
  match t with
  | E => E
  | T a l k _ h r => T a (strip l) k tt h (strip r)
  end.

End defs.

(** *** Order *)

(** The comparator is a three-way comparison for a total order on keys
    (up to the equivalence [cmp a b = 0]). *)
Class CmpOrder {K : Type} (cmp : K → K → Z) : Prop := {
  cmp_antisym : ∀ a b, Z.sgn (cmp b a) = - Z.sgn (cmp a b);
  cmp_trans : ∀ a b c, cmp a b < 0 → cmp b c < 0 → cmp a c < 0;
  cmp_equiv : ∀ a b c, cmp a b = 0 → Z.sgn (cmp a c) = Z.sgn (cmp b c)
}.

(** Strictly increasing in comparator order. *)
Fixpoint increasing {K : Type} (cmp : K → K → Z) (l : list K) : Prop :=
  match l with
  | [] => True
  | x :: l => Forall (λ y, cmp x y < 0) l ∧ increasing cmp l
  end.

(** The binary-search-tree property: the keys in symmetric order are
    strictly increasing. *)
Definition bst {K V : Type} (cmp : K → K → Z) (t : tree K V) : Prop :=
  increasing cmp (keys t).

(** The same property stated node by node. *)
Fixpoint bst_nodes {K V : Type} (cmp : K → K → Z) (t : tree K V) : Prop :=
  match t with
  | E => True
  | T _ l k _ _ r =>
      Forall (λ x, cmp x k < 0) (keys l) ∧ Forall (λ y, cmp k y < 0) (keys r) ∧
      bst_nodes cmp l ∧ bst_nodes cmp r
  end.

(** The value stored under a key equivalent to [k], as the descent finds
    it. *)
Definition find_val {K V : Type} (cmp : K → K → Z) (k : K) (t : tree K V)
    : option V :=
  match (locate cmp k t []).2 with
  | T _ _ _ v _ _ => Some v
  | E => None
  end.

(** The directions taken by the descent agree with the comparisons. *)
Definition dir_ok {K V : Type} (cmp : K → K → Z) (k : K) (f : frame K V)
    : Prop :=
  match f_dir f with
  | L => cmp k (f_key f) < 0
  | R => 0 < cmp k (f_key f)
  end.

(** *** Representation in the node memory *)
Section rep.
Context {K V S : Type} `{!NodeStore K V S}.
Implicit Types (t l r : tree K V) (f : frame K V) (c : list (frame K V)).

(** Every node of [t] is a live object of [s] whose fields are those of
    the tree; the root's [parent] field is [par]. *)
Fixpoint cells_ok (s : S) (par : ptr) t : Prop :=
  match t with
  | E => True
  | T a l k v h r =>
      live s a ∧
      load s a = Some (MapNode k v (root_ptr l) (root_ptr r) par h) ∧
      cells_ok s (Some a) l ∧ cells_ok s (Some a) r
  end.

Definition rep (s : S) (par : ptr) t : Prop :=
  distinct t ∧ cells_ok s par t.

(** The nodes of the path [c], with the child pointer towards the hole
    being [hole]. *)
Fixpoint ctx_ok (s : S) c (hole : ptr) : Prop :=
  match c with
  | [] => True
  | f :: c' =>
      live s (f_addr f) ∧
      load s (f_addr f) =
        Some (MapNode (f_key f) (f_val f)
                (match f_dir f with L => hole | R => root_ptr (f_sib f) end)
                (match f_dir f with L => root_ptr (f_sib f) | R => hole end)
                (ctx_parent c') (f_ht f)) ∧
      cells_ok s (Some (f_addr f)) (f_sib f) ∧
      ctx_ok s c' (Some (f_addr f))
  end.

(** [s'] has the same nodes as [s] at the addresses satisfying [Q], and
    the same live objects. *)
Definition unchanged_on (Q : nat → Prop) (s s' : S) : Prop :=
  (∀ b, Q b → load s' b = load s b) ∧ (∀ b, live s' b ↔ live s b).

(** [s'] differs from [s] at most at the nodes of [t]. *)
Definition same_outside t (s s' : S) : Prop :=
  unchanged_on (λ b, notin b t) s s'.

(** A symbolic footprint: the nodes at the listed addresses are exactly
    the listed ones in [s], and [s] differs from [s0] only there. *)
Record sym (s0 s : S) (fp : list (nat * map_node_t K V)) : Prop := Sym {
  sym_nodup : NoDup fp.*1;
  sym_agree : ∀ i a n, fp !! i = Some (a, n) → load s a = Some n;
  sym_frame : unchanged_on (λ b, b ∉ fp.*1) s0 s
}.

(** [s'] has the same live objects as [s]. *)
Definition same_live (s s' : S) : Prop := ∀ b, live s' b ↔ live s b.

(** What the variant's allocation of a node guarantees: [n] was not live,
    now is and holds [nd]; nothing else has changed. *)
Definition alloc_post (s s' : S) (n : nat) (nd : map_node_t K V) : Prop :=
  ¬ live s n ∧ live s' n ∧ load s' n = Some nd ∧
  ∀ b, b ≠ n → load s' b = load s b ∧ (live s' b ↔ live s b).

(** Which objects are live after [n] has been released. *)
Definition live_except (s s' : S) (n : nat) : Prop :=
  ¬ live s' n ∧ ∀ b, b ≠ n → (live s' b ↔ live s b).

(** What the variant's release of a node guarantees. *)
Definition free_post (s s' : S) (n : nat) : Prop :=
  ¬ live s' n ∧ ∀ b, b ≠ n → load s' b = load s b ∧ (live s' b ↔ live s b).

Definition release_ok
    (release : tree_state S → ptr → result (tree_state S))
    (dec : Z → Z) : Prop :=
  ∀ root size s n, is_Some (load s n) →
    ∃ s', release (TreeState root size s) (Some n)
          = Ok (TreeState root (dec size) s') ∧ free_post s s' n.

End rep.
End Tree.

Import AvlCore Tree.

Section height_defs.

(** One more than the least number of nodes of a balanced tree of depth
    [d]. *)
Fixpoint least (d : nat) : nat :=
  match d with
  | O => 1
  | Datatypes.S d' =>
      match d' with
      | O => 2
      | Datatypes.S d'' => least d' + least d''
      end
  end.

End height_defs.

(** ** What the theorems say about the [malloc]-backed map *)
Module DynSpec.
Import DynMap.

Section dyn_defs.
Context {K V : Type} `{!EqDecision K, !EqDecision V}
        `{!Nullable K, !Nullable V}.

(** The comparator and the ownership callbacks of [m'] are those of [m]. *)
Definition same_config (m m' : map_t K V) : Prop :=
  cmp m' = cmp m ∧ key_dup m' = key_dup m ∧ key_free m' = key_free m ∧
  val_dup m' = val_dup m ∧ val_free m' = val_free m.

(** The nodes reachable from [m->root] are laid out as the tree [t], which
    is a balanced search tree with correct height fields. *)
Record map_ok (m : map_t K V) (t : tree K V) : Prop := MapOk {
  ok_root : root m = root_ptr t;
  ok_rep : rep (mem m) None t;
  ok_avl : avl t;
  ok_bst : bst (cmp m) t
}.

(** [m->size] is the number of nodes, and fits [size_t]. *)
Definition sized (m : map_t K V) (t : tree K V) : Prop :=
  size m = Z.of_nat (count t) ∧ Z.of_nat (count t) < size_t_max.

(** What [key_dup] returns compares equal to its argument. *)
Definition dup_ok (m : map_t K V) : Prop :=
  ∀ k, cmp m k (dup_or_raw (key_dup m) k) = 0.

(** No key of [t] compares equal to [k]. *)
Definition absent (cmp : K → K → Z) (k : K) (t : tree K V) : Prop :=
  ∀ k' v', (k', v') ∈ entries t → cmp k k' ≠ 0.

End dyn_defs.

Section dyn_ops.
Context {K V : Type} `{!EqDecision K, !EqDecision V}
        `{!Nullable K, !Nullable V}.

(** A call of one of the three mutating functions of the interface;
    [malloc_ok] tells whether the [malloc] of [node_new] succeeds, should
    the call reach it. *)
Inductive op : Type :=
| Insert (malloc_ok : bool) (k : K) (v : V)
| Put (malloc_ok : bool) (k : K) (v : V)
| Erase (k : K).

Definition apply_op (fuel : nat) (m : option (map_t K V)) (o : op)
    : result (Z * option (map_t K V)) :=
  match o with
  | Insert b k v => map_insert fuel b m k v
  | Put b k v => map_put fuel b m k v
  | Erase k => map_erase fuel m k
  end.

(** The calls [ops] in sequence, return codes dropped. *)
Fixpoint run (fuel : nat) (m : option (map_t K V)) (ops : list op)
    : result (option (map_t K V)) :=
  match ops with
  | [] => Ok m
  | o :: ops => '(_, m') ← apply_op fuel m o; run fuel m' ops
  end.

(** [map_insert] of every pair of [kvs] in turn; the result lists the
    return codes. *)
Fixpoint insert_all (fuel : nat) (m : option (map_t K V)) (kvs : list (K * V))
    : result (list Z * option (map_t K V)) :=
  match kvs with
  | [] => Ok ([], m)
  | (k, v) :: kvs =>
      '(rc, m') ← map_insert fuel true m k v;
      '(rcs, m'') ← insert_all fuel m' kvs;
      Ok (rc :: rcs, m'')
  end.

(** The iterators visited by the forward loop. *)
Definition iters_forward (fuel n : nat) (m : map_t K V) : result (list ptr) :=
  it ← map_begin fuel (Some m);
  visit Ok (map_next fuel m) n it.

End dyn_ops.
Arguments op : clear implicits.

Section dyn_defs2.
Context {K : Type}.

(** No two keys of the list compare equal. *)
Fixpoint distinct_keys (cmp : K → K → Z) (ks : list K) : Prop :=
  match ks with
  | [] => True
  | k :: ks => Forall (λ k', cmp k k' ≠ 0) ks ∧ distinct_keys cmp ks
  end.

End dyn_defs2.

Section clear_defs.
Context {K V : Type} `{!EqDecision K, !EqDecision V}
        `{!Nullable K, !Nullable V}.

(** The callbacks that [node_free] invokes for a node holding [k] and
    [v]: [key_free] on a non-[NULL] key, then [val_free] on a non-[NULL]
    value, each only when configured. *)
Definition node_events (kf vf : bool) (k : K) (v : V) : list (event K V) :=
  (if kf && bool_decide (k ≠ null) then [KeyFree k] else []) ++
  (if vf && bool_decide (v ≠ null) then [ValFree v] else []).

(** The callbacks of [free_subtree]: left subtree, right subtree, then
    the node. *)
Fixpoint free_events (kf vf : bool) (t : tree K V) : list (event K V) :=
  match t with
  | E => []
  | T _ l k v _ r =>
      free_events kf vf l ++ free_events kf vf r ++ node_events kf vf k v
  end.

(** Every allocated node is a node of the tree. *)
Definition tight (m : map_t K V) (t : tree K V) : Prop :=
  ∀ b, is_Some (heap (mem m) !! b) → ¬ notin b t.

End clear_defs.

Section trace_defs.
Context {K V : Type} `{!EqDecision K, !EqDecision V}.

(** [w'] has the log of [w], and its nodes have the keys and values they
    have in [w]. *)
Definition same_kv (w w' : world K V) : Prop :=
  trace w' = trace w ∧
  ∀ a nd, heap w !! a = Some nd →
    ∃ nd', heap w' !! a = Some nd' ∧ key nd' = key nd ∧ value nd' = value nd.

End trace_defs.
End DynSpec.

(** ** What the theorems say about the pool-backed map *)
Module PoolSpec.
Import PoolMap.

Section pool_defs.
Context {V : Type} `{!Nullable V}.

(** The pool has [MAX_NODES] slots, the used ones are the first
    [count t], and they are laid out as the balanced search tree [t]. *)
Record pool_ok (m : u32map_t V) (t : tree Z V) : Prop := PoolOk {
  pk_len : length (pool m) = MAX_NODES;
  pk_root : root m = root_ptr t;
  pk_rep : rep (pool m) None t;
  pk_avl : avl t;
  pk_bst : bst u32_order t;
  pk_size : size m = Z.of_nat (count t);
  pk_used : ∀ j, pool_live (pool m) j ↔ (j < count t)%nat
}.

(** [map_insert] of every pair of [kvs] in turn; the result lists the
    return codes. *)
Fixpoint pool_insert_all (fuel : nat) (m : u32map_t V) (kvs : list (Z * V))
    : result (list Z * u32map_t V) :=
  match kvs with
  | [] => Ok ([], m)
  | (k, v) :: kvs =>
      '(rc, m') ← map_insert fuel m k v;
      '(rcs, m'') ← pool_insert_all fuel m' kvs;
      Ok (rc :: rcs, m'')
  end.

End pool_defs.
End PoolSpec.

Module PoolSpec2.
Import PoolMap.

Section pool_defs2.
Context {V : Type} `{!Nullable V}.

(** The pool has [MAX_NODES] slots, the slots in use are the nodes of
    the balanced search tree [t], and [size] is their number. *)
Record pool_inv (m : u32map_t V) (t : tree Z V) : Prop := PoolInv {
  pi_len : length (pool m) = MAX_NODES;
  pi_root : root m = root_ptr t;
  pi_rep : rep (pool m) None t;
  pi_avl : avl t;
  pi_bst : bst u32_order t;
  pi_size : size m = Z.of_nat (count t);
  pi_used : ∀ j, pool_live (pool m) j ↔ j ∈ addrs t
}.

(** A call of one of the three mutating functions. *)
Inductive pool_op : Type :=
| PInsert (k : Z) (v : V)
| PPut (k : Z) (v : V)
| PErase (k : Z).

Definition pool_apply (fuel : nat) (m : u32map_t V) (o : pool_op)
    : result (Z * u32map_t V) :=
  match o with
  | PInsert k v => map_insert fuel m k v
  | PPut k v => map_put fuel m k v
  | PErase k => map_erase fuel m k
  end.

(** The calls [ops] in sequence, return codes dropped. *)
Fixpoint pool_run (fuel : nat) (m : u32map_t V) (ops : list pool_op)
    : result (u32map_t V) :=
  match ops with
  | [] => Ok m
  | o :: ops => '(_, m') ← pool_apply fuel m o; pool_run fuel m' ops
  end.

(** The loop [for (it = map_begin(&map); it != NULL; it = map_next(it))]
    of [main], reading [it->key]. *)
Definition pool_keys_forward (fuel n : nat) (m : u32map_t V)
    : result (list Z) :=
  it ← map_begin fuel (Some m);
  visit (λ it, nd ← deref (pool m) it; Ok (AvlCore.key nd))
        (map_next fuel m) n it.

End pool_defs2.
Arguments pool_op : clear implicits.

End PoolSpec2.

Module Examples.
Import DynMap DynSpec.

(** ** Concrete maps over integer keys and values *)

(** A three-way comparison of integers. *)
Definition z_cmp (a b : Z) : Z := a - b.

(** [NULL] for integer keys and values is [0]. *)
#[global] Instance Z_nullable : Nullable Z := 0.

(** One node, [1 ↦ v], at address [0]; [val_free] is configured. *)
Definition one_node (v : Z) : map_t Z Z :=
  Map (Some 0%nat) 1 z_cmp None false None true
      (World {[0%nat := MapNode 1 v None None None 1]} []).

Definition one_tree (v : Z) : tree Z Z := T 0 E 1 v 1 E.

(** Three nodes: [2 ↦ 20] at the root, [1 ↦ 10] to its left and
    [3 ↦ 30] to its right. *)
Definition three_heap : gmap nat (map_node_t Z Z) :=
  {[0%nat := MapNode 2 20 (Some 1%nat) (Some 2%nat) None 2;
    1%nat := MapNode 1 10 None None (Some 0%nat) 1;
    2%nat := MapNode 3 30 None None (Some 0%nat) 1]}.

Definition three_nodes : map_t Z Z :=
  Map (Some 0%nat) 3 z_cmp None false None false (World three_heap []).

Definition three_tree : tree Z Z :=
  T 0 (T 1 E 1 10 1 E) 2 20 2 (T 2 E 3 30 1 E).

(** A node left-heavy by two whose left child has subtrees of equal
    heights, as an erase on its right side leaves it. *)
Definition left_heavy : world Z Z :=
  World {[0%nat := MapNode 4 40 (Some 1%nat) None None 3;
          1%nat := MapNode 2 20 (Some 2%nat) (Some 3%nat) (Some 0%nat) 2;
          2%nat := MapNode 1 10 None None (Some 1%nat) 1;
          3%nat := MapNode 3 30 None None (Some 1%nat) 1]} [].

(** Its mirror image. *)
Definition right_heavy : world Z Z :=
  World {[0%nat := MapNode 1 10 None (Some 1%nat) None 3;
          1%nat := MapNode 3 30 (Some 2%nat) (Some 3%nat) (Some 0%nat) 2;
          2%nat := MapNode 2 20 None None (Some 1%nat) 1;
          3%nat := MapNode 4 40 None None (Some 1%nat) 1]} [].

(** A pool of [MAX_NODES] slots, and as many pairs with the keys
    [0 .. MAX_NODES - 1]. *)
Definition empty_pool : PoolMap.u32map_t Z :=
  PoolMap.U32Map (replicate PoolMap.MAX_NODES PoolMap.blank) 0 None.

Definition pool_pairs : list (Z * Z) :=
  (λ i, (Z.of_nat i, 7)) <$> seq 0 PoolMap.MAX_NODES.

(** The keys read by the forward loop after the given calls on a new map
    with integer keys and no ownership callbacks. *)
Definition keys_after (ops : list (op Z Z)) : result (list Z) :=
  m ← run 16 (map_create true (Some z_cmp) None false None false) ops;
  match m with
  | Some m => keys_forward 16 16 m
  | None => Ok []
  end.

(** ** Three nodes owned by the map *)

(** The nodes of [three_nodes] in a map with both free callbacks
    configured. *)
Definition three_owned : map_t Z Z :=
  Map (Some 0%nat) 3 z_cmp None true None true (World three_heap []).

(** ** A pool with one slot in use *)

(** The entry [7 ↦ 70] in slot [3]; every other slot is free. *)
Definition pool_one : PoolMap.u32map_t Z :=
  PoolMap.U32Map
    (<[3%nat := PoolMap.Node 7 70 None None None 1 1]>
       (replicate PoolMap.MAX_NODES PoolMap.blank))
    1 (Some 3%nat).

Definition pool_one_tree : tree Z Z := T 3 E 7 70 1 E.
End Examples.

Section tree_basic.
Context {K V : Type}.
Implicit Types (t l r : tree K V).

Lemma addrs_T a l k v h r :
  addrs (T a l k v h r) = addrs l ++ a :: addrs r.
Proof. unfold addrs. simpl. by rewrite fmap_app. Qed.

Lemma max_if (a b : Z) : (if a >? b then a else b) = Z.max a b.
Proof. destruct (Z.gtb_spec a b); lia. Qed.

Lemma notin_spec n t : notin n t ↔ n ∉ addrs t.
Proof.
  unfold addrs. induction t as [|a l IHl k v h r IHr]; simpl.
  - split; [intros _; apply not_elem_of_nil|done].
  - rewrite fmap_app, not_elem_of_app, fmap_cons, not_elem_of_cons.
    simpl. tauto.
Qed.

Lemma disj_E_r t : disj t (@E K V) ↔ True.
Proof. induction t; simpl; tauto. Qed.

Lemma disj_T_r t a l k v h r :
  disj t (T a l k v h r) ↔ notin a t ∧ disj t l ∧ disj t r.
Proof.
  induction t as [|b tl IHl kb vb hb tr IHr]; simpl; [tauto|].
  rewrite IHl, IHr. intuition congruence.
Qed.

Lemma disj_sym t1 t2 : disj t1 t2 → disj t2 t1.
Proof.
  revert t2. induction t1 as [|a l IHl k v h r IHr]; intros t2; simpl.
  - intros _. by apply disj_E_r.
  - intros (Ha & Hl & Hr). apply disj_T_r. auto.
Qed.

Lemma notin_dec b t : {notin b t} + {¬ notin b t}.
Proof.
  induction t as [|a l IHl k v h r IHr]; simpl; [by left|].
  destruct (decide (b = a)) as [->|Hne]; [right; tauto|].
  destruct IHl; [|right; tauto]. destruct IHr; [|right; tauto].
  by left.
Qed.

Lemma notin_disj b t t' : disj t' t → ¬ notin b t' → notin b t.
Proof.
  induction t' as [|a l IHl k v h r IHr]; simpl; [tauto|].
  intros (Ha & Hl & Hr) Hn.
  destruct (decide (b = a)) as [->|Hne]; [done|].
  destruct (notin_dec b l) as [Hbl|Hbl]; [|by apply IHl].
  apply IHr; [done|]. tauto.
Qed.

Lemma hts_ok_nonneg t : hts_ok t → 0 ≤ ht t.
Proof. destruct t as [|a l k v h r]; simpl; [lia|]. intros (-> & Hl & Hr).
  revert Hl Hr. clear. revert r.
  induction l as [|a l IHl k v h r' IHr]; intros r.
  - destruct r; simpl; lia.
  - simpl. intros (-> & Hl & Hr) _. specialize (IHl r' Hl Hr). lia.
Qed.

End tree_basic.

Section sym_facts.
Context {K V S : Type} `{!NodeStore K V S}.
Implicit Types (s : S) (t l r : tree K V) (f : frame K V) (c : list (frame K V)).
Implicit Types (fp : list (nat * map_node_t K V)).

Lemma unchanged_on_refl (Q : nat → Prop) s : unchanged_on Q s s.
Proof. split; intros; reflexivity. Qed.

Lemma unchanged_on_trans (Q : nat → Prop) s1 s2 s3 :
  unchanged_on Q s1 s2 → unchanged_on Q s2 s3 → unchanged_on Q s1 s3.
Proof.
  intros [H1 H1'] [H2 H2']. split; intros b.
  - intros Hb. rewrite H2, H1; done.
  - rewrite H2', H1'. done.
Qed.

Lemma unchanged_on_mono (Q Q' : nat → Prop) s s' :
  (∀ b, Q' b → Q b) → unchanged_on Q s s' → unchanged_on Q' s s'.
Proof. intros HQ [H1 H2]. split; [|done]. intros b Hb. apply H1. eauto. Qed.

Lemma sym_start s fp :
  NoDup fp.*1 → (∀ i a n, fp !! i = Some (a, n) → load s a = Some n) →
  sym s s fp.
Proof. intros. split; [done..|]. apply unchanged_on_refl. Qed.

Lemma sym_deref s0 s fp i a n :
  sym s0 s fp → fp !! i = Some (a, n) → deref s (Some a) = Ok n.
Proof. intros [_ Hag _] Hi. unfold deref. by rewrite (Hag _ _ _ Hi). Qed.

Lemma sym_write s0 s fp i a n g :
  sym s0 s fp → fp !! i = Some (a, n) →
  ∃ s', write s (Some a) g = Ok s' ∧ sym s0 s' (<[i:=(a, g n)]> fp).
Proof.
  intros [Hnd Hag [Hfr Hlv]] Hi.
  pose proof (Hag _ _ _ Hi) as Ha.
  exists (store s a (g n)). split.
  { unfold write. by rewrite Ha. }
  assert (Hfst : (<[i:=(a, g n)]> fp).*1 = fp.*1).
  { rewrite list_fmap_insert. simpl. apply list_insert_id.
    rewrite list_lookup_fmap, Hi. done. }
  split.
  - by rewrite Hfst.
  - intros j b m Hj. rewrite load_store by eauto.
    destruct (decide (j = i)) as [->|Hji].
    + rewrite list_lookup_insert_eq in Hj by (by eapply lookup_lt_Some).
      injection Hj as <- <-. by rewrite decide_True.
    + rewrite list_lookup_insert_ne in Hj by done.
      rewrite decide_False; [by eapply Hag|].
      intros ->. apply Hji.
      eapply NoDup_lookup; [exact Hnd| |].
      * rewrite list_lookup_fmap, Hj. done.
      * rewrite list_lookup_fmap, Hi. done.
  - rewrite Hfst. split.
    + intros b Hb. rewrite load_store by eauto.
      rewrite decide_False; [by apply Hfr|].
      intros ->. apply Hb. apply list_elem_of_lookup. exists i.
      rewrite list_lookup_fmap, Hi. done.
    + intros b. rewrite live_store by eauto. apply Hlv.
Qed.

Lemma sym_nil s : sym s s [].
Proof. apply sym_start; [constructor|]. intros i a n Hi. by destruct i. Qed.

Lemma sym_cons s a n fp :
  load s a = Some n → a ∉ fp.*1 → sym s s fp → sym s s ((a, n) :: fp).
Proof.
  intros Ha Hni [Hnd Hag _]. apply sym_start.
  - simpl. by constructor.
  - intros [|i] b m; simpl.
    + by intros [= <- <-].
    + apply Hag.
Qed.

Lemma cells_ok_unchanged (Q : nat → Prop) s s' par t :
  unchanged_on Q s s' → (∀ b, ¬ notin b t → Q b) →
  cells_ok s par t → cells_ok s' par t.
Proof.
  intros [Hfr Hlv]. revert par. induction t as [|a l IHl k v h r IHr]; [done|].
  intros par Hd (Hl & Ha & Hcl & Hcr). simpl.
  split_and!.
  - by apply Hlv.
  - rewrite Hfr; [done|]. apply Hd. simpl. tauto.
  - apply IHl; [|done]. intros b Hb. apply Hd. simpl. tauto.
  - apply IHr; [|done]. intros b Hb. apply Hd. simpl. tauto.
Qed.

Lemma cells_ok_same_outside s s' par t t' :
  same_outside t s s' → disj t' t → cells_ok s par t' → cells_ok s' par t'.
Proof.
  intros Hso Hd. apply (cells_ok_unchanged _ _ _ _ _ Hso).
  intros b. by apply notin_disj.
Qed.

Lemma sym_live s0 s fp a : sym s0 s fp → live s0 a → live s a.
Proof. intros [_ _ [_ Hlv]]. apply Hlv. Qed.

Lemma sym_cells_ok s0 s fp par t :
  sym s0 s fp → Forall (λ n, notin n t) fp.*1 →
  cells_ok s0 par t → cells_ok s par t.
Proof.
  intros [_ _ Hfr] Hall. apply (cells_ok_unchanged _ _ _ _ _ Hfr).
  intros b Hb Hin. rewrite Forall_forall in Hall. by specialize (Hall _ Hin).
Qed.

Lemma sym_unchanged_on s0 s fp (Q : nat → Prop) :
  sym s0 s fp → (∀ b, Q b → b ∉ fp.*1) → unchanged_on Q s0 s.
Proof. intros [_ _ Hfr] Hsub. eapply unchanged_on_mono; [|exact Hfr]. done. Qed.

Lemma sym_same_outside s0 s fp t :
  sym s0 s fp → (∀ b, notin b t → b ∉ fp.*1) → same_outside t s0 s.
Proof. intros [_ _ Hfr] Hsub. eapply unchanged_on_mono; [|exact Hfr]. done. Qed.

End sym_facts.

(** Symbolic execution of the node-level code over a footprint. *)
Ltac index_of a l :=
  lazymatch l with
  | (a, _) :: _ => constr:(O)
  | _ :: ?l' => let i := index_of a l' in constr:(S i)
  end.

Ltac sym_step :=
  lazymatch goal with
  | H : sym ?s0 ?s ?fp |- context [deref ?s (Some ?a)] =>
      let i := index_of a fp in
      rewrite (sym_deref s0 s fp i a _ H eq_refl)
  | H : sym ?s0 ?s ?fp |- context [write ?s (Some ?a) ?g] =>
      let i := index_of a fp in
      let s' := fresh "s" in
      let Hw := fresh "Hw" in
      let H' := fresh "Hsym" in
      destruct (sym_write s0 s fp i a _ g H eq_refl) as (s' & Hw & H');
      rewrite Hw; clear Hw H;
      cbn [list_insert insert] in H';
      cbv beta iota delta [set_key set_value set_left
        set_right set_parent set_height key value left right parent height]
        in H'
  end.

Ltac sym_simpl :=
  cbn [mbind result_bind node_height update_height write_if
       key value left right parent height
       set_key set_value set_left set_right set_parent set_height].

Ltac sym_cond :=
  match goal with
  | H : ?c = true |- context [if ?c then _ else _] => rewrite H
  | H : ?c = false |- context [if ?c then _ else _] => rewrite H
  end.

Ltac sym_run := repeat (sym_simpl; first [sym_cond | sym_step]); sym_simpl.

(** Distinctness facts, split into atoms. *)
Ltac distinct_split H :=
  cbn [distinct disj notin] in H;
  repeat (first [rewrite disj_T_r in H | rewrite disj_E_r in H];
          cbn [distinct disj notin] in H).

Ltac solve_names_notin :=
  cbn [fmap list_fmap fst];
  repeat (apply not_elem_of_cons; split; [congruence|]);
  apply not_elem_of_nil.

Ltac sym_add Hsym Ha :=
  lazymatch type of Ha with
  | load ?s ?a = Some ?n =>
      apply (sym_cons s a n _ Ha) in Hsym; [|solve_names_notin]
  end.

Ltac sym_load :=
  lazymatch goal with
  | H : sym _ ?s ?fp |- load ?s ?a = Some _ =>
      let i := index_of a fp in
      apply (sym_agree _ _ _ H i); reflexivity
  end.

Ltac distinct_atom :=
  first [ assumption | congruence | by apply disj_sym | exact I ].

Ltac distinct_solve :=
  cbn [distinct disj notin];
  repeat (first [rewrite disj_T_r | rewrite disj_E_r]; cbn [distinct disj notin]);
  repeat split; distinct_atom.

Ltac sym_outside :=
  lazymatch goal with
  | H : sym ?s0 ?s ?fp |- same_outside ?t ?s0 ?s =>
      apply (sym_same_outside s0 s fp t H);
      let b := fresh "b" in let Hb := fresh "Hb" in
      intros b Hb; cbn [notin] in Hb; destruct_and!; solve_names_notin
  end.

Ltac sym_live_tac :=
  lazymatch goal with
  | H : sym ?s0 ?s ?fp |- live ?s ?a => apply (sym_live s0 s fp a H); assumption
  end.

Ltac sym_frame_sub :=
  lazymatch goal with
  | H : sym ?s0 ?s ?fp |- cells_ok ?s ?p ?t =>
      apply (sym_cells_ok s0 s fp p t H);
      [cbn [fmap list_fmap fst]; repeat (apply Forall_cons_2; [assumption|]); apply Forall_nil_2
      | assumption]
  end.

(** Proves [cells_ok] of a tree whose upper nodes are in the footprint
    and whose lower subtrees are untouched. *)
Ltac sym_cells :=
  cbn [cells_ok root_ptr ht];
  repeat split; first [sym_live_tac | sym_load | sym_frame_sub | exact I].

(** Collects every known node into a footprint. *)
Ltac sym_begin s :=
  let Hs := fresh "Hsym" in
  pose proof (sym_nil s) as Hs;
  repeat match goal with
         | H : load s _ = Some _ |- _ => sym_add Hs H; clear H
         end.

Ltac sym_end :=
  eexists; split; [reflexivity|];
  rewrite ?max_if in *;
  split; [split; [distinct_solve|sym_cells]|sym_outside].

Section rotate.
Context {K V S : Type} `{!NodeStore K V S}.
Implicit Types (s : S) (t l r : tree K V).

Lemma rotate_right_rep s par y x A kx vx hx B ky vy hy C :
  rep s par (T y (T x A kx vx hx B) ky vy hy C) →
  ∃ s', rotate_right s (Some y) = Ok (Some x, s') ∧
    rep s' par (rot_right (T y (T x A kx vx hx B) ky vy hy C)) ∧
    same_outside (T y (T x A kx vx hx B) ky vy hy C) s s'.
Proof.
  intros [Hnd Hc].
  destruct A as [|a Al ka va ha Ar], B as [|b Bl kb vb hb Br],
           C as [|c' Cl kc vc hc Cr];
    cbn [cells_ok root_ptr] in Hc; distinct_split Hnd; destruct_and!;
    unfold rotate_right; sym_begin s; sym_run;
    unfold rot_right, mk; sym_end.
Qed.

Lemma rotate_left_rep s par x A kx vx hx y B ky vy hy C :
  rep s par (T x A kx vx hx (T y B ky vy hy C)) →
  ∃ s', rotate_left s (Some x) = Ok (Some y, s') ∧
    rep s' par (rot_left (T x A kx vx hx (T y B ky vy hy C))) ∧
    same_outside (T x A kx vx hx (T y B ky vy hy C)) s s'.
Proof.
  intros [Hnd Hc].
  destruct A as [|a Al ka va ha Ar], B as [|b Bl kb vb hb Br],
           C as [|c' Cl kc vc hc Cr];
    cbn [cells_ok root_ptr] in Hc; distinct_split Hnd; destruct_and!;
    unfold rotate_left; sym_begin s; sym_run;
    unfold rot_left, mk; sym_end.
Qed.

End rotate.

Section rebalance.
Context {K V S : Type} `{!NodeStore K V S}.
Implicit Types (s : S) (t l r : tree K V).

Lemma rebalance_at_balanced s par a l k v h r :
  rep s par (T a l k v h r) →
  (ht l - ht r >? 1) = false → (ht l - ht r <? -1) = false →
  ∃ s', rebalance_at s (Some a) = Ok (Some a, s') ∧
    rep s' par (mk a l k v r) ∧ same_outside (T a l k v h r) s s'.
Proof.
  intros [Hnd Hc] Hb1 Hb2.
  destruct l as [|x ll kx vx hx lr], r as [|z rl kz vz hz rr];
    cbn [cells_ok root_ptr ht] in *; distinct_split Hnd; destruct_and!;
    unfold rebalance_at; sym_begin s; sym_run; unfold mk; sym_end.
Qed.

Lemma rebalance_at_LL s par a x ll kx vx hx lr k v h r :
  rep s par (T a (T x ll kx vx hx lr) k v h r) →
  (hx - ht r >? 1) = true → (ht ll >=? ht lr) = true →
  ∃ s', rebalance_at s (Some a) = Ok (Some x, s') ∧
    rep s' par (rot_right (mk a (T x ll kx vx hx lr) k v r)) ∧
    same_outside (T a (T x ll kx vx hx lr) k v h r) s s'.
Proof.
  intros [Hnd Hc] Hb1 Hb2.
  destruct ll as [|a1 l1 k1 v1 h1 r1], lr as [|a2 l2 k2 v2 h2 r2],
           r as [|z rl kz vz hz rr];
    cbn [cells_ok root_ptr ht] in *; distinct_split Hnd; destruct_and!;
    unfold rebalance_at, rotate_right; sym_begin s; sym_run;
    unfold rot_right, mk; sym_end.
Qed.

Lemma rebalance_at_LR s par a x ll kx vx hx w wl kw vw hw wr k v h r :
  rep s par (T a (T x ll kx vx hx (T w wl kw vw hw wr)) k v h r) →
  (hx - ht r >? 1) = true → (ht ll >=? hw) = false →
  ∃ s', rebalance_at s (Some a) = Ok (Some w, s') ∧
    rep s' par (rot_right (mk a (rot_left (T x ll kx vx hx (T w wl kw vw hw wr))) k v r)) ∧
    same_outside (T a (T x ll kx vx hx (T w wl kw vw hw wr)) k v h r) s s'.
Proof.
  intros [Hnd Hc] Hb1 Hb2.
  destruct ll as [|a1 l1 k1 v1 h1 r1], wl as [|a2 l2 k2 v2 h2 r2],
           wr as [|a3 l3 k3 v3 h3 r3], r as [|z rl kz vz hz rr];
    cbn [cells_ok root_ptr ht] in *; distinct_split Hnd; destruct_and!;
    unfold rebalance_at, rotate_right, rotate_left; sym_begin s; sym_run;
    unfold rot_right, rot_left, mk; sym_end.
Qed.

Lemma rebalance_at_RR s par a l k v h z rl kz vz hz rr :
  rep s par (T a l k v h (T z rl kz vz hz rr)) →
  (ht l - hz >? 1) = false → (ht l - hz <? -1) = true →
  (ht rr >=? ht rl) = true →
  ∃ s', rebalance_at s (Some a) = Ok (Some z, s') ∧
    rep s' par (rot_left (mk a l k v (T z rl kz vz hz rr))) ∧
    same_outside (T a l k v h (T z rl kz vz hz rr)) s s'.
Proof.
  intros [Hnd Hc] Hb0 Hb1 Hb2.
  destruct l as [|x ll kx vx hx lr], rl as [|a1 l1 k1 v1 h1 r1],
           rr as [|a2 l2 k2 v2 h2 r2];
    cbn [cells_ok root_ptr ht] in *; distinct_split Hnd; destruct_and!;
    unfold rebalance_at, rotate_left; sym_begin s; sym_run;
    unfold rot_left, mk; sym_end.
Qed.

Lemma rebalance_at_RL s par a l k v h z w wl kw vw hw wr kz vz hz rr :
  rep s par (T a l k v h (T z (T w wl kw vw hw wr) kz vz hz rr)) →
  (ht l - hz >? 1) = false → (ht l - hz <? -1) = true →
  (ht rr >=? hw) = false →
  ∃ s', rebalance_at s (Some a) = Ok (Some w, s') ∧
    rep s' par (rot_left (mk a l k v (rot_right (T z (T w wl kw vw hw wr) kz vz hz rr)))) ∧
    same_outside (T a l k v h (T z (T w wl kw vw hw wr) kz vz hz rr)) s s'.
Proof.
  intros [Hnd Hc] Hb0 Hb1 Hb2.
  destruct l as [|x ll kx vx hx lr], wl as [|a2 l2 k2 v2 h2 r2],
           wr as [|a3 l3 k3 v3 h3 r3], rr as [|a1 l1 k1 v1 h1 r1];
    cbn [cells_ok root_ptr ht] in *; distinct_split Hnd; destruct_and!;
    unfold rebalance_at, rotate_right, rotate_left; sym_begin s; sym_run;
    unfold rot_right, rot_left, mk; sym_end.
Qed.

Lemma rebalance_at_rep s par a l k v h r :
  rep s par (T a l k v h r) → hts_ok l → hts_ok r →
  ∃ s', rebalance_at s (Some a)
        = Ok (root_ptr (rebal (T a l k v h r)), s') ∧
    rep s' par (rebal (T a l k v h r)) ∧
    same_outside (T a l k v h r) s s'.
Proof.
  intros Hrep Hl Hr.
  pose proof (hts_ok_nonneg _ Hl) as Hl0.
  pose proof (hts_ok_nonneg _ Hr) as Hr0.
  unfold rebal.
  destruct (ht l - ht r >? 1) eqn:Hb1.
  - destruct l as [|x ll kx vx hx lr]; [simpl in *; lia|].
    destruct Hl as (_ & Hll & Hlr).
    pose proof (hts_ok_nonneg _ Hll). pose proof (hts_ok_nonneg _ Hlr).
    destruct (ht ll >=? ht lr) eqn:Hb2.
    + by apply rebalance_at_LL.
    + destruct lr as [|w wl kw vw hw wr]; [simpl in *; lia|].
      by apply rebalance_at_LR.
  - destruct (ht l - ht r <? -1) eqn:Hb3.
    + destruct r as [|z rl kz vz hz rr]; [simpl in *; lia|].
      destruct Hr as (_ & Hrl & Hrr).
      pose proof (hts_ok_nonneg _ Hrl). pose proof (hts_ok_nonneg _ Hrr).
      destruct (ht rr >=? ht rl) eqn:Hb2.
      * by apply rebalance_at_RR.
      * destruct rl as [|w wl kw vw hw wr]; [simpl in *; lia|].
        by apply rebalance_at_RL.
    + by apply rebalance_at_balanced.
Qed.

End rebalance.

(** ** Trees, paths and their nodes in symmetric order *)
Section tree_facts.
Context {K V : Type}.
Implicit Types (t l r : tree K V) (f : frame K V) (c : list (frame K V)).

Lemma inorder_fill f t :
  inorder (fill f t) =
  match f_dir f with
  | L => inorder t ++ (f_addr f, (f_key f, f_val f)) :: inorder (f_sib f)
  | R => inorder (f_sib f) ++ (f_addr f, (f_key f, f_val f)) :: inorder t
  end.
Proof. unfold fill. by destruct (f_dir f). Qed.

Lemma inorder_plug c t : inorder (plug c t) = before c ++ inorder t ++ after c.
Proof.
  revert t. induction c as [|f c IH]; intros t; simpl.
  - by rewrite app_nil_r.
  - rewrite IH, inorder_fill. destruct (f_dir f); simpl.
    + by rewrite app_nil_r, <- !app_assoc.
    + by rewrite <- !app_assoc.
Qed.

Lemma root_ptr_fill f t : root_ptr (fill f t) = Some (f_addr f).
Proof. unfold fill. by destruct (f_dir f). Qed.

Lemma root_ptr_plug c t : root_ptr (plug c t) = ctx_root c (root_ptr t).
Proof.
  revert t. induction c as [|f c IH]; intros t; simpl; [done|].
  by rewrite IH, root_ptr_fill.
Qed.

Lemma ctx_root_cons f c p q : ctx_root (f :: c) p = ctx_root (f :: c) q.
Proof. done. Qed.

Lemma plug_app c1 c2 t : plug (c1 ++ c2) t = plug c2 (plug c1 t).
Proof. revert t. induction c1 as [|f c1 IH]; intros t; simpl; [done|]. apply IH. Qed.

Lemma disj_spec t1 t2 : disj t1 t2 ↔ ∀ x, x ∈ addrs t1 → notin x t2.
Proof.
  induction t1 as [|a l IHl k v h r IHr]; simpl.
  - split; [|done]. intros _ x Hx. by apply not_elem_of_nil in Hx.
  - rewrite IHl, IHr. setoid_rewrite addrs_T.
    setoid_rewrite elem_of_app. setoid_rewrite elem_of_cons.
    split.
    + intros (Ha & Hl & Hr) x [Hx|[->|Hx]]; auto.
    + intros H. split_and!; intros; apply H; auto.
Qed.

Lemma distinct_spec t : distinct t ↔ NoDup (addrs t).
Proof.
  induction t as [|a l IHl k v h r IHr]; simpl.
  - split; [intros _; constructor|done].
  - rewrite addrs_T, NoDup_app, NoDup_cons, IHl, IHr, disj_spec.
    rewrite !notin_spec.
    setoid_rewrite not_elem_of_cons.
    setoid_rewrite notin_spec.
    split.
    + intros (Hal & Har & Hd & Hl & Hr). split_and!; try done.
      intros x Hx. split; [|by apply Hd]. by intros ->.
    + intros (Hl & Hd & Har & Hr). split_and!; try done.
      * intros Ha. by destruct (Hd _ Ha) as [? _].
      * intros x Hx. by destruct (Hd _ Hx) as [_ ?].
Qed.

Lemma notin_fill n f t :
  notin n (fill f t) ↔ n ≠ f_addr f ∧ notin n t ∧ notin n (f_sib f).
Proof. unfold fill. destruct (f_dir f); simpl; tauto. Qed.

Lemma disj_fill_l f t t' :
  disj (fill f t) t' ↔ notin (f_addr f) t' ∧ disj t t' ∧ disj (f_sib f) t'.
Proof. unfold fill. destruct (f_dir f); simpl; tauto. Qed.

Lemma disj_iff_sym t1 t2 : disj t1 t2 ↔ disj t2 t1.
Proof. split; apply disj_sym. Qed.

Lemma distinct_fill f t :
  distinct (fill f t) ↔
  notin (f_addr f) t ∧ notin (f_addr f) (f_sib f) ∧ disj t (f_sib f) ∧
  distinct t ∧ distinct (f_sib f).
Proof.
  unfold fill. destruct (f_dir f); simpl; [tauto|].
  rewrite (disj_iff_sym (f_sib f) t). tauto.
Qed.

Lemma disj_ctx_fill f t c :
  disj_ctx (fill f t) c ↔
  notin_ctx (f_addr f) c ∧ disj_ctx t c ∧ disj_ctx (f_sib f) c.
Proof.
  induction c as [|g c IH]; simpl; [tauto|].
  rewrite IH, notin_fill, disj_fill_l. intuition congruence.
Qed.

Lemma distinct_plug c t :
  distinct (plug c t) ↔ distinct t ∧ distinct_ctx c ∧ disj_ctx t c.
Proof.
  revert t. induction c as [|f c IH]; intros t; simpl; [tauto|].
  rewrite IH, distinct_fill, disj_ctx_fill. tauto.
Qed.

Lemma notin_addrs_eq n t1 t2 :
  addrs t1 = addrs t2 → notin n t1 ↔ notin n t2.
Proof. intros Heq. by rewrite !notin_spec, Heq. Qed.

Lemma disj_addrs_eq_l t1 t2 t :
  addrs t1 = addrs t2 → disj t1 t ↔ disj t2 t.
Proof. intros Heq. by rewrite !disj_spec, Heq. Qed.

Lemma disj_addrs_eq_r t1 t2 t :
  addrs t1 = addrs t2 → disj t t1 ↔ disj t t2.
Proof.
  intros Heq. rewrite (disj_iff_sym t t1), (disj_iff_sym t t2).
  by apply disj_addrs_eq_l.
Qed.

Lemma distinct_addrs_eq t1 t2 :
  addrs t1 = addrs t2 → distinct t1 ↔ distinct t2.
Proof. intros Heq. by rewrite !distinct_spec, Heq. Qed.

Lemma disj_ctx_addrs_eq t1 t2 c :
  addrs t1 = addrs t2 → disj_ctx t1 c ↔ disj_ctx t2 c.
Proof.
  intros Heq. induction c as [|f c IH]; simpl; [done|].
  by rewrite IH, (notin_addrs_eq _ t1 t2), (disj_addrs_eq_l t1 t2).
Qed.

Lemma notin_ctx_disj b t c : disj_ctx t c → ¬ notin b t → notin_ctx b c.
Proof.
  induction c as [|f c IH]; simpl; [done|].
  intros (Hf & Hd & Hc) Hb. split_and!.
  - intros ->. done.
  - by eapply notin_disj.
  - by apply IH.
Qed.

(** Rotations and rebalancing keep the symmetric order. *)
Lemma inorder_rot_right t : inorder (rot_right t) = inorder t.
Proof.
  destruct t as [|y [|x A kx vx hx B] ky vy hy C]; simpl; try done.
  by rewrite <- app_assoc.
Qed.

Lemma inorder_rot_left t : inorder (rot_left t) = inorder t.
Proof.
  destruct t as [|x A kx vx hx [|y B ky vy hy C]]; simpl; try done.
  by rewrite <- app_assoc.
Qed.

Lemma inorder_rebal t : inorder (rebal t) = inorder t.
Proof.
  destruct t as [|a l k v h r]; [done|]. unfold rebal.
  destruct (ht l - ht r >? 1).
  - destruct l as [|x ll kx vx hx lr]; [done|].
    destruct (ht ll >=? ht lr); rewrite inorder_rot_right; [done|].
    unfold mk. cbn [inorder]. by rewrite inorder_rot_left.
  - destruct (ht l - ht r <? -1); [|done].
    destruct r as [|z rl kz vz hz rr]; [done|].
    destruct (ht rr >=? ht rl); rewrite inorder_rot_left; [done|].
    unfold mk. cbn [inorder]. by rewrite inorder_rot_right.
Qed.

Lemma addrs_rebal t : addrs (rebal t) = addrs t.
Proof. unfold addrs. by rewrite inorder_rebal. Qed.

Lemma hts_ok_mk a l k v r : hts_ok l → hts_ok r → hts_ok (mk a l k v r).
Proof. by simpl. Qed.

Lemma hts_ok_rot_right t : hts_ok t → hts_ok (rot_right t).
Proof.
  destruct t as [|y [|x A kx vx hx B] ky vy hy C]; simpl; try done.
  tauto.
Qed.

Lemma hts_ok_rot_left t : hts_ok t → hts_ok (rot_left t).
Proof.
  destruct t as [|x A kx vx hx [|y B ky vy hy C]]; simpl; try done.
  tauto.
Qed.

Lemma hts_ok_rebal a l k v h r :
  hts_ok l → hts_ok r → hts_ok (rebal (T a l k v h r)).
Proof.
  intros Hl Hr. unfold rebal.
  destruct (ht l - ht r >? 1).
  - destruct l as [|x ll kx vx hx lr]; [done|].
    destruct (ht ll >=? ht lr); apply hts_ok_rot_right, hts_ok_mk; try done.
    by apply hts_ok_rot_left.
  - destruct (ht l - ht r <? -1); [|done].
    destruct r as [|z rl kz vz hz rr]; [done|].
    destruct (ht rr >=? ht rl); apply hts_ok_rot_left, hts_ok_mk; try done.
    by apply hts_ok_rot_right.
Qed.

Lemma rebal_not_E a l k v h r : rebal (T a l k v h r) ≠ E.
Proof.
  unfold rebal, rot_right, rot_left, mk. repeat case_match; done.
Qed.

End tree_facts.

(** ** Paths in the node memory *)
Section ctx_facts.
Context {K V S : Type} `{!NodeStore K V S}.
Implicit Types (s : S) (t l r : tree K V) (f : frame K V) (c : list (frame K V)).

Lemma cells_plug s c t :
  cells_ok s None (plug c t) ↔
  ctx_ok s c (root_ptr t) ∧ cells_ok s (ctx_parent c) t.
Proof.
  revert t. induction c as [|f c IH]; intros t; simpl; [tauto|].
  rewrite IH, root_ptr_fill. unfold fill.
  destruct (f_dir f); simpl; tauto.
Qed.

Lemma rep_plug s c t :
  rep s None (plug c t) ↔
  (distinct t ∧ distinct_ctx c ∧ disj_ctx t c) ∧
  ctx_ok s c (root_ptr t) ∧ cells_ok s (ctx_parent c) t.
Proof. unfold rep. by rewrite distinct_plug, cells_plug. Qed.

Lemma ctx_ok_unchanged (Q : nat → Prop) s s' c hole :
  unchanged_on Q s s' → (∀ b, ¬ notin_ctx b c → Q b) →
  ctx_ok s c hole → ctx_ok s' c hole.
Proof.
  intros Hun. revert hole. induction c as [|f c IH]; intros hole HQ; simpl; [done|].
  intros (Hl & Hf & Hs & Hc). split_and!.
  - by apply Hun.
  - destruct Hun as [Hld _]. rewrite Hld; [done|]. apply HQ. simpl. tauto.
  - eapply cells_ok_unchanged; [exact Hun| |done].
    intros b Hb. apply HQ. simpl. tauto.
  - apply IH; [|done]. intros b Hb. apply HQ. simpl. tauto.
Qed.

Lemma ctx_ok_same_outside s s' t c hole :
  same_outside t s s' → disj_ctx t c → ctx_ok s c hole → ctx_ok s' c hole.
Proof.
  intros Hso Hd. apply (ctx_ok_unchanged _ _ _ _ _ Hso).
  intros b Hb. destruct (notin_dec b t) as [|Hn]; [done|].
  exfalso. apply Hb. by eapply notin_ctx_disj.
Qed.

Lemma sym_ctx_ok s0 s fp c hole :
  sym s0 s fp → Forall (λ n, notin_ctx n c) fp.*1 →
  ctx_ok s0 c hole → ctx_ok s c hole.
Proof.
  intros [_ _ Hfr] Hall. apply (ctx_ok_unchanged _ _ _ _ _ Hfr).
  intros b Hb Hin. rewrite Forall_forall in Hall. by specialize (Hall _ Hin).
Qed.

Lemma cells_ok_root_parent s par t a n :
  cells_ok s par t → root_ptr t = Some a → load s a = Some n → parent n = par.
Proof.
  destruct t as [|b l k v h r]; simpl; [done|].
  intros (_ & Hb & _) [= ->] Ha. rewrite Hb in Ha. by injection Ha as <-.
Qed.

Lemma cells_ok_live s par t b : cells_ok s par t → ¬ live s b → notin b t.
Proof.
  revert par. induction t as [|a l IHl k v h r IHr]; intros par; simpl; [done|].
  intros (Hl & _ & Hcl & Hcr) Hb. split_and!; eauto. by intros ->.
Qed.

End ctx_facts.

Ltac ctx_split H :=
  cbn [distinct_ctx disj_ctx notin_ctx distinct disj notin
       f_dir f_addr f_key f_val f_ht f_sib] in H;
  repeat (first [rewrite disj_T_r in H | rewrite disj_E_r in H];
          cbn [distinct disj notin] in H).

Ltac sym_decide :=
  match goal with
  | |- context [decide (?a = ?b)] =>
      first [ rewrite (decide_True (P:=a = b)) by congruence
            | rewrite (decide_False (P:=a = b)) by congruence ]
  end.

Ltac sym_run' := repeat (sym_simpl; first [sym_cond | sym_decide | sym_step]); sym_simpl.

Ltac sym_ctx_sub :=
  lazymatch goal with
  | H : sym ?s0 ?s ?fp |- ctx_ok ?s ?c ?p =>
      apply (sym_ctx_ok s0 s fp c p H);
      [cbn [fmap list_fmap fst]; repeat (apply Forall_cons_2; [assumption|]); apply Forall_nil_2
      | assumption]
  end.

Ltac sym_unch :=
  lazymatch goal with
  | H : sym ?s0 ?s ?fp |- unchanged_on ?Q ?s0 ?s =>
      let bb := fresh "bb" in
      let Hb := fresh "Hb" in
      apply (sym_unchanged_on s0 s fp Q H);
      intros bb Hb; cbn beta in Hb; destruct_and?; solve_names_notin
  end.

Ltac sym_atom :=
  first [exact I | sym_live_tac | sym_load | sym_frame_sub | sym_ctx_sub | sym_unch].

Ltac sym_finish :=
  cbn [ctx_ok cells_ok ctx_parent root_ptr ht
       f_dir f_addr f_key f_val f_ht f_sib];
  split_and?; sym_atom.

Lemma notin_ctx_root {K V} a (l : tree K V) k v h r c :
  disj_ctx (T a l k v h r) c → notin_ctx a c.
Proof. intros Hd. eapply notin_ctx_disj; [exact Hd|]. simpl. tauto. Qed.

(** Adds [notin_ctx a c] for the root [a] of every tree known to be
    disjoint from the path [c]. *)
Ltac ctx_roots :=
  repeat match goal with
         | H : disj_ctx (T ?a _ _ _ _ _) ?c |- _ =>
             lazymatch goal with
             | _ : notin_ctx a c |- _ => fail
             | _ => pose proof (notin_ctx_root _ _ _ _ _ _ _ H)
             end
         end.

Lemma notin_root_ptr {K V} o (t : tree K V) : notin o t → root_ptr t ≠ Some o.
Proof. destruct t; simpl; [done|]. intros (Hne & _) [= ->]. done. Qed.

Section set_child.
Context {K V S : Type} `{!NodeStore K V S}.
Implicit Types (s : S) (t l r : tree K V) (f : frame K V) (c : list (frame K V)).

Lemma set_child_rep root s c o t' par' :
  ctx_ok s c (Some o) → cells_ok s par' t' →
  distinct t' → distinct_ctx c → disj_ctx t' c →
  match c with f :: _ => notin o (f_sib f) | [] => True end →
  ∃ s', set_child root s (ctx_parent c) (Some o) (root_ptr t')
        = Ok (match c with [] => root_ptr t' | _ => root end, s') ∧
    ctx_ok s' c (root_ptr t') ∧ cells_ok s' (ctx_parent c) t' ∧
    unchanged_on (λ b, Some b ≠ ctx_parent c ∧ Some b ≠ root_ptr t') s s'.
Proof.
  intros Hc Ht Hdt Hdc Hdtc Ho.
  destruct t' as [|r' l' k' v' h' rr'].
  all: destruct c as [|[[|] a k v h sib] c'].
  all: try (pose proof (notin_root_ptr _ _ Ho) as Hob; cbn [f_sib] in Hob).
  all: cbn [ctx_ok cells_ok ctx_parent root_ptr f_dir f_addr f_key f_val f_ht f_sib] in *.
  all: ctx_split Hdt; ctx_split Hdc; ctx_split Hdtc; ctx_split Ho.
  all: destruct_and?; ctx_roots.
  all: unfold set_child; sym_begin s; sym_run'.
  all: eexists; split; [reflexivity|].
  all: sym_finish.
Qed.

End set_child.

Section rebalance_up.
Context {K V S : Type} `{!NodeStore K V S}.
Implicit Types (s : S) (t l r : tree K V) (f : frame K V) (c : list (frame K V)).

Lemma same_live_refl s : same_live s s.
Proof. done. Qed.

Lemma same_live_trans s1 s2 s3 :
  same_live s1 s2 → same_live s2 s3 → same_live s1 s3.
Proof. unfold same_live. intros H1 H2 b. by rewrite H2, H1. Qed.

Lemma unchanged_on_live (Q : nat → Prop) s s' :
  unchanged_on Q s s' → same_live s s'.
Proof. by intros [_ ?]. Qed.

Lemma rep_fill s f c t :
  distinct t → distinct_ctx (f :: c) → disj_ctx t (f :: c) →
  ctx_ok s (f :: c) (root_ptr t) → cells_ok s (Some (f_addr f)) t →
  rep s (ctx_parent c) (fill f t).
Proof.
  intros Hdt Hdc Hdtc Hc Ht. split.
  - apply distinct_fill. simpl in *. tauto.
  - simpl in Hc. unfold fill. destruct (f_dir f); simpl; tauto.
Qed.

Lemma deref_root s par t :
  cells_ok s par t → t ≠ E →
  ∃ n, deref s (root_ptr t) = Ok n ∧ parent n = par.
Proof.
  destruct t as [|a l k v h r]; [done|]. simpl. intros (_ & Ha & _) _.
  rewrite Ha. eauto.
Qed.

Lemma ctx_root_nonempty f c p q : ctx_root (f :: c) p = ctx_root (f :: c) q.
Proof. done. Qed.

Lemma rebalance_up_rep fuel root s c t :
  (length c ≤ fuel)%nat →
  distinct t → distinct_ctx c → disj_ctx t c →
  ctx_ok s c (root_ptr t) → cells_ok s (ctx_parent c) t →
  hts_ok t → hts_ok_ctx c →
  root = ctx_root c (root_ptr t) →
  ∃ s', rebalance_up fuel root s (ctx_parent c)
        = Ok (root_ptr (rebal_up c t), s') ∧
    rep s' None (rebal_up c t) ∧ same_live s s'.
Proof.
  revert fuel root s t. induction c as [|f c IH]; intros fuel root s t.
  - intros _ Hdt _ _ _ Ht _ _ ->. exists s. simpl.
    destruct fuel; repeat split; done.
  - intros Hfuel Hdt Hdc Hdtc Hc Ht Hht Hhc Hroot.
    destruct fuel as [|fuel]; [simpl in Hfuel; lia|].
    pose proof (rep_fill s f c t Hdt Hdc Hdtc Hc Ht) as Hrep.
    assert (∃ a l k v h r, fill f t = T a l k v h r ∧ a = f_addr f ∧
              hts_ok l ∧ hts_ok r) as (a & l & k & v & h & r & Hfill & Ha & Hl & Hr).
    { unfold fill. simpl in Hhc. destruct (f_dir f); eauto 12 with nocore; 
        do 6 eexists; (split; [reflexivity|]); tauto. }
    rewrite Hfill in Hrep.
    destruct (rebalance_at_rep s _ a l k v h r Hrep Hl Hr) as (s1 & Hreb & Hrep1 & Hout).
    rewrite <- Hfill in *. clear Hfill l k v h r Hl Hr. subst a.
    set (t1 := rebal (fill f t)) in *.
    assert (Ht1E : t1 ≠ E).
    { unfold t1, fill. destruct (f_dir f); apply rebal_not_E. }
    assert (Haddr : addrs t1 = addrs (fill f t)) by apply addrs_rebal.
    destruct Hrep1 as [Hdt1 Hc1].
    destruct (deref_root s1 _ t1 Hc1 Ht1E) as (n1 & Hn1 & Hp1).
    simpl in Hdc, Hdtc, Hc. destruct Hdc as (Hfs & Hfc & Hsc & Hds & Hdc).
    destruct Hdtc as (Hft & Hts & Htc). destruct Hc as (Hlv & Hld & Hcs & Hcc).
    assert (Hdfc : disj_ctx (fill f t) c) by (apply disj_ctx_fill; tauto).
    destruct (set_child_rep root s1 c (f_addr f) t1 (ctx_parent c))
      as (s2 & Hset & Hc2 & Ht2 & Hun2).
    { by eapply ctx_ok_same_outside. }
    { done. }
    { done. }
    { done. }
    { by apply (disj_ctx_addrs_eq t1 (fill f t)). }
    { destruct c as [|g c']; [done|]. simpl in Hfc. tauto. }
    destruct (deref_root s2 _ t1 Ht2 Ht1E) as (n2 & Hn2 & Hp2).
    destruct (IH fuel (match c with [] => root_ptr t1 | _ => root end) s2 t1)
      as (s3 & Hup & Hrep3 & Hlive3).
    { simpl in Hfuel. lia. }
    { done. }
    { done. }
    { by apply (disj_ctx_addrs_eq t1 (fill f t)). }
    { done. }
    { done. }
    { unfold t1, fill. simpl in Hhc. destruct (f_dir f); apply hts_ok_rebal; tauto. }
    { simpl in Hhc. tauto. }
    { destruct c as [|g c']; [done|]. rewrite Hroot. done. }
    exists s3. split_and!.
    + cbn [rebalance_up ctx_parent]. rewrite Hreb. cbn [mbind result_bind].
      rewrite Hn1. cbn [mbind result_bind]. rewrite Hp1, Hset.
      cbn [mbind result_bind]. rewrite Hn2. cbn [mbind result_bind].
      rewrite Hp2. exact Hup.
    + exact Hrep3.
    + eapply same_live_trans; [|exact Hlive3].
      eapply same_live_trans; [eapply unchanged_on_live, Hout|].
      eapply unchanged_on_live, Hun2.
Qed.

Lemma clear_root_parent_rep s t :
  cells_ok s None t → clear_root_parent (root_ptr t) s = Ok s.
Proof.
  destruct t as [|a l k v h r]; [done|]. simpl. intros (_ & Ha & _).
  by rewrite Ha.
Qed.

End rebalance_up.

(** ** Searching *)
Section search_pure.
Context {K V : Type}.
Implicit Types (t l r : tree K V) (f : frame K V) (c : list (frame K V)).
Variable cmp : K → K → Z.

Lemma locate_plug k t c : plug (locate cmp k t c).1 (locate cmp k t c).2 = plug c t.
Proof.
  revert c. induction t as [|a l IHl k' v h r IHr]; intros c; simpl; [done|].
  repeat case_match; simpl; done.
Qed.

Lemma locate_length k t c :
  (length (locate cmp k t c).1 + depth (locate cmp k t c).2
   ≤ length c + depth t)%nat.
Proof.
  revert c. induction t as [|a l IHl k' v h r IHr]; intros c; simpl; [done|].
  repeat case_match; simpl; try lia.
  - specialize (IHl (Frame L a k' v h r :: c)). simpl in IHl. lia.
  - specialize (IHr (Frame R a k' v h l :: c)). simpl in IHr. lia.
Qed.

Lemma locate_app k t c :
  locate cmp k t c = ((locate cmp k t []).1 ++ c, (locate cmp k t []).2).
Proof.
  revert c. induction t as [|a l IHl k' v h r IHr]; intros c; simpl; [done|].
  repeat case_match; simpl; try done.
  - rewrite IHl, (IHl [_]). simpl. by rewrite <- app_assoc.
  - rewrite IHr, (IHr [_]). simpl. by rewrite <- app_assoc.
Qed.

Lemma locate_found k t c c' t' :
  locate cmp k t c = (c', t') → t' ≠ E →
  ∃ a l k' v h r, t' = T a l k' v h r ∧ cmp k k' = 0.
Proof.
  revert c. induction t as [|a l IHl k' v h r IHr]; intros c; simpl.
  - by intros [= <- <-].
  - destruct (Z.eqb_spec (cmp k k') 0) as [Heq|Hne].
    + intros [= <- <-] _. eauto 10.
    + destruct (cmp k k' <? 0); eauto.
Qed.

Lemma locate_hole_nonempty k t c' :
  locate cmp k t [] = (c', E) → t ≠ E → c' ≠ [].
Proof.
  destruct t as [|a l k' v h r]; [done|]. simpl. intros Hl _.
  repeat case_match; try done.
  - rewrite locate_app in Hl. injection Hl as <- _. by destruct (locate _ _ _ _).1.
  - rewrite locate_app in Hl. injection Hl as <- _. by destruct (locate _ _ _ _).1.
Qed.

Lemma locate_dir_ok k t c :
  Forall (dir_ok cmp k) c → Forall (dir_ok cmp k) (locate cmp k t c).1.
Proof.
  revert c. induction t as [|a l IHl k' v h r IHr]; intros c Hc; simpl; [done|].
  destruct (Z.eqb_spec (cmp k k') 0) as [Heq|Hne]; [done|].
  destruct (Z.ltb_spec (cmp k k') 0).
  - apply IHl. constructor; [|done]. by unfold dir_ok.
  - apply IHr. constructor; [|done]. unfold dir_ok. simpl. lia.
Qed.

End search_pure.

Section search.
Context {K V S : Type} `{!NodeStore K V S}.
Implicit Types (s : S) (t l r : tree K V) (f : frame K V) (c : list (frame K V)).
Variable cmp : K → K → Z.

Lemma find_from_rep fuel s par k t c :
  cells_ok s par t → (depth t ≤ fuel)%nat →
  find_from cmp fuel s k (root_ptr t) = Ok (root_ptr (locate cmp k t c).2).
Proof.
  revert fuel par c. induction t as [|a l IHl k' v h r IHr]; intros fuel par c.
  - intros _ _. by destruct fuel.
  - intros (_ & Ha & Hl & Hr) Hfuel. simpl in Hfuel.
    destruct fuel as [|fuel]; [lia|]. cbn [find_from root_ptr locate].
    unfold deref. rewrite Ha. cbn [mbind result_bind key left right].
    destruct (cmp k k' =? 0); [done|].
    destruct (cmp k k' <? 0).
    + eapply IHl; [done|lia].
    + eapply IHr; [done|lia].
Qed.

Lemma insert_descend_rep fuel s par k t c :
  cells_ok s par t → (depth t ≤ fuel)%nat →
  insert_descend cmp fuel s k (ctx_parent c) (root_ptr t) (last_cmp cmp k c)
  = Ok (match locate cmp k t c with
        | (c', E) => Some (ctx_parent c', last_cmp cmp k c')
        | _ => None
        end).
Proof.
  revert fuel par c. induction t as [|a l IHl k' v h r IHr]; intros fuel par c.
  - intros _ _. by destruct fuel.
  - intros (_ & Ha & Hl & Hr) Hfuel. simpl in Hfuel.
    destruct fuel as [|fuel]; [lia|]. cbn [insert_descend root_ptr locate].
    unfold deref. rewrite Ha. cbn [mbind result_bind key left right].
    destruct (cmp k k' =? 0); [done|].
    destruct (cmp k k' <? 0).
    + apply (IHl fuel (Some a) (Frame L a k' v h r :: c)); [done|lia].
    + apply (IHr fuel (Some a) (Frame R a k' v h l :: c)); [done|lia].
Qed.

End search.

(** ** Allocation and frames *)
Section frames.
Context {K V S : Type} `{!NodeStore K V S}.
Implicit Types (s : S) (t l r : tree K V) (f : frame K V) (c : list (frame K V)).

Lemma cells_ok_agree s s' par t :
  (∀ b, ¬ notin b t → load s' b = load s b ∧ (live s b → live s' b)) →
  cells_ok s par t → cells_ok s' par t.
Proof.
  revert par. induction t as [|a l IHl k v h r IHr]; intros par; [done|].
  intros Hag (Hl & Ha & Hcl & Hcr). simpl.
  assert (¬ notin a (T a l k v h r)) as Hna by (simpl; tauto).
  destruct (Hag a Hna) as [Hld Hlv]. split_and!.
  - by apply Hlv.
  - by rewrite Hld.
  - apply IHl; [|done]. intros b Hb. apply Hag. simpl. tauto.
  - apply IHr; [|done]. intros b Hb. apply Hag. simpl. tauto.
Qed.

Lemma ctx_ok_agree s s' c hole :
  (∀ b, ¬ notin_ctx b c → load s' b = load s b ∧ (live s b → live s' b)) →
  ctx_ok s c hole → ctx_ok s' c hole.
Proof.
  revert hole. induction c as [|f c IH]; intros hole; [done|].
  intros Hag (Hl & Ha & Hcs & Hcc). simpl.
  assert (¬ notin_ctx (f_addr f) (f :: c)) as Hna by (simpl; tauto).
  destruct (Hag _ Hna) as [Hld Hlv]. split_and!.
  - by apply Hlv.
  - by rewrite Hld.
  - eapply cells_ok_agree; [|done]. intros b Hb. apply Hag. simpl. tauto.
  - apply IH; [|done]. intros b Hb. apply Hag. simpl. tauto.
Qed.

Lemma ctx_ok_live s c hole b : ctx_ok s c hole → ¬ live s b → notin_ctx b c.
Proof.
  revert hole. induction c as [|f c IH]; intros hole; simpl; [done|].
  intros (Hl & _ & Hcs & Hcc) Hb. split_and!.
  - by intros ->.
  - by eapply cells_ok_live.
  - by eapply IH.
Qed.

Lemma notin_plug n c t : notin n (plug c t) ↔ notin n t ∧ notin_ctx n c.
Proof.
  revert t. induction c as [|f c IH]; intros t; simpl; [tauto|].
  rewrite IH, notin_fill. tauto.
Qed.

Lemma hts_ok_plug c t : hts_ok (plug c t) → hts_ok t ∧ hts_ok_ctx c.
Proof.
  revert t. induction c as [|f c IH]; intros t; simpl; [tauto|].
  intros Hp. destruct (IH _ Hp) as [Hf Hc]. unfold fill in Hf.
  destruct (f_dir f); simpl in Hf; tauto.
Qed.

Lemma disj_ctx_leaf a k v h c :
  notin_ctx a c → disj_ctx (T a (@E K V) k v h E) c.
Proof.
  induction c as [|f c IH]; simpl; [done|].
  intros (Hne & Hs & Hc). split; [split; [congruence|done]|].
  split; [done|]. by apply IH.
Qed.

Lemma alloc_post_agree_ctx s s1 n nd c hole :
  alloc_post s s1 n nd → ctx_ok s c hole → ctx_ok s1 c hole ∧ notin_ctx n c.
Proof.
  intros (Hnl & _ & _ & Hsame) Hc.
  pose proof (ctx_ok_live _ _ _ _ Hc Hnl) as Hn. split; [|done].
  eapply ctx_ok_agree; [|done]. intros b Hb.
  destruct (Hsame b) as [Hld Hlv]; [by intros ->|]. split; [done|].
  apply Hlv.
Qed.

End frames.

(** ** Insertion *)
Section insert.
Context {K V S : Type} `{!NodeStore K V S}.
Implicit Types (s : S) (t l r : tree K V) (f : frame K V) (c : list (frame K V)).
Variable cmp : K → K → Z.

Lemma attach_rep s c n k k' v' f c0 :
  c = f :: c0 → dir_ok cmp k f →
  ctx_ok s c None → distinct_ctx c → notin_ctx n c →
  live s n → load s n = Some (MapNode k' v' None None None 1) →
  ∃ s1 s2 nn,
    write s (Some n) (set_parent (ctx_parent c)) = Ok s1 ∧
    (if last_cmp cmp k c <? 0 then write s1 (ctx_parent c) (set_left (Some n))
     else write s1 (ctx_parent c) (set_right (Some n))) = Ok s2 ∧
    deref s2 (Some n) = Ok nn ∧ parent nn = ctx_parent c ∧
    ctx_ok s2 c (Some n) ∧
    cells_ok s2 (ctx_parent c) (T n E k' v' 1 E) ∧ same_live s s2.
Proof.
  intros -> Hdir Hc Hdc Hn Hlv Hld.
  destruct f as [d a ka va ha sib]. unfold dir_ok in Hdir.
  cbn [ctx_ok ctx_parent last_cmp f_dir f_addr f_key f_val f_ht f_sib] in *.
  ctx_split Hdc; ctx_split Hn. destruct_and!.
  assert ((cmp k ka <? 0) = match d with L => true | R => false end) as Hlt.
  { destruct d; [apply Z.ltb_lt|apply Z.ltb_ge]; lia. }
  rewrite Hlt. clear Hlt Hdir.
  pose proof (sym_nil s) as Hs.
  match goal with H : load s a = Some _ |- _ => sym_add Hs H end.
  sym_add Hs Hld.
  destruct (sym_write s s _ 0%nat n _ (set_parent (Some a)) Hs eq_refl)
    as (s1 & Hw1 & Hs1).
  cbn [list_insert insert] in Hs1.
  destruct d.
  - destruct (sym_write s s1 _ 1%nat a _ (set_left (Some n)) Hs1 eq_refl)
      as (s2 & Hw2 & Hs2).
    cbn [list_insert insert] in Hs2.
    cbv beta iota delta [set_left set_parent key value left right parent height] in Hs2.
    eexists s1, s2, _. split; [exact Hw1|]. split; [exact Hw2|].
    split; [exact (sym_deref s s2 _ 0%nat _ _ Hs2 eq_refl)|].
    split; [reflexivity|]. split; [sym_finish|]. split; [sym_finish|].
    intros b. by eapply sym_frame.
  - destruct (sym_write s s1 _ 1%nat a _ (set_right (Some n)) Hs1 eq_refl)
      as (s2 & Hw2 & Hs2).
    cbn [list_insert insert] in Hs2.
    cbv beta iota delta [set_right set_parent key value left right parent height] in Hs2.
    eexists s1, s2, _. split; [exact Hw1|]. split; [exact Hw2|].
    split; [exact (sym_deref s s2 _ 0%nat _ _ Hs2 eq_refl)|].
    split; [reflexivity|]. split; [sym_finish|]. split; [sym_finish|].
    intros b. by eapply sym_frame.
Qed.

Lemma map_insert_found node_new fuel (m : tree_state S) k v t c a l k' v' h r :
  ts_root m = root_ptr t → cells_ok (ts_mem m) None t →
  (depth t ≤ fuel)%nat →
  locate cmp k t [] = (c, T a l k' v' h r) →
  map_insert node_new cmp fuel m k v = Ok (0, m).
Proof.
  intros Hroot Hc Hfuel Hloc. unfold map_insert.
  destruct t as [|a0 l0 k0 v0 h0 r0]; [done|].
  rewrite Hroot.
  pose proof (insert_descend_rep cmp fuel (ts_mem m) None k _ [] Hc Hfuel) as Hd.
  rewrite Hloc in Hd. simpl in Hd. cbn [root_ptr]. rewrite Hd. done.
Qed.

Lemma map_insert_failed node_new fuel (m : tree_state S) k v t c s1 :
  ts_root m = root_ptr t → cells_ok (ts_mem m) None t →
  (depth t ≤ fuel)%nat →
  locate cmp k t [] = (c, E) →
  node_new (ts_mem m) k v = Ok (None, s1) →
  map_insert node_new cmp fuel m k v
  = Ok (-1, TreeState (ts_root m) (ts_size m) s1).
Proof.
  intros Hroot Hc Hfuel Hloc Hnew. unfold map_insert.
  destruct t as [|a0 l0 k0 v0 h0 r0].
  - rewrite Hroot. simpl. by rewrite Hnew.
  - rewrite Hroot.
    pose proof (insert_descend_rep cmp fuel (ts_mem m) None k _ [] Hc Hfuel) as Hd.
    rewrite Hloc in Hd. simpl in Hd. cbn [root_ptr]. rewrite Hd.
    cbn [mbind result_bind]. by rewrite Hnew.
Qed.

Lemma map_insert_new node_new fuel (m : tree_state S) k v t c n s1 k' v' :
  ts_root m = root_ptr t → rep (ts_mem m) None t → hts_ok t →
  (depth t ≤ fuel)%nat →
  locate cmp k t [] = (c, E) →
  node_new (ts_mem m) k v = Ok (Some n, s1) →
  alloc_post (ts_mem m) s1 n (MapNode k' v' None None None 1) →
  ∃ s', map_insert node_new cmp fuel m k v
        = Ok (1, TreeState (root_ptr (insert_at c n k' v'))
                   (match t with
                    | E => 1
                    | _ => (ts_size m + 1) mod size_t_max
                    end) s') ∧
    rep s' None (insert_at c n k' v') ∧ same_live s1 s'.
Proof.
  intros Hroot [Hdt Hct] Hht Hfuel Hloc Hnew Halloc. unfold map_insert.
  destruct t as [|a0 l0 k0 v0 h0 r0].
  - rewrite Hroot. simpl. rewrite Hnew. simpl.
    simpl in Hloc. injection Hloc as <-.
    exists s1. split; [done|]. split; [|done].
    destruct Halloc as (_ & Hlv & Hld & _). by repeat split.
  - set (t := T a0 l0 k0 v0 h0 r0) in *.
    rewrite Hroot.
    pose proof (insert_descend_rep cmp fuel (ts_mem m) None k _ [] Hct Hfuel) as Hd.
    rewrite Hloc in Hd. simpl in Hd. cbn [root_ptr t]. rewrite Hd.
    cbn [mbind result_bind]. rewrite Hnew. cbn [mbind result_bind].
    pose proof (locate_plug cmp k t []) as Hplug.
    rewrite Hloc in Hplug. simpl in Hplug.
    assert (Hrep : rep (ts_mem m) None (plug c E)) by (by rewrite Hplug).
    apply rep_plug in Hrep. destruct Hrep as ((_ & Hdc & _) & Hcc & _).
    destruct (alloc_post_agree_ctx _ _ _ _ _ _ Halloc Hcc) as [Hcc1 Hnc].
    destruct c as [|f c0] eqn:Hceq.
    { by eapply locate_hole_nonempty in Hloc. }
    rewrite <- Hceq in *.
    pose proof (locate_dir_ok cmp k t [] (Forall_nil_2 _)) as Hdir.
    rewrite Hloc in Hdir. simpl in Hdir. rewrite Hceq in Hdir.
    apply Forall_cons in Hdir. destruct Hdir as [Hdir _].
    destruct Halloc as (_ & Hlv & Hld & _).
    destruct (attach_rep s1 c n k k' v' f c0 Hceq Hdir Hcc1 Hdc Hnc Hlv Hld)
      as (s2 & s3 & nn & Hw1 & Hw2 & Hnn & Hpar & Hc3 & Ht3 & Hlive3).
    rewrite Hw1. cbn [mbind result_bind]. rewrite Hw2. cbn [mbind result_bind].
    rewrite Hnn. cbn [mbind result_bind]. rewrite Hpar.
    pose proof (locate_length cmp k t []) as Hlen.
    rewrite Hloc in Hlen. simpl in Hlen.
    destruct (rebalance_up_rep fuel (Some a0) s3 c (T n E k' v' 1 E))
      as (s4 & Hup & Hrep4 & Hlive4).
    { unfold t in Hfuel. simpl in Hfuel. lia. }
    { by simpl. }
    { done. }
    { by apply disj_ctx_leaf. }
    { done. }
    { done. }
    { by simpl. }
    { rewrite <- Hplug in Hht. by apply hts_ok_plug in Hht as [_ ?]. }
    { change (Some a0) with (root_ptr t).
      rewrite <- Hplug, root_ptr_plug, Hceq. done. }
    rewrite Hup. cbn [mbind result_bind].
    rewrite (clear_root_parent_rep s4 _ (proj2 Hrep4)). cbn [mbind result_bind].
    exists s4. split; [done|]. split; [done|].
    by eapply same_live_trans.
Qed.

End insert.

(** ** The leftmost and rightmost nodes *)
Section extremes_pure.
Context {K V : Type}.
Implicit Types (t l r : tree K V) (f : frame K V) (c : list (frame K V)).

Lemma min_path_plug t c : plug (min_path t c).1 (min_path t c).2 = plug c t.
Proof.
  revert c. induction t as [|a l IHl k v h r IHr]; intros c; simpl; [done|].
  destruct l as [|al ll kl vl hl rl]; [done|]. by rewrite IHl.
Qed.

Lemma min_path_app t c :
  min_path t c = ((min_path t []).1 ++ c, (min_path t []).2).
Proof.
  revert c. induction t as [|a l IHl k v h r IHr]; intros c; simpl; [done|].
  destruct l as [|al ll kl vl hl rl]; [done|].
  rewrite IHl, (IHl [_]). simpl. by rewrite <- app_assoc.
Qed.

Lemma min_path_node t c :
  t ≠ E → ∃ a k v h r, (min_path t c).2 = T a E k v h r.
Proof.
  revert c. induction t as [|a l IHl k v h r IHr]; intros c; [done|].
  intros _. simpl. destruct l as [|al ll kl vl hl rl]; [eauto 10|].
  by apply IHl.
Qed.

Lemma min_path_length t c :
  (length (min_path t c).1 + depth (min_path t c).2 ≤ length c + depth t)%nat.
Proof.
  revert c. induction t as [|a l IHl k v h r IHr]; intros c; simpl; [done|].
  destruct l as [|al ll kl vl hl rl]; [simpl; lia|].
  specialize (IHl (Frame L a k v h r :: c)). simpl in *. lia.
Qed.

Lemma min_path_dirs t c :
  Forall (λ f, f_dir f = L) c → Forall (λ f, f_dir f = L) (min_path t c).1.
Proof.
  revert c. induction t as [|a l IHl k v h r IHr]; intros c Hc; simpl; [done|].
  destruct l as [|al ll kl vl hl rl]; [done|].
  apply IHl. by constructor.
Qed.

Lemma max_path_plug t c : plug (max_path t c).1 (max_path t c).2 = plug c t.
Proof.
  revert c. induction t as [|a l IHl k v h r IHr]; intros c; simpl; [done|].
  destruct r as [|ar lr kr vr hr rr]; [done|]. by rewrite IHr.
Qed.

Lemma max_path_node t c :
  t ≠ E → ∃ a l k v h, (max_path t c).2 = T a l k v h E.
Proof.
  revert c. induction t as [|a l IHl k v h r IHr]; intros c; [done|].
  intros _. simpl. destruct r as [|ar lr kr vr hr rr]; [eauto 10|].
  by apply IHr.
Qed.

Lemma max_path_dirs t c :
  Forall (λ f, f_dir f = R) c → Forall (λ f, f_dir f = R) (max_path t c).1.
Proof.
  revert c. induction t as [|a l IHl k v h r IHr]; intros c Hc; simpl; [done|].
  destruct r as [|ar lr kr vr hr rr]; [done|].
  apply IHr. by constructor.
Qed.

Lemma notin_ctx_app n c1 c2 :
  notin_ctx n (c1 ++ c2) ↔ notin_ctx n c1 ∧ notin_ctx n c2.
Proof. induction c1 as [|f c1 IH]; simpl; [tauto|]. rewrite IH. tauto. Qed.

Lemma disj_ctx_app t c1 c2 :
  disj_ctx t (c1 ++ c2) ↔ disj_ctx t c1 ∧ disj_ctx t c2.
Proof. induction c1 as [|f c1 IH]; simpl; [tauto|]. rewrite IH. tauto. Qed.

Lemma notin_ctx_sib n t c : disj_ctx t c → ¬ notin n t → notin_ctx n c.
Proof. apply notin_ctx_disj. Qed.

(** In a path with distinct addresses, the address of a frame does not
    occur in the frames below it. *)
Lemma distinct_ctx_app_notin c1 f c2 :
  distinct_ctx (c1 ++ f :: c2) → notin_ctx (f_addr f) c1.
Proof.
  induction c1 as [|g c1 IH]; simpl; [done|].
  intros (Hgs & Hgc & Hsc & Hds & Hdc).
  apply notin_ctx_app in Hgc as [_ Hgc]. simpl in Hgc.
  apply disj_ctx_app in Hsc as [_ Hsc]. simpl in Hsc.
  split_and!; [by intros ?; destruct Hgc as [Hne _]; apply Hne| |by apply IH].
  tauto.
Qed.

Lemma ctx_parent_app_cons c1 f f' c2 :
  f_addr f = f_addr f' →
  ctx_parent (c1 ++ f :: c2) = ctx_parent (c1 ++ f' :: c2).
Proof. intros Hf. destruct c1; simpl; [by rewrite Hf|done]. Qed.

Lemma ctx_root_app c1 c2 p : ctx_root (c1 ++ c2) p = ctx_root c2 (ctx_root c1 p).
Proof. revert p. induction c1 as [|f c1 IH]; intros p; simpl; [done|]. apply IH. Qed.

Lemma before_app c1 c2 : before (c1 ++ c2) = before c2 ++ before (K:=K) (V:=V) c1.
Proof.
  induction c1 as [|f c1 IH]; simpl; [by rewrite app_nil_r|].
  by rewrite IH, app_assoc.
Qed.

Lemma after_app c1 c2 : after (c1 ++ c2) = after (K:=K) (V:=V) c1 ++ after c2.
Proof.
  induction c1 as [|f c1 IH]; simpl; [done|]. by rewrite IH, app_assoc.
Qed.

Lemma hts_ok_ctx_app c1 c2 :
  hts_ok_ctx (c1 ++ c2) ↔ hts_ok_ctx (K:=K) (V:=V) c1 ∧ hts_ok_ctx c2.
Proof. induction c1 as [|f c1 IH]; simpl; [tauto|]. rewrite IH. tauto. Qed.

Lemma erase_pos_hts_ok c n l kn vn hn r :
  hts_ok (T n l kn vn hn r) → hts_ok_ctx c →
  hts_ok (erase_pos c (T n l kn vn hn r)).1.2 ∧
  hts_ok_ctx (erase_pos c (T n l kn vn hn r)).1.1.
Proof.
  intros (_ & Hl & Hr) Hc. cbn [erase_pos].
  destruct l as [|al ll kl vl hl rl]; [done|].
  destruct r as [|ar lr kr vr hr rr]; [done|].
  set (l := T al ll kl vl hl rl) in *. set (r := T ar lr kr vr hr rr) in *.
  destruct (min_path_node r []) as (sa & ks & vs & hs & sr & Hmin); [done|].
  pose proof (min_path_plug r []) as Hplug. rewrite Hmin in Hplug.
  destruct (min_path r []) as [c2 tmin]. simpl in Hmin, Hplug. subst tmin.
  simpl. rewrite <- Hplug in Hr. apply hts_ok_plug in Hr as [Hsa Hc2].
  rewrite hts_ok_ctx_app. simpl in *. tauto.
Qed.

Lemma erase_pos_length c n l kn vn hn r :
  (length (erase_pos c (T n l kn vn hn r)).1.1
   ≤ length c + depth (T n l kn vn hn r))%nat.
Proof.
  cbn [erase_pos].
  destruct l as [|al ll kl vl hl rl]; [simpl; lia|].
  destruct r as [|ar lr kr vr hr rr]; [simpl; lia|].
  set (l := T al ll kl vl hl rl) in *. set (r := T ar lr kr vr hr rr) in *.
  destruct (min_path_node r []) as (sa & ks & vs & hs & sr & Hmin); [done|].
  pose proof (min_path_length r []) as Hlen. rewrite Hmin in Hlen.
  destruct (min_path r []) as [c2 tmin]. simpl in Hmin. subst tmin.
  cbn [fst snd]. rewrite length_app. 
  change (depth (T n l kn vn hn r)) with (Datatypes.S (Nat.max (depth l) (depth r))).
  simpl in Hlen. simpl. lia.
Qed.

End extremes_pure.

Section extremes.
Context {K V S : Type} `{!NodeStore K V S}.
Implicit Types (s : S) (t l r : tree K V) (f : frame K V) (c : list (frame K V)).

Lemma leftmost_rep fuel s par t c :
  cells_ok s par t → t ≠ E → (depth t ≤ fuel)%nat →
  leftmost fuel s (root_ptr t) = Ok (root_ptr (min_path t c).2).
Proof.
  revert fuel par c. induction t as [|a l IHl k v h r IHr]; intros fuel par c; [done|].
  intros (_ & Ha & Hl & _) _ Hfuel. simpl in Hfuel.
  destruct fuel as [|fuel]; [lia|]. cbn [leftmost root_ptr].
  unfold deref. rewrite Ha. cbn [mbind result_bind left].
  destruct l as [|al ll kl vl hl rl]; [done|].
  cbn [root_ptr]. change (Some al) with (root_ptr (T al ll kl vl hl rl)).
  erewrite IHl; [done|done|done|lia].
Qed.

Lemma rightmost_rep fuel s par t c :
  cells_ok s par t → t ≠ E → (depth t ≤ fuel)%nat →
  rightmost fuel s (root_ptr t) = Ok (root_ptr (max_path t c).2).
Proof.
  revert fuel par c. induction t as [|a l IHl k v h r IHr]; intros fuel par c; [done|].
  intros (_ & Ha & _ & Hr) _ Hfuel. simpl in Hfuel.
  destruct fuel as [|fuel]; [lia|]. cbn [rightmost root_ptr].
  unfold deref. rewrite Ha. cbn [mbind result_bind right].
  destruct r as [|ar lr kr vr hr rr]; [done|].
  cbn [root_ptr]. change (Some ar) with (root_ptr (T ar lr kr vr hr rr)).
  erewrite IHr; [done|done|done|lia].
Qed.

End extremes.

(** ** Erasing *)
Section erase.
Context {K V S : Type} `{!NodeStore K V S}.
Implicit Types (s : S) (t l r : tree K V) (f : frame K V) (c : list (frame K V)).

Lemma deref_load s a n : load s a = Some n → deref s (Some a) = Ok n.
Proof. intros Ha. unfold deref. by rewrite Ha. Qed.

Lemma disj_ctx_sub_l a l k v h r c : disj_ctx (T a l k v h r) c → disj_ctx l c.
Proof.
  induction c as [|f c IH]; simpl; [done|].
  intros ((_ & Hl & _) & (_ & Hd & _) & Hc). auto.
Qed.

Lemma disj_ctx_sub_r a l k v h r c : disj_ctx (T a l k v h r) c → disj_ctx r c.
Proof.
  induction c as [|f c IH]; simpl; [done|].
  intros ((_ & _ & Hr) & (_ & _ & Hd) & Hc). auto.
Qed.

Lemma erase_node_splice release dec fuel (m : tree_state S) c n l kn vn hn r :
  release_ok release dec →
  l = E ∨ r = E →
  ts_root m = root_ptr (plug c (T n l kn vn hn r)) →
  rep (ts_mem m) None (plug c (T n l kn vn hn r)) →
  ∃ s', erase_node release (Datatypes.S fuel) m (Some n)
        = Ok (ctx_parent c,
              TreeState (root_ptr (plug c (only_child l r)))
                        (dec (ts_size m)) s') ∧
    rep s' None (plug c (only_child l r)) ∧
    live_except (ts_mem m) s' n.
Proof.
  intros Hrel Hshape Hroot Hrep.
  apply rep_plug in Hrep as ((Hdt & Hdc & Hdtc) & Hcc & Hct).
  pose proof Hct as (Hlv & Hld & Hcl & Hcr).
  cbn [root_ptr] in Hcc.
  set (child := only_child l r).
  assert (Hchild : cells_ok (ts_mem m) (Some n) child ∧ distinct child ∧
                   disj_ctx child c ∧ notin n child ∧
                   root_ptr child
                   = match root_ptr l with Some _ => root_ptr l | None => root_ptr r end).
  { simpl in Hdt. unfold child, only_child. destruct l; split_and!; try tauto.
    - by eapply disj_ctx_sub_r.
    - by eapply disj_ctx_sub_l. }
  destruct Hchild as (Hcch & Hdch & Hdchc & Hnch & Hrch).
  destruct (set_child_rep (ts_root m) (ts_mem m) c n child (Some n))
    as (s1 & Hset & Hc1 & Hch1 & Hun1); try done.
  { destruct c as [|f c']; [done|]. simpl in Hdtc.
    destruct Hdtc as (_ & (Hn & _) & _). done. }
  assert (Hn1 : is_Some (load s1 n)).
  { destruct Hun1 as [Hun1 _]. rewrite Hun1; [by rewrite Hld|]. split.
    - destruct c as [|f c']; [done|]. simpl in Hdtc.
      destruct Hdtc as ((Hne & _) & _). simpl. congruence.
    - by apply not_eq_sym, notin_root_ptr. }
  destruct (Hrel (match c with [] => root_ptr child | _ => ts_root m end)
              (ts_size m) s1 n Hn1) as (s2 & Hrel2 & Hfree).
  assert (Hroot' : match c with [] => root_ptr child | _ => ts_root m end
                   = root_ptr (plug c child)).
  { rewrite root_ptr_plug. destruct c as [|f c']; [done|].
    rewrite Hroot, root_ptr_plug. done. }
  exists s2. split_and!.
  - cbn [erase_node]. cbv zeta. rewrite (deref_load _ _ _ Hld).
    cbn [mbind result_bind left right parent].
    assert (Hcode :
      match root_ptr l with
      | Some _ =>
          match root_ptr r with
          | Some _ => @Undefined (ptr * tree_state S)
          | None =>
              '(root, s) ← set_child (ts_root m) (ts_mem m) (ctx_parent c)
                             (Some n) (root_ptr child);
              m' ← release (TreeState root (ts_size m) s) (Some n);
              Ok (ctx_parent c, m')
          end
      | None =>
          '(root, s) ← set_child (ts_root m) (ts_mem m) (ctx_parent c)
                         (Some n) (root_ptr child);
          m' ← release (TreeState root (ts_size m) s) (Some n);
          Ok (ctx_parent c, m')
      end
      = Ok (ctx_parent c,
            TreeState (root_ptr (plug c child)) (dec (ts_size m)) s2)).
    { rewrite Hset. cbn [mbind result_bind]. rewrite Hrel2, Hroot'.
      destruct Hshape as [-> | ->]; simpl; [done|]. by destruct (root_ptr l). }
    rewrite <- Hcode. rewrite Hrch.
    destruct Hshape as [-> | ->]; cbn [root_ptr].
    + destruct (root_ptr r); reflexivity.
    + destruct (root_ptr l); reflexivity.
  - apply rep_plug. split; [done|].
    destruct Hfree as [Hnl Hsame]. split.
    + apply (ctx_ok_agree s1); [|exact Hc1]. intros b Hb.
      destruct (Hsame b) as [Hld' Hlv'].
      { intros ->. apply Hb. eapply notin_ctx_disj; [exact Hdtc|]. simpl. tauto. }
      split; [done|apply Hlv'].
    + apply (cells_ok_agree s1); [|exact Hch1]. intros b Hb.
      destruct (Hsame b) as [Hld' Hlv'].
      { by intros ->. }
      split; [done|apply Hlv'].
  - destruct Hfree as [Hnl Hsame]. split; [done|]. intros b Hb.
    destruct (Hsame b Hb) as [_ Hlv'].
    destruct Hun1 as [_ Hlv1]. by rewrite Hlv', Hlv1.
Qed.

Lemma ctx_ok_swap s s' c2 n kn vn ks vs hn l c hole sa :
  ctx_ok s (c2 ++ Frame R n kn vn hn l :: c) hole →
  (∀ b, b ≠ n → b ≠ sa → load s' b = load s b) → same_live s s' →
  (∀ nd, load s n = Some nd → load s' n = Some (set_value vs (set_key ks nd))) →
  notin_ctx n c2 → notin_ctx sa c2 → notin n l → notin sa l →
  notin_ctx n c → notin_ctx sa c →
  ctx_ok s' (c2 ++ Frame R n ks vs hn l :: c) hole.
Proof.
  intros Hc Hsame Hlive Hn Hnc2 Hsc2 Hnl Hsl Hnc Hsc.
  assert (Hagree : ∀ b, b ≠ n → b ≠ sa →
            load s' b = load s b ∧ (live s b → live s' b)).
  { intros b ? ?. split; [by apply Hsame|apply Hlive]. }
  revert hole Hc Hnc2 Hsc2. induction c2 as [|g c2 IH]; intros hole.
  - simpl. intros (Hlv & Hld & Hcl & Hcc) _ _. split_and!.
    + by apply Hlive.
    + by rewrite (Hn _ Hld).
    + apply (cells_ok_agree s); [|done]. intros b Hb. apply Hagree.
      * intros ->. done.
      * intros ->. done.
    + apply (ctx_ok_agree s); [|done]. intros b Hb. apply Hagree.
      * intros ->. done.
      * intros ->. done.
  - cbn [app ctx_ok]. intros (Hlv & Hld & Hcs & Hcc) (Hng & Hngs & Hnc2) (Hsg & Hsgs & Hsc2).
    split_and!.
    + by apply Hlive.
    + destruct (Hagree (f_addr g)) as [-> _]; [congruence..|].
      rewrite Hld. do 2 f_equal. by apply ctx_parent_app_cons.
    + apply (cells_ok_agree s); [|done]. intros b Hb. apply Hagree.
      * intros ->. done.
      * intros ->. done.
    + by apply IH.
Qed.

Lemma addrs_plug_swap c2 n kn vn ks vs hn l c (t t' : tree K V) :
  addrs t = addrs t' →
  addrs (plug (c2 ++ Frame R n kn vn hn l :: c) t)
  = addrs (plug (c2 ++ Frame R n ks vs hn l :: c) t').
Proof.
  intros Ht. unfold addrs in *.
  rewrite !inorder_plug, !before_app, !after_app, !fmap_app. simpl.
  rewrite !fmap_app. simpl. by rewrite Ht.
Qed.

Lemma erase_node_rep release dec fuel (m : tree_state S) c n l kn vn hn r :
  release_ok release dec →
  (depth (T n l kn vn hn r) ≤ fuel)%nat →
  ts_root m = root_ptr (plug c (T n l kn vn hn r)) →
  rep (ts_mem m) None (plug c (T n l kn vn hn r)) →
  ∃ s' a,
    let '(c', t', _) := erase_pos c (T n l kn vn hn r) in
    erase_node release fuel m (Some n)
    = Ok (ctx_parent c',
          TreeState (root_ptr (plug c' t')) (dec (ts_size m)) s') ∧
    rep s' None (plug c' t') ∧
    (erase_pos c (T n l kn vn hn r)).2 = Some a ∧
    live_except (ts_mem m) s' a.
Proof.
  intros Hrel Hfuel Hroot Hrep.
  destruct fuel as [|fuel]; [simpl in Hfuel; lia|].
  destruct l as [|al ll kl vl hl rl].
  { destruct (erase_node_splice release dec fuel m c n E kn vn hn r)
      as (s' & Hcode & Hrep' & Hlive); auto.
    exists s', n. simpl. by destruct r. }
  destruct r as [|ar lr kr vr hr rr].
  { destruct (erase_node_splice release dec fuel m c n (T al ll kl vl hl rl)
                kn vn hn E) as (s' & Hcode & Hrep' & Hlive); auto.
    exists s', n. simpl. done. }
  set (l := T al ll kl vl hl rl) in *. set (r := T ar lr kr vr hr rr) in *.
  destruct (min_path_node r []) as (sa & ks & vs & hs & sr & Hmin); [done|].
  pose proof (min_path_plug r []) as Hplug. rewrite Hmin in Hplug.
  destruct (min_path r []) as [c2 tmin] eqn:Hmp. simpl in Hmin, Hplug. subst tmin.
  assert (Hwhole : plug c (T n l kn vn hn r)
                   = plug (c2 ++ Frame R n kn vn hn l :: c) (T sa E ks vs hs sr)).
  { rewrite plug_app. simpl. unfold fill. simpl. by rewrite Hplug. }
  pose proof Hrep as Hrep0.
  apply rep_plug in Hrep0 as (_ & _ & Hct).
  destruct Hct as (Hlvn & Hldn & Hcl & Hcr).
  rewrite Hwhole in Hrep.
  pose proof Hrep as Hrep1.
  apply rep_plug in Hrep1 as ((Hdt & Hdc & Hdtc) & Hcc & Hct).
  destruct Hct as (Hlvs & Hlds & _ & Hcsr).
  pose proof (distinct_ctx_app_notin _ _ _ Hdc) as Hnc2. cbn [f_addr] in Hnc2.
  apply disj_ctx_app in Hdtc as [Hdtc2 Hdtc1].
  pose proof Hdc as Hdc'.
  assert (Hsa_c2 : notin_ctx sa c2).
  { eapply notin_ctx_disj; [exact Hdtc2|]. simpl. tauto. }
  assert (Hsa_c1 : notin_ctx sa (Frame R n kn vn hn l :: c)).
  { eapply notin_ctx_disj; [exact Hdtc1|]. simpl. tauto. }
  cbn [notin_ctx f_addr f_sib] in Hsa_c1. destruct Hsa_c1 as (Hsan & Hsal & Hsac).
  assert (Hn_rest : notin n l ∧ notin_ctx n c).
  { clear -Hdc. induction c2 as [|g c2 IH];
      cbn [app distinct_ctx f_addr f_sib] in Hdc; [tauto|]. apply IH. tauto. }
  destruct Hn_rest as [Hnl Hnc].
  (* the code *)
  assert (Hsuc : subtree_min (Datatypes.S fuel) (ts_mem m) (root_ptr r) = Ok (Some sa)).
  { unfold subtree_min. cbn [root_ptr r].
    change (Some ar) with (root_ptr r).
    rewrite (leftmost_rep _ _ (Some n) r []); [|done|done|].
    - by rewrite Hmp.
    - unfold r, l in *. simpl in *. lia. }
  pose proof (sym_nil (ts_mem m)) as Hsym.
  sym_add Hsym Hlds. sym_add Hsym Hldn.
  assert (Hswap : ∃ s4,
    (∀ A (kont : S → result A),
       (nsuc ← deref (ts_mem m) (Some sa);
        s ← write (ts_mem m) (Some n) (set_key (key nsuc));
        s ← write s (Some sa) (set_key kn);
        nd ← deref s (Some n);
        nsuc ← deref s (Some sa);
        s ← write s (Some n) (set_value (value nsuc));
        s ← write s (Some sa) (set_value (value nd));
        kont s) = kont s4) ∧
    sym (ts_mem m) s4
      [(n, MapNode ks vs (root_ptr l) (root_ptr r) (ctx_parent c) hn);
       (sa, MapNode kn vn None (root_ptr sr)
              (ctx_parent (c2 ++ Frame R n kn vn hn l :: c)) hs)]).
  { rewrite (sym_deref _ _ _ 1%nat _ _ Hsym eq_refl). cbn [mbind result_bind key].
    destruct (sym_write _ _ _ 0%nat n _ (set_key ks) Hsym eq_refl) as (s1 & Hw1 & Hs1).
    cbn [list_insert insert] in Hs1.
    destruct (sym_write _ _ _ 1%nat sa _ (set_key kn) Hs1 eq_refl) as (s2 & Hw2 & Hs2).
    cbn [list_insert insert] in Hs2.
    destruct (sym_write _ _ _ 0%nat n _ (set_value vs) Hs2 eq_refl) as (s3 & Hw3 & Hs3).
    cbn [list_insert insert] in Hs3.
    destruct (sym_write _ _ _ 1%nat sa _ (set_value vn) Hs3 eq_refl) as (s4 & Hw4 & Hs4).
    cbn [list_insert insert] in Hs4.
    exists s4. split; [|exact Hs4].
    intros A kont. rewrite Hw1. cbn [mbind result_bind]. rewrite Hw2.
    cbn [mbind result_bind].
    rewrite (sym_deref _ _ _ 0%nat _ _ Hs2 eq_refl).
    rewrite (sym_deref _ _ _ 1%nat _ _ Hs2 eq_refl).
    cbn [mbind result_bind set_key key value]. rewrite Hw3.
    cbn [mbind result_bind]. rewrite Hw4. done. }
  destruct Hswap as (s4 & Hcode4 & Hs4).
  assert (Hrep4 : rep s4 None
            (plug (c2 ++ Frame R n ks vs hn l :: c) (T sa E kn vn hs sr))).
  { apply rep_plug. split.
    - apply distinct_plug. apply distinct_spec.
      rewrite <- (addrs_plug_swap c2 n kn vn ks vs hn l c (T sa E ks vs hs sr)); [|done].
      apply distinct_spec. by destruct Hrep.
    - split.
      + eapply ctx_ok_swap; [exact Hcc| | | |done..].
        * intros b Hbn Hbs. apply Hs4. simpl.
          rewrite !not_elem_of_cons. split_and!; try done. apply not_elem_of_nil.
        * intros b. apply Hs4.
        * intros nd Hnd. rewrite Hldn in Hnd. injection Hnd as <-.
          apply (sym_agree _ _ _ Hs4 0%nat). done.
      + rewrite <- (ctx_parent_app_cons c2 (Frame R n kn vn hn l)) by done.
        simpl. split_and!; try done.
        * by apply Hs4.
        * apply (sym_agree _ _ _ Hs4 1%nat). done.
        * eapply sym_cells_ok; [exact Hs4| |exact Hcsr].
          simpl in Hdt. destruct Hdt as (_ & Hsasr & _).
          repeat (apply Forall_cons_2; [|]); [|done|apply Forall_nil_2].
          assert (Hd : disj_ctx sr (c2 ++ Frame R n kn vn hn l :: c)).
          { rewrite disj_ctx_app. split.
            - by eapply disj_ctx_sub_r.
            - by eapply disj_ctx_sub_r. }
          apply disj_ctx_app in Hd as [_ Hd]. simpl in Hd. tauto. }
  destruct fuel as [|fuel'].
  { unfold l, r in Hfuel. simpl in Hfuel. lia. }
  destruct (erase_node_splice release dec fuel'
              (TreeState (ts_root m) (ts_size m) s4)
              (c2 ++ Frame R n ks vs hn l :: c) sa E kn vn hs sr)
    as (s5 & Hcode5 & Hrep5 & Hlive5); auto.
  { simpl. rewrite Hroot, !root_ptr_plug, !ctx_root_app. done. }
  exists s5, sa. cbn [erase_pos l r]. fold l r. rewrite Hmp.
  split_and!.
  - remember (Datatypes.S fuel') as fuel1 eqn:Hfuel1.
    cbn [erase_node]. cbv zeta. rewrite (deref_load _ _ _ Hldn).
    cbn [mbind result_bind left right key value root_ptr l r].
    fold l r. change (Some ar) with (root_ptr r). rewrite Hsuc.
    cbn [mbind result_bind].
    rewrite (Hcode4 _ (λ s, erase_node release fuel1
               {| ts_root := ts_root m; ts_size := ts_size m; ts_mem := s |} (Some sa))).
    subst fuel1. exact Hcode5.
  - exact Hrep5.
  - done.
  - destruct Hlive5 as [Hnl5 Hsame5]. split; [done|].
    intros b Hb. rewrite (Hsame5 b Hb). simpl. apply Hs4.
Qed.

End erase.

Section map_erase.
Context {K V S : Type} `{!NodeStore K V S}.
Implicit Types (s : S) (t l r : tree K V) (f : frame K V) (c : list (frame K V)).
Variable cmp : K → K → Z.

Lemma map_erase_missing release fuel (m : tree_state S) k t c :
  ts_root m = root_ptr t → cells_ok (ts_mem m) None t →
  (depth t ≤ fuel)%nat →
  locate cmp k t [] = (c, E) →
  map_erase release cmp fuel m k = Ok (0, m).
Proof.
  intros Hroot Hc Hfuel Hloc. unfold map_erase, find_node.
  rewrite Hroot, (find_from_rep cmp fuel _ None k t []); [|done..].
  by rewrite Hloc.
Qed.

Lemma map_erase_found release dec fuel (m : tree_state S) k t c n l kn vn hn r :
  release_ok release dec →
  ts_root m = root_ptr t → rep (ts_mem m) None t → hts_ok t →
  (depth t ≤ fuel)%nat →
  locate cmp k t [] = (c, T n l kn vn hn r) →
  ∃ s' a,
    map_erase release cmp fuel m k
    = Ok (1, TreeState (root_ptr (erase_at c (T n l kn vn hn r)))
               (dec (ts_size m)) s') ∧
    rep s' None (erase_at c (T n l kn vn hn r)) ∧
    (erase_pos c (T n l kn vn hn r)).2 = Some a ∧
    live_except (ts_mem m) s' a.
Proof.
  intros Hrel Hroot Hrep Hht Hfuel Hloc.
  pose proof (locate_plug cmp k t []) as Hplug. rewrite Hloc in Hplug.
  simpl in Hplug.
  pose proof (locate_length cmp k t []) as Hlen. rewrite Hloc in Hlen.
  cbn [fst snd length] in Hlen.
  rewrite <- Hplug in Hrep, Hroot, Hht.
  apply hts_ok_plug in Hht as [Hhn Hhc].
  destruct (erase_node_rep release dec fuel m c n l kn vn hn r)
    as (s1 & a & Hall); [done|lia|done|done|].
  pose proof (erase_pos_hts_ok c n l kn vn hn r Hhn Hhc) as [Hht' Hhc'].
  pose proof (erase_pos_length c n l kn vn hn r) as Hlen'.
  unfold erase_at.
  destruct (erase_pos c (T n l kn vn hn r)) as [[c' t'] fr] eqn:Hpos.
  cbn [fst snd] in *.
  destruct Hall as (Hcode & Hrep1 & Hfr & Hlive1).
  pose proof Hrep1 as Hrep1'.
  apply rep_plug in Hrep1' as ((Hdt & Hdc & Hdtc) & Hcc & Hct).
  destruct (rebalance_up_rep fuel (root_ptr (plug c' t')) s1 c' t')
    as (s2 & Hup & Hrep2 & Hlive2); try done.
  { lia. }
  { apply root_ptr_plug. }
  exists s2, a. split_and!; try done.
  - unfold map_erase, find_node.
    rewrite Hroot, Hplug, (find_from_rep cmp fuel _ None k t []);
      [|by rewrite <- Hplug; destruct Hrep|lia].
    rewrite Hloc. cbn [snd root_ptr mbind result_bind].
    rewrite Hcode. cbn [mbind result_bind ts_root ts_mem ts_size].
    rewrite Hup. cbn [mbind result_bind].
    by rewrite (clear_root_parent_rep s2 _ (proj2 Hrep2)).
  - destruct Hlive1 as [Hna Hsame]. split.
    + by rewrite (Hlive2 a).
    + intros b Hb. rewrite (Hlive2 b). by apply Hsame.
Qed.

End map_erase.

(** ** Balance *)
Section avl.
Context {K V : Type}.
Implicit Types (t l r : tree K V) (f : frame K V) (c : list (frame K V)).

Lemma avl_hts_ok t : avl t → hts_ok t.
Proof. induction t; simpl; [done|]. tauto. Qed.

Lemma avl_ht_nonneg t : avl t → 0 ≤ ht t.
Proof. intros. by apply hts_ok_nonneg, avl_hts_ok. Qed.

Lemma avl_ht_E t : avl t → ht t = 0 → t = E.
Proof.
  destruct t as [|a l k v h r]; [done|]. simpl. intros (-> & _ & Hl & Hr) H0.
  apply avl_ht_nonneg in Hl, Hr. lia.
Qed.

Lemma avl_mk a l k v r :
  avl l → avl r → -1 ≤ ht l - ht r ≤ 1 → avl (mk a l k v r).
Proof. by simpl. Qed.

(** Rebalancing a node whose subtrees are balanced and differ in height
    by at most two gives a balanced tree, of the height of the taller
    subtree or one more. *)
Lemma rebal_avl a l k v h r :
  avl l → avl r → -2 ≤ ht l - ht r ≤ 2 →
  avl (rebal (T a l k v h r)) ∧
  Z.max (ht l) (ht r) ≤ ht (rebal (T a l k v h r)) ≤ Z.max (ht l) (ht r) + 1 ∧
  (-1 ≤ ht l - ht r ≤ 1 →
   ht (rebal (T a l k v h r)) = Z.max (ht l) (ht r) + 1).
Proof.
  intros Hl Hr Hb. unfold rebal.
  destruct (Z.gtb_spec (ht l - ht r) 1) as [Hgt|Hle].
  - destruct l as [|x ll kx vx hx lr]; [simpl in *; apply avl_ht_nonneg in Hr; lia|].
    destruct Hl as (-> & Hbl & Hll & Hlr). cbn [ht] in *.
    pose proof (avl_ht_nonneg _ Hll). pose proof (avl_ht_nonneg _ Hlr).
    destruct (Z.geb_spec (ht ll) (ht lr)) as [Hge|Hlt].
    + unfold rot_right, mk. simpl. split_and!; try done; lia.
    + destruct lr as [|w wl kw vw hw wr]; [simpl in *; lia|].
      destruct Hlr as (-> & Hbw & Hwl & Hwr). cbn [ht] in *.
      unfold rot_right, rot_left, mk. simpl. split_and!; try done; lia.
  - destruct (Z.ltb_spec (ht l - ht r) (-1)) as [Hlt|Hge].
    + destruct r as [|z rl kz vz hz rr]; [simpl in *; apply avl_ht_nonneg in Hl; lia|].
      destruct Hr as (-> & Hbr & Hrl & Hrr). cbn [ht] in *.
      pose proof (avl_ht_nonneg _ Hrl). pose proof (avl_ht_nonneg _ Hrr).
      destruct (Z.geb_spec (ht rr) (ht rl)) as [Hge|Hlt'].
      * unfold rot_left, mk. simpl. split_and!; try done; lia.
      * destruct rl as [|w wl kw vw hw wr]; [simpl in *; lia|].
        destruct Hrl as (-> & Hbw & Hwl & Hwr). cbn [ht] in *.
        unfold rot_right, rot_left, mk. simpl. split_and!; try done; lia.
    + unfold mk. simpl. split_and!; try done; lia.
Qed.

Lemma avl_plug c t : avl (plug c t) → avl t ∧ avl_ctx c (ht t).
Proof.
  revert t. induction c as [|f c IH]; intros t; simpl; [tauto|].
  intros Hp. destruct (IH _ Hp) as [Hf Hc]. unfold fill in *.
  destruct (f_dir f); simpl in *; destruct Hf as (Hh & Hb & H1 & H2);
    rewrite Hh in Hc; split_and!; try done; try lia.
  by rewrite Z.max_comm.
Qed.

Lemma rebal_up_avl c t h0 :
  avl t → avl_ctx c h0 → -1 ≤ ht t - h0 ≤ 1 → avl (rebal_up c t).
Proof.
  revert t h0. induction c as [|f c IH]; intros t h0 Ht Hc Hh; simpl; [done|].
  destruct Hc as (Hs & Hb & Hc).
  assert (∃ a l k v h r, fill f t = T a l k v h r ∧ avl l ∧ avl r ∧
            -2 ≤ ht l - ht r ≤ 2 ∧
            Z.max (ht l) (ht r) = Z.max (ht t) (ht (f_sib f)) ∧
            (-1 ≤ ht l - ht r ≤ 1 ↔ -1 ≤ ht t - ht (f_sib f) ≤ 1))
    as (a & l & k & v & h & r & Hfill & Hl & Hr & Hb2 & Hmax & Hiff).
  { unfold fill. destruct (f_dir f); do 6 eexists;
      (split; [reflexivity|]); split_and!; try done; lia. }
  rewrite Hfill.
  destruct (rebal_avl a l k v h r Hl Hr Hb2) as (Havl & Hrange & Hexact).
  eapply (IH _ _ Havl Hc).
  destruct (decide (-1 ≤ ht t - ht (f_sib f) ≤ 1)) as [Hin|Hout].
  - rewrite Hexact by (by apply Hiff). lia.
  - lia.
Qed.

Lemma avl_ctx_sibs c c' h :
  f_sib <$> c = f_sib <$> c' → avl_ctx c h → avl_ctx c' h.
Proof.
  revert c' h. induction c as [|f c IH]; intros [|f' c'] h; simpl; try done.
  intros [= Hf Hc] (Hs & Hb & Hcc). rewrite <- Hf.
  split; [done|]. split; [done|]. by apply IH.
Qed.

Lemma insert_at_avl c n k v :
  avl (plug c (@E K V)) → avl (insert_at c n k v).
Proof.
  intros Hp. apply avl_plug in Hp as [_ Hc]. unfold insert_at.
  eapply rebal_up_avl; [|exact Hc|]; simpl; [|lia].
  split_and!; try done; lia.
Qed.

Lemma erase_at_avl c n l kn vn hn r :
  avl (plug c (T n l kn vn hn r)) → avl (erase_at c (T n l kn vn hn r)).
Proof.
  intros Hp. pose proof Hp as Hp0.
  apply avl_plug in Hp as [Ht Hc]. unfold erase_at. cbn [erase_pos].
  pose proof Ht as (Hh & Hb & Hl & Hr). cbn [ht] in Hc.
  pose proof (avl_ht_nonneg _ Hl). pose proof (avl_ht_nonneg _ Hr).
  destruct l as [|al ll kl vl hl rl].
  { simpl. eapply rebal_up_avl; [done|exact Hc|]. simpl in *. lia. }
  destruct r as [|ar lr kr vr hr rr].
  { simpl. eapply rebal_up_avl; [done|exact Hc|]. simpl in *. lia. }
  set (l := T al ll kl vl hl rl) in *. set (r := T ar lr kr vr hr rr) in *.
  destruct (min_path_node r []) as (sa & ks & vs & hs & sr & Hmin); [done|].
  pose proof (min_path_plug r []) as Hplug. rewrite Hmin in Hplug.
  destruct (min_path r []) as [c2 tmin]. simpl in Hmin, Hplug. subst tmin.
  cbn [fst snd].
  assert (Hwhole : plug c (T n l kn vn hn r)
                   = plug (c2 ++ Frame R n kn vn hn l :: c) (T sa E ks vs hs sr)).
  { rewrite plug_app. simpl. unfold fill. simpl. by rewrite Hplug. }
  rewrite Hwhole in Hp0. apply avl_plug in Hp0 as [Hsa Hc'].
  destruct Hsa as (Hhs & Hbs & _ & Hsr). cbn [ht] in *.
  pose proof (avl_ht_nonneg _ Hsr).
  eapply rebal_up_avl; [exact Hsr| |].
  - eapply avl_ctx_sibs; [|exact Hc']. by rewrite !fmap_app.
  - lia.
Qed.

End avl.

Ltac list_norm :=
  repeat first [rewrite app_nil_r | rewrite <- app_assoc
               | rewrite <- app_comm_cons | rewrite app_nil_l ];
  cbn [app].

(** ** Order *)
Section order.
Context {K : Type} (cmp : K → K → Z) `{!CmpOrder cmp}.

Lemma cmp_refl a : cmp a a = 0.
Proof. pose proof (cmp_antisym a a). lia. Qed.

Lemma cmp_gt_lt a b : 0 < cmp a b ↔ cmp b a < 0.
Proof. pose proof (cmp_antisym a b). lia. Qed.

Lemma cmp_eq_sym a b : cmp a b = 0 ↔ cmp b a = 0.
Proof. pose proof (cmp_antisym a b). lia. Qed.

Lemma cmp_equiv_r a b c : cmp a b = 0 → Z.sgn (cmp c a) = Z.sgn (cmp c b).
Proof.
  intros Hab. pose proof (cmp_equiv a b c Hab).
  pose proof (cmp_antisym a c). pose proof (cmp_antisym b c). lia.
Qed.

Lemma cmp_lt_irrefl a b : cmp a b < 0 → cmp a b = 0 → False.
Proof. lia. Qed.

Lemma increasing_app (l1 l2 : list K) :
  increasing cmp (l1 ++ l2) ↔
  increasing cmp l1 ∧ increasing cmp l2 ∧
  Forall (λ x, Forall (λ y, cmp x y < 0) l2) l1.
Proof.
  induction l1 as [|x l1 IH]; simpl.
  - split; [intros ?; split_and!; done|tauto].
  - rewrite IH, Forall_app, Forall_cons. tauto.
Qed.

Lemma increasing_cons_app (l1 l2 : list K) k :
  increasing cmp (l1 ++ k :: l2) ↔
  increasing cmp l1 ∧ increasing cmp l2 ∧
  Forall (λ x, cmp x k < 0) l1 ∧ Forall (λ y, cmp k y < 0) l2 ∧
  Forall (λ x, Forall (λ y, cmp x y < 0) l2) l1.
Proof.
  rewrite increasing_app. simpl. split.
  - intros (H1 & (Hk & H2) & H12). split_and!; try done.
    + eapply Forall_impl; [exact H12|]. intros x Hx. by apply Forall_cons in Hx as [? _].
    + eapply Forall_impl; [exact H12|]. intros x Hx. by apply Forall_cons in Hx as [_ ?].
  - intros (H1 & H2 & H1k & Hk2 & H12). split_and!; try done.
    rewrite Forall_forall in H1k, H12. apply Forall_forall. intros x Hx.
    apply Forall_cons. eauto.
Qed.

(** Inserting between the smaller and the larger keys. *)
Lemma increasing_insert (l1 l2 : list K) k :
  increasing cmp (l1 ++ l2) →
  Forall (λ x, cmp x k < 0) l1 → Forall (λ y, cmp k y < 0) l2 →
  increasing cmp (l1 ++ k :: l2).
Proof.
  rewrite increasing_cons_app, increasing_app. tauto.
Qed.

Lemma increasing_remove (l1 l2 : list K) k :
  increasing cmp (l1 ++ k :: l2) → increasing cmp (l1 ++ l2).
Proof. rewrite increasing_cons_app, increasing_app. tauto. Qed.

End order.

Section bst.
Context {K V : Type} (cmp : K → K → Z) `{!CmpOrder cmp}.
Implicit Types (t l r : tree K V) (f : frame K V) (c : list (frame K V)).

Lemma node_keys_app (xs ys : list (nat * (K * V))) :
  node_keys (xs ++ ys) = node_keys xs ++ node_keys ys.
Proof. unfold node_keys. by rewrite !fmap_app. Qed.

Lemma node_keys_cons a k v (xs : list (nat * (K * V))) :
  node_keys ((a, (k, v)) :: xs) = k :: node_keys xs.
Proof. done. Qed.

Lemma node_keys_nil : node_keys (K:=K) (V:=V) [] = [].
Proof. done. Qed.

Local Arguments node_keys : simpl never.

Lemma keys_inorder t : keys t = node_keys (inorder t).
Proof. done. Qed.

Lemma entries_T a l k v h r :
  entries (T a l k v h r) = entries l ++ (k, v) :: entries r.
Proof. unfold entries. simpl. by rewrite fmap_app. Qed.

Lemma keys_T a l k v h r : keys (T a l k v h r) = keys l ++ k :: keys r.
Proof. unfold keys. rewrite entries_T. by rewrite fmap_app. Qed.

Lemma count_inorder t : count t = length (inorder t).
Proof.
  induction t as [|a l IHl k v h r IHr]; simpl; [done|].
  rewrite length_app. simpl. lia.
Qed.

Lemma depth_le_count t : (depth t ≤ count t)%nat.
Proof. induction t; simpl; lia. Qed.

Lemma inorder_rebal_up c t : inorder (rebal_up c t) = inorder (plug c t).
Proof.
  revert t. induction c as [|f c IH]; intros t; simpl; [done|].
  by rewrite IH, !inorder_plug, inorder_rebal.
Qed.

Lemma bst_nodes_of_bst t : bst cmp t → bst_nodes cmp t.
Proof.
  unfold bst. induction t as [|a l IHl k v h r IHr]; simpl; [done|].
  rewrite keys_T, increasing_cons_app. intros (Hl & Hr & Hlk & Hkr & _).
  auto.
Qed.

Lemma locate_bounds k t c :
  increasing cmp (keys t) →
  Forall (λ x, cmp x k < 0) (node_keys (before c)) →
  Forall (λ y, cmp k y < 0) (node_keys (after c)) →
  Forall (λ x, cmp x k < 0) (node_keys (before (locate cmp k t c).1)) ∧
  Forall (λ y, cmp k y < 0) (node_keys (after (locate cmp k t c).1)).
Proof.
  revert c. induction t as [|a l IHl ka v h r IHr]; intros c; simpl;
    [by intros _ ? ?|].
  rewrite keys_T, increasing_cons_app.
  intros (Hl & Hr & Hlk & Hkr & _) Hb Ha.
  destruct (Z.eqb_spec (cmp k ka) 0) as [Heq|Hne]; [done|].
  destruct (Z.ltb_spec (cmp k ka) 0) as [Hlt|Hge].
  - apply IHl; [done|by simpl; rewrite app_nil_r|]. simpl.
    rewrite node_keys_cons, node_keys_app.
    apply Forall_cons. split; [done|]. apply Forall_app. split; [|done].
    eapply Forall_impl; [exact Hkr|]. intros y Hy. simpl in Hy.
    by eapply cmp_trans.
  - assert (cmp ka k < 0) as Hka by (apply cmp_gt_lt; [done|lia]).
    apply IHr; [done| |by simpl]. simpl.
    rewrite !node_keys_app, node_keys_cons, node_keys_nil.
    apply Forall_app. split; [done|]. apply Forall_app. split.
    + eapply Forall_impl; [exact Hlk|]. intros x Hx. simpl in Hx.
      by eapply cmp_trans.
    + by apply Forall_cons.
Qed.

Lemma keys_plug c t :
  keys (plug c t) = node_keys (before c) ++ keys t ++ node_keys (after c).
Proof. by rewrite !keys_inorder, inorder_plug, !node_keys_app. Qed.

Lemma entries_plug c t :
  entries (plug c t) = (before c).*2 ++ entries t ++ (after c).*2.
Proof. unfold entries. by rewrite inorder_plug, !fmap_app. Qed.

Lemma insert_at_entries c n k v :
  entries (insert_at c n k v) = (before c).*2 ++ (k, v) :: (after c).*2.
Proof.
  unfold insert_at, entries. rewrite inorder_rebal_up, inorder_plug.
  by rewrite !fmap_app.
Qed.

Lemma insert_at_count c n k v :
  count (insert_at c n k v) = Datatypes.S (count (plug c (@E K V))).
Proof.
  unfold insert_at. rewrite !count_inorder, inorder_rebal_up, !inorder_plug.
  rewrite !length_app. simpl. lia.
Qed.

(** Inserting a key that the descent did not find keeps the order. *)
Lemma insert_at_bst t c n k k' v :
  bst cmp t → locate cmp k t [] = (c, E) → cmp k k' = 0 →
  bst cmp (insert_at c n k' v).
Proof.
  unfold bst. intros Ht Hloc Hkk'.
  pose proof (locate_plug cmp k t []) as Hplug. rewrite Hloc in Hplug.
  simpl in Hplug.
  pose proof (locate_bounds k t [] Ht (Forall_nil_2 _) (Forall_nil_2 _)) as [Hb Ha].
  rewrite Hloc in Hb, Ha. simpl in Hb, Ha.
  rewrite <- Hplug, keys_plug in Ht. simpl in Ht.
  unfold keys. rewrite insert_at_entries, fmap_app. simpl.
  change (increasing cmp (node_keys (before c) ++ k' :: node_keys (after c))).
  apply increasing_insert; [done| |].
  - eapply Forall_impl; [exact Hb|]. intros x Hx. simpl in Hx.
    pose proof (cmp_equiv_r cmp k k' x Hkk'). lia.
  - eapply Forall_impl; [exact Ha|]. intros y Hy. simpl in Hy.
    pose proof (cmp_equiv k k' y Hkk'). lia.
Qed.

(** What the descent finds is in the tree, under an equivalent key. *)
Lemma locate_in k t c c' a l k' v h r :
  locate cmp k t c = (c', T a l k' v h r) →
  (k', v) ∈ entries t ∧ cmp k k' = 0.
Proof.
  revert c. induction t as [|a0 l0 IHl k0 v0 h0 r0 IHr]; intros c; simpl; [done|].
  rewrite entries_T.
  destruct (Z.eqb_spec (cmp k k0) 0) as [Heq|Hne].
  - intros [= <- <- <- <- <- <- <-]. split; [|done]. set_solver.
  - destruct (cmp k k0 <? 0); intros Hloc.
    + apply IHl in Hloc as [? ?]. split; [|done]. set_solver.
    + apply IHr in Hloc as [? ?]. split; [|done]. set_solver.
Qed.

(** In a search tree the descent finds every entry. *)
Lemma locate_complete k t c k' v' :
  bst cmp t → (k', v') ∈ entries t → cmp k k' = 0 →
  ∃ a l k0 h r, (locate cmp k t c).2 = T a l k0 v' h r.
Proof.
  unfold bst. revert c. induction t as [|a l IHl ka va h r IHr]; intros c; simpl.
  - intros _ Hin. by apply elem_of_nil in Hin.
  - rewrite keys_T, increasing_cons_app, entries_T.
    intros (Hl & Hr & Hlk & Hkr & _) Hin Hkk'.
    apply elem_of_app in Hin as [Hin|Hin]; [|apply elem_of_cons in Hin as [Heq|Hin]].
    + assert (cmp k' ka < 0) as Hlt.
      { rewrite Forall_forall in Hlk. apply Hlk. unfold keys.
        apply list_elem_of_fmap. by exists (k', v'). }
      pose proof (cmp_equiv k k' ka Hkk').
      destruct (Z.eqb_spec (cmp k ka) 0); [lia|].
      destruct (Z.ltb_spec (cmp k ka) 0); [|lia]. by apply IHl.
    + injection Heq as -> ->.
      destruct (Z.eqb_spec (cmp k ka) 0); [|done]. simpl. eauto 10.
    + assert (cmp ka k' < 0) as Hlt.
      { rewrite Forall_forall in Hkr. apply Hkr. unfold keys.
        apply list_elem_of_fmap. by exists (k', v'). }
      pose proof (cmp_equiv k k' ka Hkk'). pose proof (cmp_antisym ka k').
      destruct (Z.eqb_spec (cmp k ka) 0); [lia|].
      destruct (Z.ltb_spec (cmp k ka) 0); [lia|]. by apply IHr.
Qed.

Lemma find_val_in k t k' v' :
  bst cmp t → (k', v') ∈ entries t → cmp k k' = 0 → find_val cmp k t = Some v'.
Proof.
  intros Ht Hin Hkk'. unfold find_val.
  destruct (locate_complete k t [] k' v' Ht Hin Hkk') as (a & l & k0 & h & r & ->).
  done.
Qed.

Lemma find_val_None k t :
  (∀ k' v', (k', v') ∈ entries t → cmp k k' ≠ 0) → find_val cmp k t = None.
Proof.
  intros Hno. unfold find_val.
  destruct (locate cmp k t []) as [c' t'] eqn:Hloc. simpl.
  destruct t' as [|a l k' v h r]; [done|].
  apply locate_in in Hloc as [Hin Heq]. by destruct (Hno _ _ Hin).
Qed.

Lemma locate_hole_absent k t c c' :
  locate cmp k t c = (c', E) → bst cmp t →
  ∀ k' v', (k', v') ∈ entries t → cmp k k' ≠ 0.
Proof.
  intros Hloc Ht k' v' Hin Heq.
  destruct (locate_complete k t c k' v' Ht Hin Heq) as (a & l & k0 & h & r & H).
  by rewrite Hloc in H.
Qed.

Lemma before_all_L c : Forall (λ f, f_dir f = L) c → before c = [].
Proof.
  induction c as [|f c IH]; [done|]. intros Hc.
  apply Forall_cons in Hc as [Hf Hc]. simpl. by rewrite Hf, IH.
Qed.

Lemma after_all_R c : Forall (λ f, f_dir f = R) c → after c = [].
Proof.
  induction c as [|f c IH]; [done|]. intros Hc.
  apply Forall_cons in Hc as [Hf Hc]. simpl. by rewrite Hf, IH.
Qed.

(** The nodes of the tree after [erase_node]: the node at the end of the
    path is gone; with two children, it is the successor's node that is
    gone and its key and value are at [n]. *)
Lemma erase_pos_inorder c n l kn vn hn r :
  let '(c', t', _) := erase_pos c (T n l kn vn hn r) in
  inorder (plug c' t') =
  before c ++
  match l, r with
  | T _ _ _ _ _ _, T _ _ _ _ _ _ =>
      match (min_path r []).2 with
      | T sa _ ks vs _ _ =>
          inorder l ++ (n, (ks, vs)) :: tail (inorder r)
      | E => inorder (T n l kn vn hn r)
      end
  | _, _ => inorder l ++ inorder r
  end ++ after c.
Proof.
  cbn [erase_pos].
  destruct l as [|al ll kl vl hl rl].
  { by rewrite inorder_plug. }
  destruct r as [|ar lr kr vr hr rr].
  { by rewrite inorder_plug, app_nil_r. }
  set (l := T al ll kl vl hl rl) in *. set (r := T ar lr kr vr hr rr) in *.
  destruct (min_path_node r []) as (sa & ks & vs & hs & sr & Hmin); [done|].
  pose proof (min_path_plug r []) as Hplug. rewrite Hmin in Hplug.
  pose proof (min_path_dirs r [] (Forall_nil_2 _)) as Hdirs.
  destruct (min_path r []) as [c2 tmin]. simpl in Hmin, Hplug, Hdirs. subst tmin.
  cbn [snd].
  rewrite inorder_plug, before_app, after_app, (before_all_L c2 Hdirs).
  rewrite <- Hplug, inorder_plug, (before_all_L c2 Hdirs). simpl.
  by list_norm.
Qed.

Lemma erase_at_entries c n l kn vn hn r :
  entries (erase_at c (T n l kn vn hn r))
  = (before c).*2 ++ entries l ++ entries r ++ (after c).*2.
Proof.
  unfold erase_at, entries. rewrite inorder_rebal_up.
  pose proof (erase_pos_inorder c n l kn vn hn r) as Hin.
  destruct (erase_pos c (T n l kn vn hn r)) as [[c' t'] fr]. cbn [fst snd].
  rewrite Hin.
  destruct l as [|al ll kl vl hl rl].
  { rewrite !fmap_app. by list_norm. }
  destruct r as [|ar lr kr vr hr rr].
  { rewrite !fmap_app. by list_norm. }
  set (l := T al ll kl vl hl rl) in *. set (r := T ar lr kr vr hr rr) in *.
  destruct (min_path_node r []) as (sa & ks & vs & hs & sr & Hmin); [done|].
  pose proof (min_path_plug r []) as Hplug. rewrite Hmin in Hplug.
  pose proof (min_path_dirs r [] (Forall_nil_2 _)) as Hdirs.
  destruct (min_path r []) as [c2 tmin]. simpl in Hmin, Hplug, Hdirs. subst tmin.
  cbn [snd]. rewrite <- Hplug, inorder_plug, (before_all_L c2 Hdirs).
  simpl. rewrite !fmap_app. simpl. rewrite ?fmap_app. simpl.
  by list_norm.
Qed.

Lemma erase_at_keys c n l kn vn hn r :
  keys (erase_at c (T n l kn vn hn r))
  = (node_keys (before c) ++ keys l) ++ (keys r ++ node_keys (after c)).
Proof.
  unfold keys. rewrite erase_at_entries. rewrite !fmap_app. by list_norm.
Qed.

Lemma erase_at_bst c n l kn vn hn r :
  bst cmp (plug c (T n l kn vn hn r)) → bst cmp (erase_at c (T n l kn vn hn r)).
Proof.
  unfold bst. rewrite erase_at_keys, keys_plug, keys_T.
  intros Hinc. apply (increasing_remove cmp _ _ kn).
  assert ((node_keys (before c) ++ keys l) ++ kn :: keys r ++ node_keys (after c)
          = node_keys (before c) ++ (keys l ++ kn :: keys r) ++ node_keys (after c))
    as -> by (by list_norm).
  done.
Qed.

Lemma erase_at_count c n l kn vn hn r :
  Datatypes.S (count (erase_at c (T n l kn vn hn r)))
  = count (plug c (T n l kn vn hn r)).
Proof.
  rewrite !count_inorder.
  rewrite <- (length_fmap snd (inorder (erase_at _ _))).
  rewrite <- (length_fmap snd (inorder (plug _ _))).
  change (Datatypes.S (length (entries (erase_at c (T n l kn vn hn r))))
          = length (entries (plug c (T n l kn vn hn r)))).
  rewrite erase_at_entries, entries_plug, entries_T.
  rewrite !length_app. simpl. lia.
Qed.

End bst.

(** ** Iteration *)
Section positions.
Context {K V : Type}.
Implicit Types (t l r : tree K V) (f : frame K V) (c : list (frame K V)).

(** Every node of a tree is at the end of a path that splits the
    symmetric order around it. *)
Lemma position_in t c0 xs a k v ys :
  inorder t = xs ++ (a, (k, v)) :: ys →
  ∃ c l h r,
    plug c (T a l k v h r) = plug c0 t ∧
    before c ++ inorder l = before c0 ++ xs ∧
    inorder r ++ after c = ys ++ after c0.
Proof.
  revert c0 xs ys. induction t as [|b tl IHl kb vb hb tr IHr]; intros c0 xs ys.
  { simpl. intros Heq. by destruct xs. }
  simpl. intros Heq.
  apply app_eq_app in Heq as [l' [[Hl Hrest]|[Hxs Hrest]]].
  - destruct l' as [|x l''].
    + simpl in Hrest. injection Hrest as -> -> -> ->.
      rewrite app_nil_r in Hl. subst xs.
      exists c0, tl, hb, tr. done.
    + simpl in Hrest. injection Hrest as <- Hys.
      destruct (IHl (Frame L b kb vb hb tr :: c0) xs l'' Hl)
        as (c & l & h & r & Hplug & Hb & Ha).
      exists c, l, h, r. split_and!; [done| |].
      * rewrite Hb. simpl. by list_norm.
      * rewrite Ha, Hys. simpl. by list_norm.
  - destruct l' as [|x l''].
    + simpl in Hrest. injection Hrest as <- <- <- <-.
      rewrite app_nil_r in Hxs. subst xs.
      exists c0, tl, hb, tr. done.
    + simpl in Hrest. injection Hrest as <- Htr.
      destruct (IHr (Frame R b kb vb hb tl :: c0) l'' ys Htr)
        as (c & l & h & r & Hplug & Hb & Ha).
      exists c, l, h, r. split_and!; [done| |done].
      rewrite Hb, Hxs. simpl. by list_norm.
Qed.

Lemma min_path_head t c :
  t ≠ E → root_ptr (min_path t c).2 = head (addrs t).
Proof.
  revert c. induction t as [|a l IHl k v h r IHr]; intros c; [done|].
  intros _. simpl. destruct l as [|al ll kl vl hl rl]; [done|].
  rewrite IHl by done. rewrite !addrs_T. by destruct (addrs ll).
Qed.

Lemma last_app_cons {A} (l1 l2 : list A) x :
  last (l1 ++ x :: l2) = last (x :: l2).
Proof.
  rewrite last_app. destruct (last (x :: l2)) eqn:Hl; [done|].
  by apply last_None in Hl.
Qed.

Lemma max_path_last t c :
  t ≠ E → root_ptr (max_path t c).2 = last (addrs t).
Proof.
  revert c. induction t as [|a l IHl k v h r IHr]; intros c; [done|].
  intros _. simpl. destruct r as [|ar lr kr vr hr rr].
  - by rewrite addrs_T, last_app.
  - rewrite IHr by done. rewrite !addrs_T.
    change (a :: addrs lr ++ ar :: addrs rr)
      with ((a :: addrs lr) ++ ar :: addrs rr).
    by rewrite app_assoc, !last_app_cons.
Qed.

Lemma addrs_nil_E t : addrs t = [] → t = E.
Proof.
  destruct t as [|a l k v h r]; [done|]. rewrite addrs_T.
  by destruct (addrs l).
Qed.

End positions.

Section iteration.
Context {K V S : Type} `{!NodeStore K V S}.
Implicit Types (s : S) (t l r : tree K V) (f : frame K V) (c : list (frame K V)).

Lemma climb_from_right_rep fuel s c o :
  ctx_ok s c (Some o) → notin_ctx o c → distinct_ctx c →
  (length c ≤ fuel)%nat →
  climb_from_right fuel s (ctx_parent c) (Some o) = Ok (head (after c).*1).
Proof.
  revert fuel o. induction c as [|f c IH]; intros fuel o.
  { intros _ _ _ _. by destruct fuel. }
  intros (Hlv & Hld & Hcs & Hcc) (Hof & Hos & Hoc) (Hfs & Hfc & _ & _ & Hdc) Hfuel.
  simpl in Hfuel. destruct fuel as [|fuel]; [lia|].
  cbn [climb_from_right ctx_parent]. rewrite (deref_load _ _ _ Hld).
  cbn [mbind result_bind right parent].
  destruct (f_dir f) eqn:Hdir.
  - rewrite decide_False by (by apply notin_root_ptr).
    simpl. by rewrite Hdir.
  - rewrite decide_True by done.
    rewrite IH; [|done|done|done|lia]. simpl. by rewrite Hdir.
Qed.

Lemma climb_from_left_rep fuel s c o :
  ctx_ok s c (Some o) → notin_ctx o c → distinct_ctx c →
  (length c ≤ fuel)%nat →
  climb_from_left fuel s (ctx_parent c) (Some o) = Ok (last (before c).*1).
Proof.
  revert fuel o. induction c as [|f c IH]; intros fuel o.
  { intros _ _ _ _. by destruct fuel. }
  intros (Hlv & Hld & Hcs & Hcc) (Hof & Hos & Hoc) (Hfs & Hfc & _ & _ & Hdc) Hfuel.
  simpl in Hfuel. destruct fuel as [|fuel]; [lia|].
  cbn [climb_from_left ctx_parent]. rewrite (deref_load _ _ _ Hld).
  cbn [mbind result_bind left parent].
  destruct (f_dir f) eqn:Hdir.
  - rewrite decide_True by done.
    rewrite IH; [|done|done|done|lia]. simpl. by rewrite Hdir, app_nil_r.
  - rewrite decide_False by (by apply notin_root_ptr).
    simpl. rewrite Hdir. rewrite !fmap_app, !last_app. simpl. done.
Qed.

Lemma plug_depth c t : (length c + depth t ≤ depth (plug c t))%nat.
Proof.
  revert t. induction c as [|f c IH]; intros t; simpl; [done|].
  specialize (IH (fill f t)). unfold fill in *.
  destruct (f_dir f); simpl in IH; lia.
Qed.

Lemma map_next_rep fuel s c a l k v h r :
  rep s None (plug c (T a l k v h r)) →
  (depth (plug c (T a l k v h r)) ≤ fuel)%nat →
  map_next fuel s (Some a) = Ok (head (inorder r ++ after c).*1).
Proof.
  intros Hrep Hfuel. pose proof (plug_depth c (T a l k v h r)) as Hd.
  apply rep_plug in Hrep as ((Hdt & Hdc & Hdtc) & Hcc & Hct).
  destruct Hct as (Hlv & Hld & Hcl & Hcr).
  unfold map_next. rewrite (deref_load _ _ _ Hld).
  cbn [mbind result_bind right parent].
  destruct r as [|ar lr kr vr hr rr].
  - simpl. apply climb_from_right_rep; try done.
    + eapply notin_ctx_disj; [exact Hdtc|]. simpl. tauto.
    + simpl in Hd. lia.
  - cbn [root_ptr]. change (Some ar) with (root_ptr (T ar lr kr vr hr rr)).
    rewrite (leftmost_rep _ _ (Some a) _ []); [|done|done|simpl in *; lia].
    rewrite min_path_head by done. unfold addrs. rewrite fmap_app.
    simpl. rewrite fmap_app. by destruct ((inorder lr).*1).
Qed.

Lemma map_prev_rep fuel s c a l k v h r :
  rep s None (plug c (T a l k v h r)) →
  (depth (plug c (T a l k v h r)) ≤ fuel)%nat →
  map_prev fuel s (Some a) = Ok (last (before c ++ inorder l).*1).
Proof.
  intros Hrep Hfuel. pose proof (plug_depth c (T a l k v h r)) as Hd.
  apply rep_plug in Hrep as ((Hdt & Hdc & Hdtc) & Hcc & Hct).
  destruct Hct as (Hlv & Hld & Hcl & Hcr).
  unfold map_prev. rewrite (deref_load _ _ _ Hld).
  cbn [mbind result_bind left parent].
  destruct l as [|al ll kl vl hl rl].
  - simpl. rewrite app_nil_r. apply climb_from_left_rep; try done.
    + eapply notin_ctx_disj; [exact Hdtc|]. simpl. tauto.
    + simpl in Hd. lia.
  - cbn [root_ptr]. change (Some al) with (root_ptr (T al ll kl vl hl rl)).
    rewrite (rightmost_rep _ _ (Some a) _ []); [|done|done|simpl in *; lia].
    rewrite max_path_last by done. rewrite fmap_app.
    change ((inorder (T al ll kl vl hl rl)).*1) with (addrs (T al ll kl vl hl rl)).
    by rewrite addrs_T, app_assoc, !last_app_cons.
Qed.

(** Forward iteration from a node visits the rest of the symmetric
    order. *)
Lemma visit_next_rep {A} (read : ptr → result A) g fuel n s t xs ys :
  rep s None t → (depth t ≤ fuel)%nat →
  (∀ x, x ∈ inorder t → read (Some x.1) = Ok (g x)) →
  inorder t = xs ++ ys → (length ys ≤ n)%nat →
  visit read (map_next fuel s) n (head ys.*1) = Ok (g <$> ys).
Proof.
  intros Hrep Hfuel Hread. revert n xs.
  induction ys as [|[a [k v]] ys IH]; intros n xs Hin Hn.
  { by destruct n. }
  simpl in Hn. destruct n as [|n]; [lia|].
  destruct (position_in t [] xs a k v ys Hin) as (c & l & h & r & Hplug & Hb & Ha).
  simpl in Hplug, Hb, Ha. rewrite app_nil_r in Ha.
  cbn [fmap list_fmap head visit fst].
  assert (read (Some a) = Ok (g (a, (k, v)))) as ->.
  { apply (Hread (a, (k, v))). rewrite Hin. set_solver. }
  rewrite (map_next_rep fuel s c a l k v h r); [|by rewrite Hplug..].
  rewrite Ha. cbn [mbind result_bind].
  rewrite (IH n (xs ++ [(a, (k, v))])); [done| |lia].
  rewrite Hin. by list_norm.
Qed.

(** Backward iteration from a node visits what precedes it, last
    first. *)
Lemma visit_prev_rep {A} (read : ptr → result A) g fuel n s t xs ys :
  rep s None t → (depth t ≤ fuel)%nat →
  (∀ x, x ∈ inorder t → read (Some x.1) = Ok (g x)) →
  inorder t = xs ++ ys → (length xs ≤ n)%nat →
  visit read (map_prev fuel s) n (last xs.*1) = Ok (reverse (g <$> xs)).
Proof.
  intros Hrep Hfuel Hread. revert n ys.
  induction xs as [|[a [k v]] xs IH] using rev_ind; intros n ys Hin Hn.
  { by destruct n. }
  rewrite length_app in Hn. simpl in Hn. destruct n as [|n]; [lia|].
  rewrite <- app_assoc in Hin. simpl in Hin.
  destruct (position_in t [] xs a k v ys Hin) as (c & l & h & r & Hplug & Hb & Ha).
  simpl in Hplug, Hb, Ha.
  rewrite !fmap_app. cbn [fmap list_fmap fst]. rewrite last_snoc. cbn [visit].
  assert (read (Some a) = Ok (g (a, (k, v)))) as ->.
  { apply (Hread (a, (k, v))). rewrite Hin. set_solver. }
  rewrite (map_prev_rep fuel s c a l k v h r); [|by rewrite Hplug..].
  rewrite Hb. cbn [mbind result_bind].
  rewrite (IH n ((a, (k, v)) :: ys)); [|done|lia].
  simpl. by rewrite reverse_app.
Qed.

(** The cell of a node listed in the symmetric order. *)
Lemma cells_ok_lookup s par t a k v :
  cells_ok s par t → (a, (k, v)) ∈ inorder t →
  ∃ nd, load s a = Some nd ∧ key nd = k ∧ value nd = v.
Proof.
  revert par. induction t as [|b l IHl kb vb hb r IHr]; intros par; simpl.
  { intros _ Hin. by apply elem_of_nil in Hin. }
  intros (Hlv & Hld & Hcl & Hcr) Hin.
  apply elem_of_app in Hin as [Hin|Hin]; [by eapply IHl|].
  apply elem_of_cons in Hin as [Heq|Hin]; [|by eapply IHr].
  injection Heq as -> -> ->. eexists. split; [exact Hld|done].
Qed.

Lemma subtree_min_rep fuel s t :
  cells_ok s None t → (depth t ≤ fuel)%nat →
  subtree_min fuel s (root_ptr t) = Ok (head (addrs t)).
Proof.
  intros Hc Hfuel. destruct t as [|a l k v h r]; [done|].
  unfold subtree_min. cbn [root_ptr].
  change (Some a) with (root_ptr (T a l k v h r)).
  rewrite (leftmost_rep _ _ None _ []); [|done..].
  by rewrite min_path_head.
Qed.

End iteration.

(** ** Properties of the memory that every field update keeps *)
Create HintDb closed.

Section closed.
Context {K V S : Type} `{!NodeStore K V S}.
Variable P : S → Prop.
Hypothesis store_closed : ∀ s a n, is_Some (load s a) → P s → P (store s a n).

Lemma write_closed s p f s' : write s p f = Ok s' → P s → P s'.
Proof.
  unfold write. destruct p as [a|]; [|done].
  destruct (load s a) as [n|] eqn:Hld; [|done].
  intros [= <-] HP. by apply store_closed.
Qed.

Lemma write_if_closed s p f s' : write_if s p f = Ok s' → P s → P s'.
Proof.
  unfold write_if. destruct p; [apply write_closed|]. by intros [= <-].
Qed.

Ltac closed_step :=
  match goal with
  | H : Ok _ = Ok _ |- _ => injection H as ?; subst
  | H : Undefined = Ok _ |- _ => discriminate H
  | H : OutOfFuel = Ok _ |- _ => discriminate H
  | H : mbind _ ?e = Ok _ |- _ =>
      let E := fresh "E" in
      destruct e eqn:E; cbn [mbind result_bind] in H
  | H : (let '(_, _) := ?p in _) = Ok _ |- _ => destruct p
  | H : (if ?b then _ else _) = Ok _ |- _ => destruct b
  | H : match ?p with Some _ => _ | None => _ end = Ok _ |- _ => destruct p
  end.

Ltac closed_run := repeat closed_step.

Lemma update_height_closed s n s' : update_height s n = Ok s' → P s → P s'.
Proof.
  unfold update_height. intros H HP. destruct n; [|by injection H as <-].
  closed_run. eauto using write_closed.
Qed.

Hint Resolve write_closed write_if_closed update_height_closed : closed.

Lemma rotate_right_closed s y r s' :
  rotate_right s y = Ok (r, s') → P s → P s'.
Proof. unfold rotate_right. intros H HP. closed_run. eauto 12 with closed. Qed.

Lemma rotate_left_closed s y r s' :
  rotate_left s y = Ok (r, s') → P s → P s'.
Proof. unfold rotate_left. intros H HP. closed_run. eauto 12 with closed. Qed.

Hint Resolve rotate_right_closed rotate_left_closed : closed.

Lemma set_child_closed root s p o n r s' :
  set_child root s p o n = Ok (r, s') → P s → P s'.
Proof. unfold set_child. intros H HP. closed_run; eauto 6 with closed. Qed.

Lemma rebalance_at_closed s n r s' :
  rebalance_at s n = Ok (r, s') → P s → P s'.
Proof. unfold rebalance_at. intros H HP. closed_run; eauto 8 with closed. Qed.

Hint Resolve set_child_closed rebalance_at_closed : closed.

Lemma rebalance_up_closed fuel root s p r s' :
  rebalance_up fuel root s p = Ok (r, s') → P s → P s'.
Proof.
  revert root s p. induction fuel as [|fuel IH]; intros root s p H HP.
  { destruct p; [done|]. by injection H as <- <-. }
  destruct p as [a|]; [|by injection H as <- <-].
  cbn [rebalance_up] in H. closed_run. eauto 8 with closed.
Qed.

Lemma clear_root_parent_closed root s s' :
  clear_root_parent root s = Ok s' → P s → P s'.
Proof. unfold clear_root_parent. intros H HP. closed_run; eauto with closed. Qed.

Hint Resolve rebalance_up_closed clear_root_parent_closed : closed.

Lemma map_insert_closed node_new cmp fuel (m : tree_state S) k v rc m' :
  (∀ s r s', node_new s k v = Ok (r, s') → P s → P s') →
  map_insert node_new cmp fuel m k v = Ok (rc, m') →
  P (ts_mem m) → P (ts_mem m').
Proof.
  intros Hnew. unfold map_insert. intros H HP.
  closed_run; cbn [ts_mem]; eauto 10 with closed.
Qed.

End closed.

Ltac bind_step :=
  match goal with
  | H : Ok _ = Ok _ |- _ => injection H as ?; subst
  | H : Undefined = Ok _ |- _ => discriminate H
  | H : OutOfFuel = Ok _ |- _ => discriminate H
  | H : mbind _ ?e = Ok _ |- _ =>
      let E := fresh "E" in
      destruct e eqn:E; cbn [mbind result_bind] in H
  | H : (let '(_, _) := ?p in _) = Ok _ |- _ => destruct p
  | H : (if ?b then _ else _) = Ok _ |- _ => destruct b
  | H : match ?p with Some _ => _ | None => _ end = Ok _ |- _ => destruct p
  end.

(** ** What the removal keeps of the memory *)
Section closed_erase.
Context {K V S : Type} `{!NodeStore K V S}.
Variable P : S → Prop.
Hypothesis store_closed : ∀ s a n, is_Some (load s a) → P s → P (store s a n).
Variable release : tree_state S → ptr → result (tree_state S).
Hypothesis release_closed :
  ∀ ts n ts', release ts n = Ok ts' → P (ts_mem ts) → P (ts_mem ts').

Lemma erase_node_closed fuel (ts : tree_state S) n p ts' :
  erase_node release fuel ts n = Ok (p, ts') → P (ts_mem ts) → P (ts_mem ts').
Proof.
  pose proof (write_closed P store_closed) as Hw.
  pose proof (write_if_closed P store_closed) as Hwi.
  revert ts n. induction fuel as [|fuel IH]; intros ts n H HP.
  { destruct n; [done|]. by injection H as _ <-. }
  destruct n as [a|]; [|by injection H as _ <-].
  cbn [erase_node] in H. cbv zeta in H.
  destruct (deref (ts_mem ts) (Some a)) as [nd| |] eqn:Hnd; [|done..].
  cbn [mbind result_bind] in H.
  destruct (left nd) as [ln|], (right nd) as [rn|].
  1: { repeat match type of H with
       | mbind _ ?e = Ok _ =>
           let E := fresh "E" in
           destruct e eqn:E; cbn [mbind result_bind] in H; [|done..]
       end.
       apply IH in H; [done|]. cbn [ts_mem].
       eauto 10. }
  all: repeat bind_step.
  all: match goal with
       | H : release _ _ = Ok _ |- _ => apply release_closed in H; [done|]
       end.
  all: cbn [ts_mem]; eauto 10.
Qed.

Lemma map_erase_closed cmp fuel (ts : tree_state S) k rc ts' :
  map_erase release cmp fuel ts k = Ok (rc, ts') →
  P (ts_mem ts) → P (ts_mem ts').
Proof.
  unfold map_erase. intros H HP.
  destruct (find_node cmp fuel ts k) as [n| |]; [|done..].
  cbn [mbind result_bind] in H. destruct n as [a|]; [|by injection H as _ <-].
  destruct (erase_node release fuel ts (Some a)) as [[p ts1]| |] eqn:Hers; [|done..].
  cbn [mbind result_bind] in H.
  destruct (rebalance_up _ _ _ _) as [[root s2]| |] eqn:Hup; [|done..].
  cbn [mbind result_bind] in H.
  destruct (clear_root_parent _ _) as [s3| |] eqn:Hclr; [|done..].
  cbn [mbind result_bind] in H. injection H as _ <-. cbn [ts_mem].
  apply (clear_root_parent_closed P store_closed _ _ _ Hclr).
  apply (rebalance_up_closed P store_closed _ _ _ _ _ _ Hup).
  by apply (erase_node_closed _ _ _ _ _ Hers).
Qed.

End closed_erase.

(** ** Overwriting a value, over any node memory *)
Section set_value.
Context {K V S : Type} `{!NodeStore K V S}.
Implicit Types (s : S) (t l r : tree K V) (c : list (frame K V)).

Lemma store_value_rep s c a l k0 v0 h r v1 :
  rep s None (plug c (T a l k0 v0 h r)) →
  rep (store s a (MapNode k0 v1 (root_ptr l) (root_ptr r) (ctx_parent c) h))
      None (plug c (T a l k0 v1 h r)).
Proof.
  intros Hrep. apply rep_plug in Hrep as ((Hdt & Hdc & Hdtc) & Hcc & Hct).
  pose proof Hct as (Hlv & Hld & Hcl & Hcr).
  assert (is_Some (load s a)) as Hsome by (by rewrite Hld).
  apply rep_plug. split_and!.
  - exact Hdt.
  - done.
  - eapply disj_ctx_addrs_eq; [|exact Hdtc]. by rewrite !addrs_T.
  - eapply ctx_ok_agree; [|exact Hcc]. intros b Hb.
    assert (b ≠ a) as Hne.
    { intros ->. apply Hb. eapply notin_ctx_disj; [exact Hdtc|]. simpl. tauto. }
    rewrite load_store by done. rewrite decide_False by done.
    split; [done|]. by rewrite live_store.
  - destruct Hdt as (Hal & Har & _).
    split_and!; simpl.
    + by rewrite live_store.
    + rewrite load_store by done. by rewrite decide_True.
    + eapply cells_ok_agree; [|exact Hcl]. intros b Hb.
      assert (b ≠ a) as Hne by (by intros ->).
      rewrite load_store by done. rewrite decide_False by done.
      split; [done|]. by rewrite live_store.
    + eapply cells_ok_agree; [|exact Hcr]. intros b Hb.
      assert (b ≠ a) as Hne by (by intros ->).
      rewrite load_store by done. rewrite decide_False by done.
      split; [done|]. by rewrite live_store.
Qed.

End set_value.

(** ** The [malloc]-backed map against the pure tree *)
Import DynMap DynSpec.

Section strip.
Context {K V : Type}.
Implicit Types (t l r : tree K V) (f : frame K V) (c : list (frame K V)).

Lemma strip_root_ptr t : root_ptr (strip t) = root_ptr t.
Proof. by destruct t. Qed.

Lemma strip_ht t : ht (strip t) = ht t.
Proof. by destruct t. Qed.

Lemma strip_avl t : avl (strip t) ↔ avl t.
Proof.
  induction t as [|a l IHl k v h r IHr]; [done|].
  simpl. by rewrite !strip_ht, IHl, IHr.
Qed.

Lemma strip_keys t : keys (strip t) = keys t.
Proof.
  induction t as [|a l IHl k v h r IHr]; [done|].
  simpl. rewrite !keys_T. by rewrite IHl, IHr.
Qed.

Lemma strip_addrs t : addrs (strip t) = addrs t.
Proof.
  induction t as [|a l IHl k v h r IHr]; [done|].
  simpl. rewrite !addrs_T. by rewrite IHl, IHr.
Qed.

Lemma strip_count t : count (strip t) = count t.
Proof.
  induction t as [|a l IHl k v h r IHr]; [done|].
  simpl. by rewrite IHl, IHr.
Qed.

Lemma strip_plug c t t' :
  strip t = strip t' → strip (plug c t) = strip (plug c t').
Proof.
  revert t t'. induction c as [|f c IH]; intros t t' Heq; [done|].
  simpl. apply IH. unfold fill. destruct (f_dir f); simpl; by rewrite Heq.
Qed.

End strip.

Section dyn.
Context {K V : Type} `{!EqDecision K, !EqDecision V}
        `{!Nullable K, !Nullable V}.
Implicit Types (m : map_t K V) (t l r : tree K V) (c : list (frame K V)).

Lemma with_state_of m : with_state m (state_of m) = m.
Proof. by destruct m. Qed.

Lemma same_config_refl m : same_config m m.
Proof. done. Qed.

Lemma same_config_with_state m ts : same_config m (with_state m ts).
Proof. done. Qed.

Lemma same_config_trans m1 m2 m3 :
  same_config m1 m2 → same_config m2 m3 → same_config m1 m3.
Proof.
  unfold same_config. intros (-> & -> & -> & -> & ->) (-> & -> & -> & -> & ->).
  done.
Qed.

Lemma node_new_alloc m (w : world K V) k v :
  ∃ n w', node_new m true w k v = Ok (Some n, w') ∧
    alloc_post w w' n
      (MapNode (dup_or_raw (key_dup m) k) (dup_or_raw (val_dup m) v)
               None None None 1) ∧
    trace w' = trace w.
Proof.
  eexists _, _. split; [reflexivity|]. split; [|done].
  pose proof (is_fresh (dom (heap w))) as Hfresh.
  rewrite elem_of_dom in Hfresh.
  split_and!; simpl.
  - done.
  - by rewrite lookup_insert_eq.
  - by rewrite lookup_insert_eq.
  - intros b Hb. by rewrite lookup_insert_ne.
Qed.

Lemma release_dyn_ok m :
  release_ok (release m) (λ z, (z - 1) mod size_t_max).
Proof.
  intros rt sz s n [nd Hnd]. unfold release, node_free. cbn [ts_mem ts_root ts_size].
  rewrite (deref_load _ _ _ Hnd). cbn [mbind result_bind].
  eexists. split; [reflexivity|].
  split; simpl.
  - rewrite lookup_delete_eq. by intros [? ?].
  - intros b Hb. by rewrite lookup_delete_ne.
Qed.

Lemma locate_present cmp' `{!CmpOrder cmp'} k t k' v' :
  bst cmp' t → (k', v') ∈ entries t → cmp' k k' = 0 →
  ∃ c a l k0 h r, locate cmp' k t [] = (c, T a l k0 v' h r) ∧ cmp' k k0 = 0.
Proof.
  intros Hbst Hin Hk.
  destruct (locate_complete cmp' k t [] k' v' Hbst Hin Hk)
    as (a & l & k0 & h & r & Hloc).
  destruct (locate cmp' k t []) as [c t'] eqn:Heq. simpl in Hloc. subst t'.
  exists c, a, l, k0, h, r. split; [done|].
  destruct (locate_found cmp' k t [] _ _ Heq) as (? & ? & ? & ? & ? & ? & Ht & Hc);
    [done|].
  by injection Ht as <- <- <- <- <- <-.
Qed.

Lemma locate_absent cmp' `{!CmpOrder cmp'} k t :
  absent cmp' k t → ∃ c, locate cmp' k t [] = (c, E).
Proof.
  intros Habs. destruct (locate cmp' k t []) as [c t'] eqn:Heq.
  destruct t' as [|a l k' v h r]; [by exists c|].
  destruct (locate_in cmp' k t [] _ _ _ _ _ _ _ Heq) as [Hin Hk].
  by destruct (Habs _ _ Hin).
Qed.

Lemma locate_cell m t k c a l k0 v0 h r :
  map_ok m t → locate (cmp m) k t [] = (c, T a l k0 v0 h r) →
  t = plug c (T a l k0 v0 h r) ∧
  load (mem m) a
  = Some (MapNode k0 v0 (root_ptr l) (root_ptr r) (ctx_parent c) h).
Proof.
  intros Hok Hloc.
  pose proof (locate_plug (cmp m) k t []) as Hplug.
  rewrite Hloc in Hplug. simpl in Hplug. split; [done|].
  pose proof (ok_rep _ _ Hok) as Hrep. rewrite <- Hplug in Hrep.
  apply rep_plug in Hrep as (_ & _ & Hc). by destruct Hc as (_ & Hld & _).
Qed.

Lemma dyn_find_node fuel m t k :
  map_ok m t → (depth t ≤ fuel)%nat →
  find_node fuel (Some m) k = Ok (root_ptr (locate (cmp m) k t []).2).
Proof.
  intros Hok Hfuel. unfold find_node, AvlCore.find_node, state_of.
  cbn [ts_mem ts_root]. rewrite (ok_root _ _ Hok).
  apply find_from_rep with (par := None); [|done].
  by destruct (ok_rep _ _ Hok).
Qed.

(** [map_find] returns the value the pure lookup finds, and [NULL] when
    there is none. *)
Lemma dyn_find fuel m t k :
  map_ok m t → (depth t ≤ fuel)%nat →
  map_find fuel (Some m) k = Ok (default null (find_val (cmp m) k t)).
Proof.
  intros Hok Hfuel. unfold map_find. rewrite (dyn_find_node fuel m t) by done.
  cbn [mbind result_bind]. unfold find_val.
  destruct (locate (cmp m) k t []) as [c t'] eqn:Hloc.
  destruct t' as [|a l k0 v0 h r]; [done|].
  destruct (locate_cell _ _ _ _ _ _ _ _ _ _ Hok Hloc) as [_ Hld].
  cbn [snd root_ptr]. by rewrite (deref_load (mem m) a _ Hld).
Qed.

(** [map_insert] of a key that is present. *)
Lemma dyn_insert_found fuel malloc_ok m `{!CmpOrder (cmp m)} t k v k' v' :
  map_ok m t → (depth t ≤ fuel)%nat →
  (k', v') ∈ entries t → cmp m k k' = 0 →
  map_insert fuel malloc_ok (Some m) k v = Ok (0, Some m).
Proof.
  intros Hok Hfuel Hin Hk.
  destruct (locate_present (cmp m) k t k' v' (ok_bst _ _ Hok) Hin Hk)
    as (c & a & l & k0 & h & r & Hloc & _).
  unfold map_insert.
  rewrite (map_insert_found (cmp m) _ fuel (state_of m) k v t c a l k0 v' h r);
    [|apply Hok|by destruct (ok_rep _ _ Hok)|done|done].
  cbn [mbind result_bind]. by rewrite with_state_of.
Qed.

(** [map_insert] of an absent key when [malloc] fails. *)
Lemma dyn_insert_failed fuel m `{!CmpOrder (cmp m)} t k v :
  map_ok m t → (depth t ≤ fuel)%nat → absent (cmp m) k t →
  map_insert fuel false (Some m) k v = Ok (-1, Some m).
Proof.
  intros Hok Hfuel Habs. destruct (locate_absent _ _ _ Habs) as [c Hloc].
  unfold map_insert.
  rewrite (map_insert_failed (cmp m) _ fuel (state_of m) k v t c (mem m));
    [|apply Hok|by destruct (ok_rep _ _ Hok)|done|done|done].
  cbn [mbind result_bind]. by rewrite with_state_of.
Qed.

(** [map_insert] of an absent key when [malloc] succeeds. *)
Lemma dyn_insert_new fuel m `{!CmpOrder (cmp m)} t k v :
  map_ok m t → (depth t ≤ fuel)%nat → absent (cmp m) k t → dup_ok m →
  ∃ m' t' xs ys,
    map_insert fuel true (Some m) k v = Ok (1, Some m') ∧
    map_ok m' t' ∧ same_config m m' ∧
    size m' = match t with E => 1 | _ => (size m + 1) mod size_t_max end ∧
    entries t = xs ++ ys ∧
    entries t'
    = xs ++ (dup_or_raw (key_dup m) k, dup_or_raw (val_dup m) v) :: ys.
Proof.
  intros Hok Hfuel Habs Hdup. destruct (locate_absent _ _ _ Habs) as [c Hloc].
  destruct (node_new_alloc m (mem m) k v) as (n & w' & Hnew & Halloc & _).
  destruct (map_insert_new (cmp m) (node_new m true) fuel (state_of m) k v t c n w'
              _ _ (ok_root _ _ Hok) (ok_rep _ _ Hok)
              (avl_hts_ok _ (ok_avl _ _ Hok)) Hfuel Hloc Hnew Halloc)
    as (s' & Hins & Hrep & _).
  pose proof (locate_plug (cmp m) k t []) as Hplug.
  rewrite Hloc in Hplug. simpl in Hplug.
  eexists _, _, (before c).*2, (after c).*2.
  unfold map_insert. rewrite Hins. cbn [mbind result_bind].
  split; [reflexivity|]. split_and!.
  - split; simpl; [done|done| |].
    + apply insert_at_avl. rewrite Hplug. apply Hok.
    + eapply insert_at_bst; [done|apply Hok|exact Hloc|apply Hdup].
  - done.
  - done.
  - by rewrite <- Hplug, entries_plug.
  - apply insert_at_entries.
Qed.

End dyn.

Section dyn_put.
Context {K V : Type} `{!EqDecision K, !EqDecision V}
        `{!Nullable K, !Nullable V}.
Implicit Types (m : map_t K V) (t l r : tree K V) (c : list (frame K V)).

Lemma avl_plug_strip c t t' :
  strip t = strip t' → avl (plug c t) → avl (plug c t').
Proof.
  intros Heq. rewrite <- (strip_avl (plug c t)), <- (strip_avl (plug c t')).
  by rewrite (strip_plug c t t').
Qed.

Lemma keys_plug_strip c t t' :
  strip t = strip t' → keys (plug c t') = keys (plug c t).
Proof.
  intros Heq.
  by rewrite <- (strip_keys (plug c t)), <- (strip_keys (plug c t')),
    (strip_plug c t t').
Qed.

(** Overwriting the value of one node. *)
Lemma set_value_rep (w : world K V) tr c a l k0 v0 h r v1 :
  rep w None (plug c (T a l k0 v0 h r)) →
  rep (World (<[a:=MapNode k0 v1 (root_ptr l) (root_ptr r) (ctx_parent c) h]>
                (heap w)) tr)
      None (plug c (T a l k0 v1 h r)).
Proof.
  intros Hrep. apply rep_plug in Hrep as ((Hdt & Hdc & Hdtc) & Hcc & Hct).
  apply rep_plug. split_and!.
  - exact Hdt.
  - done.
  - eapply disj_ctx_addrs_eq; [|exact Hdtc]. by rewrite !addrs_T.
  - eapply ctx_ok_agree; [|exact Hcc]. intros b Hb.
    assert (b ≠ a) as Hne.
    { intros ->. apply Hb. eapply notin_ctx_disj; [exact Hdtc|]. simpl. tauto. }
    simpl. rewrite lookup_insert_ne by done. done.
  - destruct Hct as (Hlv & Hld & Hcl & Hcr).
    destruct Hdt as (Hal & Har & _).
    split_and!; simpl.
    + by rewrite lookup_insert_eq.
    + by rewrite lookup_insert_eq.
    + eapply cells_ok_agree; [|exact Hcl]. intros b Hb.
      assert (b ≠ a) as Hne by (by intros ->).
      simpl. by rewrite lookup_insert_ne.
    + eapply cells_ok_agree; [|exact Hcr]. intros b Hb.
      assert (b ≠ a) as Hne by (by intros ->).
      simpl. by rewrite lookup_insert_ne.
Qed.

(** [map_put] of a key that is present. *)
Lemma dyn_put_existing fuel malloc_ok m `{!CmpOrder (cmp m)} t k v k' v' :
  map_ok m t → (depth t ≤ fuel)%nat →
  (k', v') ∈ entries t → cmp m k k' = 0 →
  ∃ m' t' a nd xs k0 ys,
    map_put fuel malloc_ok (Some m) k v = Ok (2, Some m') ∧
    map_ok m' t' ∧ same_config m m' ∧
    size m' = size m ∧ root m' = root m ∧ strip t' = strip t ∧
    entries t = xs ++ (k0, v') :: ys ∧
    entries t' = xs ++ (k0, dup_or_raw (val_dup m) v) :: ys ∧
    cmp m k k0 = 0 ∧
    heap (mem m) !! a = Some nd ∧
    heap (mem m') = <[a:=set_value (dup_or_raw (val_dup m) v) nd]> (heap (mem m)) ∧
    trace (mem m')
    = trace (mem m) ++ (if val_free m then [ValFree v'] else []).
Proof.
  intros Hok Hfuel Hin Hk.
  destruct (locate_present (cmp m) k t k' v' (ok_bst _ _ Hok) Hin Hk)
    as (c & a & l & k0 & h & r & Hloc & Hk0).
  destruct (locate_cell _ _ _ _ _ _ _ _ _ _ Hok Hloc) as [Hplug Hld].
  set (v1 := dup_or_raw (val_dup m) v).
  exists (with_state m
            (TreeState (root m) (size m)
               (World (<[a:=MapNode k0 v1 (root_ptr l) (root_ptr r) (ctx_parent c) h]>
                         (heap (mem m)))
                      (if val_free m then trace (mem m) ++ [ValFree v']
                       else trace (mem m))))),
    (plug c (T a l k0 v1 h r)), a,
    (MapNode k0 v' (root_ptr l) (root_ptr r) (ctx_parent c) h),
    ((before c).*2 ++ entries l), k0, (entries r ++ (after c).*2).
  split_and!.
  - unfold map_put. rewrite (dyn_find_node fuel m t) by done.
    rewrite Hloc. cbn [mbind result_bind snd root_ptr].
    rewrite (deref_load (mem m) a _ Hld). cbn [mbind result_bind value].
    unfold write. cbn [load world_node_store heap].
    change (heap (mem m) !! a) with (load (mem m) a). rewrite Hld.
    cbn [mbind result_bind]. unfold store, world_node_store, world_store.
    cbn [heap trace set_value key left right parent height].
    by destruct (val_free m).
  - split; cbn [root mem cmp with_state ts_root ts_mem].
    + rewrite (ok_root _ _ Hok), Hplug. by rewrite !root_ptr_plug.
    + apply (set_value_rep _ _ _ _ _ _ v'). rewrite <- Hplug. apply Hok.
    + eapply avl_plug_strip; [|rewrite <- Hplug; apply Hok]. done.
    + unfold bst. rewrite (keys_plug_strip c (T a l k0 v' h r)) by done.
      rewrite <- Hplug. apply Hok.
  - done.
  - done.
  - done.
  - rewrite Hplug. by apply strip_plug.
  - rewrite Hplug, entries_plug, entries_T. by list_norm.
  - rewrite entries_plug, entries_T. by list_norm.
  - done.
  - exact Hld.
  - done.
  - cbn [mem with_state ts_mem trace]. destruct (val_free m); [done|].
    by rewrite app_nil_r.
Qed.

(** [map_put] of an absent key is [map_insert]. *)
Lemma dyn_put_absent fuel malloc_ok m `{!CmpOrder (cmp m)} t k v :
  map_ok m t → (depth t ≤ fuel)%nat → absent (cmp m) k t →
  map_put fuel malloc_ok (Some m) k v = map_insert fuel malloc_ok (Some m) k v.
Proof.
  intros Hok Hfuel Habs. destruct (locate_absent _ _ _ Habs) as [c Hloc].
  unfold map_put. rewrite (dyn_find_node fuel m t) by done.
  by rewrite Hloc.
Qed.

End dyn_put.

Section dyn_erase.
Context {K V : Type} `{!EqDecision K, !EqDecision V}
        `{!Nullable K, !Nullable V}.
Implicit Types (m : map_t K V) (t l r : tree K V) (c : list (frame K V)).

Lemma count_entries t : count t = length (entries t).
Proof. rewrite count_inorder. unfold entries. by rewrite length_fmap. Qed.

(** [map_erase] of a key that is absent. *)
Lemma dyn_erase_missing fuel m `{!CmpOrder (cmp m)} t k :
  map_ok m t → (depth t ≤ fuel)%nat → absent (cmp m) k t →
  map_erase fuel (Some m) k = Ok (0, Some m).
Proof.
  intros Hok Hfuel Habs. destruct (locate_absent _ _ _ Habs) as [c Hloc].
  unfold map_erase.
  rewrite (map_erase_missing (cmp m) _ fuel (state_of m) k t c);
    [|apply Hok|by destruct (ok_rep _ _ Hok)|done|done].
  cbn [mbind result_bind]. by rewrite with_state_of.
Qed.

(** [map_erase] of a key that is present. *)
Lemma dyn_erase_found fuel m `{!CmpOrder (cmp m)} t k k' v' :
  map_ok m t → (depth t ≤ fuel)%nat →
  (k', v') ∈ entries t → cmp m k k' = 0 →
  ∃ m' c n l k0 h r a,
    locate (cmp m) k t [] = (c, T n l k0 v' h r) ∧
    map_erase fuel (Some m) k = Ok (1, Some m') ∧
    map_ok m' (erase_at c (T n l k0 v' h r)) ∧ same_config m m' ∧
    size m' = (size m - 1) mod size_t_max ∧
    (erase_pos c (T n l k0 v' h r)).2 = Some a ∧
    live_except (mem m) (mem m') a.
Proof.
  intros Hok Hfuel Hin Hk.
  destruct (locate_present (cmp m) k t k' v' (ok_bst _ _ Hok) Hin Hk)
    as (c & n & l & k0 & h & r & Hloc & Hk0).
  destruct (locate_cell _ _ _ _ _ _ _ _ _ _ Hok Hloc) as [Hplug _].
  destruct (map_erase_found (cmp m) (release m) _ fuel (state_of m) k t c n l k0 v' h r
              (release_dyn_ok m) (ok_root _ _ Hok) (ok_rep _ _ Hok)
              (avl_hts_ok _ (ok_avl _ _ Hok)) Hfuel Hloc)
    as (s' & a & Hers & Hrep & Hpos & Hlive).
  eexists _, c, n, l, k0, h, r, a.
  unfold map_erase. rewrite Hers. cbn [mbind result_bind].
  split; [done|]. split; [reflexivity|]. split_and!; try done.
  split; simpl.
  - done.
  - done.
  - apply erase_at_avl. rewrite <- Hplug. apply Hok.
  - apply erase_at_bst; try done. rewrite <- Hplug. apply Hok.
Qed.

Lemma dyn_erase_entries m t k c n l k0 v0 h r :
  map_ok m t → locate (cmp m) k t [] = (c, T n l k0 v0 h r) →
  entries t = ((before c).*2 ++ entries l) ++ (k0, v0) :: (entries r ++ (after c).*2) ∧
  entries (erase_at c (T n l k0 v0 h r))
  = ((before c).*2 ++ entries l) ++ (entries r ++ (after c).*2).
Proof.
  intros Hok Hloc.
  destruct (locate_cell _ _ _ _ _ _ _ _ _ _ Hok Hloc) as [Hplug _].
  split.
  - rewrite Hplug, entries_plug, entries_T. by list_norm.
  - rewrite erase_at_entries. by list_norm.
Qed.

(** The presence of a key is decided by the descent. *)
Lemma present_or_absent cmp' `{!CmpOrder cmp'} k t :
  bst cmp' t →
  (∃ k' v', (k', v') ∈ entries t ∧ cmp' k k' = 0) ∨ absent cmp' k t.
Proof.
  intros Hbst. destruct (locate cmp' k t []) as [c t'] eqn:Hloc.
  destruct t' as [|a l k' v h r].
  - right. exact (locate_hole_absent cmp' k t [] c Hloc Hbst).
  - left. exists k', v. by eapply locate_in.
Qed.

End dyn_erase.

Section dyn_seq.
Context {K V : Type} `{!EqDecision K, !EqDecision V}
        `{!Nullable K, !Nullable V}.
Implicit Types (m : map_t K V) (t l r : tree K V) (c : list (frame K V)).

Lemma map_create_ok cmp' kd kf vd vf :
  ∃ m0 : map_t K V,
    map_create true (Some cmp') kd kf vd vf = Some m0 ∧
    map_ok m0 E ∧ size m0 = 0 ∧ cmp m0 = cmp' ∧ key_dup m0 = kd ∧
    key_free m0 = kf ∧ val_dup m0 = vd ∧ val_free m0 = vf ∧
    mem m0 = World ∅ [].
Proof. eexists. split; [reflexivity|]. by split_and!. Qed.

Lemma same_config_order m m' `{!CmpOrder (cmp m)} :
  same_config m m' → CmpOrder (cmp m').
Proof. by intros [-> _]. Qed.

Lemma same_config_dup_ok m m' : same_config m m' → dup_ok m → dup_ok m'.
Proof. intros (Hc & Hd & _) Hdup k. rewrite Hc, Hd. apply Hdup. Qed.

(** One call preserves the invariant and adds at most one node; the
    size field follows the number of nodes as long as it fits [size_t]. *)
Lemma apply_op_ok fuel m `{!CmpOrder (cmp m)} t o :
  dup_ok m → map_ok m t → (depth t ≤ fuel)%nat →
  ∃ rc m' t',
    apply_op fuel (Some m) o = Ok (rc, Some m') ∧
    map_ok m' t' ∧ same_config m m' ∧ (count t' ≤ Datatypes.S (count t))%nat ∧
    (sized m t → Z.of_nat (count t) + 1 < size_t_max → sized m' t').
Proof.
  intros Hdup Hok Hfuel.
  assert (∀ b k v, ∃ rc m' t',
    map_insert fuel b (Some m) k v = Ok (rc, Some m') ∧
    map_ok m' t' ∧ same_config m m' ∧ (count t' ≤ Datatypes.S (count t))%nat ∧
    (sized m t → Z.of_nat (count t) + 1 < size_t_max → sized m' t'))
    as Hins.
  { intros b k v.
    destruct (present_or_absent (cmp m) k t (ok_bst _ _ Hok))
      as [(k' & v' & Hin & Hk)|Habs].
    - exists 0, m, t. rewrite (dyn_insert_found fuel b m t k v k' v') by done.
      split_and!; [done|done|done|lia|done].
    - destruct b.
      + destruct (dyn_insert_new fuel m t k v Hok Hfuel Habs Hdup)
          as (m' & t' & xs & ys & Hrun & Hok' & Hcfg & Hsz & Ht & Ht').
        assert (count t' = Datatypes.S (count t)) as Hcnt.
        { rewrite !count_entries, Ht, Ht', !length_app. simpl. lia. }
        exists 1, m', t'. split_and!; [done|done|done|lia|].
        intros [Hs Hb] Hb'. split; [|lia]. rewrite Hsz, Hcnt.
        destruct t as [|a l k0 v0 h r]; [done|].
        rewrite Hs, Z.mod_small; lia.
      + exists (-1), m, t. rewrite (dyn_insert_failed fuel m t k v) by done.
        split_and!; [done|done|done|lia|done]. }
  destruct o as [b k v|b k v|k]; cbn [apply_op].
  - apply Hins.
  - destruct (present_or_absent (cmp m) k t (ok_bst _ _ Hok))
      as [(k' & v' & Hin & Hk)|Habs].
    + destruct (dyn_put_existing fuel b m t k v k' v' Hok Hfuel Hin Hk)
        as (m' & t' & a & nd & xs & k0 & ys & Hrun & Hok' & Hcfg & Hsz & _ & Hs & _).
      assert (count t' = count t) as Hcnt.
      { by rewrite <- (strip_count t'), Hs, strip_count. }
      exists 2, m', t'. split_and!; [done|done|done|lia|].
      unfold sized. rewrite Hsz, Hcnt. tauto.
    + rewrite (dyn_put_absent fuel b m t k v) by done. apply Hins.
  - destruct (present_or_absent (cmp m) k t (ok_bst _ _ Hok))
      as [(k' & v' & Hin & Hk)|Habs].
    + destruct (dyn_erase_found fuel m t k k' v' Hok Hfuel Hin Hk)
        as (m' & c & n & l & k0 & h & r & a & Hloc & Hrun & Hok' & Hcfg & Hsz & _).
      destruct (dyn_erase_entries m t k c n l k0 v' h r Hok Hloc) as [Ht Ht'].
      assert (Datatypes.S (count (erase_at c (T n l k0 v' h r))) = count t) as Hcnt.
      { rewrite !count_entries, Ht, Ht', !length_app. simpl. rewrite !length_app. lia. }
      exists 1, m', (erase_at c (T n l k0 v' h r)). split_and!; [done|done|done|lia|].
      intros [Hs Hb] Hb'. split; [|lia]. rewrite Hsz, Hs.
      rewrite Z.mod_small; lia.
    + exists 0, m, t. rewrite (dyn_erase_missing fuel m t k) by done.
      split_and!; [done|done|done|lia|done].
Qed.

(** Any sequence of calls preserves the invariant. *)
Lemma run_ok fuel m `{!CmpOrder (cmp m)} t ops :
  dup_ok m → map_ok m t → (count t + length ops ≤ fuel)%nat →
  ∃ m' t',
    run fuel (Some m) ops = Ok (Some m') ∧ map_ok m' t' ∧ same_config m m' ∧
    (count t' ≤ count t + length ops)%nat ∧
    (sized m t → Z.of_nat (count t + length ops) < size_t_max → sized m' t').
Proof.
  intros Hdup Hok. revert m CmpOrder0 t Hdup Hok.
  induction ops as [|o ops IH]; intros m Hord t Hdup Hok Hfuel.
  { exists m, t. split_and!; [done|done|done|lia|done]. }
  simpl in Hfuel. pose proof (depth_le_count t) as Hd.
  destruct (apply_op_ok fuel m t o Hdup Hok)
    as (rc & m1 & t1 & Hrun & Hok1 & Hcfg & Hcnt & Hsized); [lia|].
  destruct (IH m1 (same_config_order m m1 Hcfg) t1 (same_config_dup_ok _ _ Hcfg Hdup) Hok1)
    as (m' & t' & Hrun' & Hok' & Hcfg' & Hcnt' & Hsized'); [lia|].
  exists m', t'. cbn [run]. rewrite Hrun. cbn [mbind result_bind].
  split_and!; [done|done|by eapply same_config_trans|simpl; lia|].
  intros Hs Hb. simpl in Hb. apply Hsized'; [apply Hsized; [done|lia]|lia].
Qed.

(** A successful [map_insert] of an absent key, then [map_find]. *)
Lemma dyn_insert_find fuel m `{!CmpOrder (cmp m)} t k v :
  dup_ok m → map_ok m t → (count t < fuel)%nat → absent (cmp m) k t →
  ∃ m',
    map_insert fuel true (Some m) k v = Ok (1, Some m') ∧
    map_find fuel (Some m') k = Ok (dup_or_raw (val_dup m) v).
Proof.
  intros Hdup Hok Hfuel Habs. pose proof (depth_le_count t) as Hd.
  destruct (dyn_insert_new fuel m t k v Hok ltac:(lia) Habs Hdup)
    as (m' & t' & xs & ys & Hrun & Hok' & Hcfg & _ & Ht & Ht').
  exists m'. split; [done|].
  rewrite (dyn_find fuel m' t'); [|done|].
  - pose proof Hcfg as [Hc _].
    pose proof (same_config_order m m' Hcfg) as Hord'.
    rewrite (find_val_in (cmp m') k t' (dup_or_raw (key_dup m) k)
               (dup_or_raw (val_dup m) v) (ok_bst _ _ Hok')); [done| |].
    + rewrite Ht'. set_solver.
    + rewrite Hc. apply Hdup.
  - pose proof (depth_le_count t') as Hd'.
    rewrite !count_entries in *. rewrite Ht', length_app in Hd'.
    rewrite Ht, length_app in Hfuel. simpl in Hd'. lia.
Qed.

(** Inserting pairs with distinct, absent keys adds all of them. *)
Lemma insert_all_ok fuel m `{!CmpOrder (cmp m)} t kvs :
  dup_ok m → map_ok m t → (count t + length kvs ≤ fuel)%nat →
  Forall (λ k, absent (cmp m) k t) kvs.*1 → distinct_keys (cmp m) kvs.*1 →
  ∃ m' t',
    insert_all fuel (Some m) kvs = Ok (replicate (length kvs) 1, Some m') ∧
    map_ok m' t' ∧ same_config m m' ∧
    entries t' ≡ₚ
      entries t ++
      ((λ kv, (dup_or_raw (key_dup m) kv.1, dup_or_raw (val_dup m) kv.2)) <$> kvs).
Proof.
  intros Hdup Hok. revert m CmpOrder0 t Hdup Hok.
  induction kvs as [|[k v] kvs IH]; intros m Hord t Hdup Hok Hfuel Habs Hdis.
  { exists m, t. split_and!; [done|done|done|]. by rewrite app_nil_r. }
  simpl in Hfuel. pose proof (depth_le_count t) as Hd.
  rewrite fmap_cons in Habs, Hdis. cbn [fst distinct_keys] in Habs, Hdis.
  apply Forall_cons in Habs as [Hk Habs]. destruct Hdis as [Hkk Hdis].
  destruct (dyn_insert_new fuel m t k v Hok ltac:(lia) Hk Hdup)
    as (m1 & t1 & xs & ys & Hrun & Hok1 & Hcfg & _ & Ht & Ht1).
  pose proof Hcfg as (Hc & Hkd & _ & Hvd & _).
  destruct (IH m1 (same_config_order m m1 Hcfg) t1 (same_config_dup_ok _ _ Hcfg Hdup) Hok1)
    as (m' & t' & Hrun' & Hok' & Hcfg' & Hent).
  - rewrite !count_entries in *. rewrite Ht1, length_app. simpl.
    rewrite Ht, length_app in Hfuel. lia.
  - rewrite Hc. rewrite Forall_forall in Habs, Hkk. apply Forall_forall.
    intros k2 Hk2 k' v' Hin. rewrite Ht1 in Hin.
    apply elem_of_app in Hin as [Hin|Hin].
    { apply (Habs k2 Hk2 k' v'). rewrite Ht. set_solver. }
    apply elem_of_cons in Hin as [Heq|Hin].
    + injection Heq as -> ->. intros H0.
      apply (Hkk k2 Hk2).
      pose proof (cmp_equiv k (dup_or_raw (key_dup m) k) k2 (Hdup k)) as Hs.
      apply (cmp_eq_sym (cmp m)) in H0. rewrite H0 in Hs. simpl in Hs.
      by apply Z.sgn_null_iff.
    + apply (Habs k2 Hk2 k' v'). rewrite Ht. set_solver.
  - by rewrite Hc.
  - exists m', t'. cbn [insert_all]. rewrite Hrun. cbn [mbind result_bind].
    rewrite Hrun'. cbn [mbind result_bind].
    split_and!; [done|done|by eapply same_config_trans|].
    rewrite Hent, Ht1, Ht, Hkd, Hvd. simpl.
    rewrite <- !app_assoc. apply Permutation_app_head.
    by rewrite <- Permutation_middle.
Qed.

(** *** Iteration *)

Lemma dyn_read_key m t x :
  map_ok m t → x ∈ inorder t → map_iter_key m (Some x.1) = Ok x.2.1.
Proof.
  intros Hok Hin. destruct x as [a [k v]].
  destruct (ok_rep _ _ Hok) as [_ Hc].
  destruct (cells_ok_lookup _ _ _ _ _ _ Hc Hin) as (nd & Hld & Hk & _).
  unfold map_iter_key. cbn [fst]. rewrite (deref_load _ _ _ Hld).
  cbn [mbind result_bind]. by rewrite Hk.
Qed.

Lemma keys_fmap t : keys t = (λ x : nat * (K * V), x.2.1) <$> inorder t.
Proof. unfold keys, entries. by rewrite <- list_fmap_compose. Qed.

Lemma dyn_map_begin fuel m t :
  map_ok m t → (depth t ≤ fuel)%nat →
  map_begin fuel (Some m) = Ok (head (addrs t)).
Proof.
  intros Hok Hfuel. unfold map_begin. rewrite (ok_root _ _ Hok).
  apply subtree_min_rep; [|done]. by destruct (ok_rep _ _ Hok).
Qed.

Lemma dyn_keys_forward fuel n m t :
  map_ok m t → (depth t ≤ fuel)%nat → (count t ≤ n)%nat →
  keys_forward fuel n m = Ok (keys t).
Proof.
  intros Hok Hfuel Hn. unfold keys_forward.
  rewrite (dyn_map_begin fuel m t) by done. cbn [mbind result_bind].
  change (map_next fuel m) with (AvlCore.map_next fuel (mem m)).
  rewrite keys_fmap.
  apply (visit_next_rep _ _ fuel n (mem m) t []); try done.
  - apply Hok.
  - intros x Hx. by apply (dyn_read_key m t).
  - by rewrite <- count_inorder.
Qed.

Lemma dyn_iters_forward fuel n m t :
  map_ok m t → (depth t ≤ fuel)%nat → (count t ≤ n)%nat →
  iters_forward fuel n m = Ok (Some <$> addrs t).
Proof.
  intros Hok Hfuel Hn. unfold iters_forward.
  rewrite (dyn_map_begin fuel m t) by done. cbn [mbind result_bind].
  change (map_next fuel m) with (AvlCore.map_next fuel (mem m)).
  unfold addrs at 2. rewrite <- list_fmap_compose.
  apply (visit_next_rep _ _ fuel n (mem m) t []); try done.
  - apply Hok.
  - by rewrite <- count_inorder.
Qed.

Lemma dyn_keys_backward fuel n m t :
  map_ok m t → (depth t ≤ fuel)%nat → (count t ≤ n)%nat →
  keys_backward fuel n m (last (addrs t)) = Ok (reverse (keys t)).
Proof.
  intros Hok Hfuel Hn. unfold keys_backward.
  change (map_prev fuel m) with (AvlCore.map_prev fuel (mem m)).
  rewrite keys_fmap.
  apply (visit_prev_rep _ _ fuel n (mem m) t (inorder t) []); try done.
  - apply Hok.
  - intros x Hx. by apply (dyn_read_key m t).
  - by rewrite app_nil_r.
  - by rewrite <- count_inorder.
Qed.

Lemma last_fmap_Some (l : list nat) : default None (last (Some <$> l)) = last l.
Proof. rewrite fmap_last. by destruct (last l). Qed.

End dyn_seq.

(** ** The pool-backed map against the pure tree *)
Module PoolFacts.
Import PoolMap PoolSpec.

#[export] Instance u32_order_CmpOrder : CmpOrder u32_order.
Proof.
  split; unfold u32_order.
  - intros a b. repeat case_match; lia.
  - intros a b c. repeat case_match; lia.
  - intros a b c. repeat case_match; lia.
Qed.

Lemma u32_order_eq a b : u32_order a b = 0 ↔ a = b.
Proof. unfold u32_order. repeat case_match; lia. Qed.

Lemma MAX_NODES_val : MAX_NODES = 256%nat.
Proof. reflexivity. Qed.

Section pool.
Context {V : Type} `{!Nullable V}.
Local Opaque MAX_NODES.
Implicit Types (m : u32map_t V) (t l r : tree Z V) (p : list (node_t V)).

Lemma of_state_of m : of_state (state_of m) = m.
Proof. by destruct m. Qed.

Lemma pool_init_slots p n :
  (n ≤ length p)%nat →
  length (foldl (λ p i, <[i:=blank]> p) p (seq 0 n)) = length p ∧
  ∀ j, (j < n)%nat →
    foldl (λ p i, <[i:=blank]> p) p (seq 0 n) !! j = Some blank.
Proof.
  induction n as [|n IH]; intros Hn.
  { split; [done|]. intros j Hj. lia. }
  destruct IH as [Hlen Hslots]; [lia|].
  rewrite seq_S, foldl_app. simpl. split.
  - by rewrite length_insert.
  - intros j Hj. destruct (decide (j = n)) as [->|Hne].
    + apply list_lookup_insert_eq. lia.
    + rewrite list_lookup_insert_ne by done. apply Hslots. lia.
Qed.

Lemma map_init_ok m :
  length (pool m) = MAX_NODES → pool_ok (map_init m) E.
Proof.
  intros Hlen. destruct (pool_init_slots (pool m) MAX_NODES) as [Hl Hs]; [lia|].
  unfold map_init, pool_init.
  set (q := foldl (λ p i, <[i:=blank]> p) (pool m) (seq 0 MAX_NODES)) in *.
  clearbody q. split; cbn [pool size root root_ptr count].
  - by rewrite Hl.
  - reflexivity.
  - split; exact I.
  - exact I.
  - exact I.
  - reflexivity.
  - intros j. split; [|lia].
    intros (n & Hn & Hu). destruct (decide (j < MAX_NODES)%nat) as [Hj|Hj].
    + rewrite Hs in Hn by exact Hj. injection Hn as <-. by destruct Hu.
    + apply lookup_lt_Some in Hn. rewrite Hl, Hlen in Hn. lia.
Qed.

(** [node_alloc] scans to the first free slot. *)
Lemma node_alloc_from_spec p c i n :
  length p = MAX_NODES → (∀ j, pool_live p j ↔ (j < c)%nat) →
  (i ≤ c)%nat → (i + n = MAX_NODES)%nat →
  node_alloc_from p i n
  = match p !! c with
    | Some x => Ok (Some c, <[c:=Node (key x) null None None None 1 1]> p)
    | None => Ok (None, p)
    end.
Proof.
  intros Hlen Hused. revert i. induction n as [|n IH]; intros i Hi Hn.
  { assert (c = MAX_NODES) as ->.
    { destruct (decide (c = 0)%nat) as [->|Hc]; [lia|].
      destruct (proj2 (Hused (c - 1)%nat) ltac:(lia)) as (x & Hx & _).
      apply lookup_lt_Some in Hx. lia. }
    simpl. by rewrite lookup_ge_None_2 by lia. }
  cbn [node_alloc_from].
  destruct (lookup_lt_is_Some_2 p i ltac:(lia)) as [x Hx]. rewrite Hx.
  destruct (decide (i = c)) as [->|Hne].
  - rewrite Hx. destruct (in_use x =? 0) eqn:Hu; [done|].
    exfalso. apply (Nat.lt_irrefl c), Hused. exists x. split; [done|lia].
  - destruct (proj2 (Hused i) ltac:(lia)) as (x' & Hx' & Hu).
    rewrite Hx in Hx'. injection Hx' as <-.
    destruct (in_use x =? 0) eqn:Hu'; [lia|].
    apply IH; lia.
Qed.

Lemma used_bound p c :
  length p = MAX_NODES → (∀ j, pool_live p j ↔ (j < c)%nat) → (c ≤ MAX_NODES)%nat.
Proof.
  intros Hlen Hused. destruct (decide (c = 0)%nat) as [->|Hc]; [lia|].
  destruct (proj2 (Hused (c - 1)%nat) ltac:(lia)) as (x & Hx & _).
  apply lookup_lt_Some in Hx. lia.
Qed.

(** [node_new] on a full pool. *)
Lemma node_new_full p k v :
  length p = MAX_NODES → (∀ j, pool_live p j ↔ (j < MAX_NODES)%nat) →
  node_new p k v = Ok (None, p).
Proof.
  intros Hlen Hused. unfold node_new, node_alloc.
  rewrite (node_alloc_from_spec p MAX_NODES 0 MAX_NODES) by (done || lia).
  by rewrite lookup_ge_None_2 by lia.
Qed.

(** [node_new] on a pool with a free slot. *)
Lemma node_new_free p c k v :
  length p = MAX_NODES → (∀ j, pool_live p j ↔ (j < c)%nat) →
  (c < MAX_NODES)%nat →
  ∃ p', node_new p k v = Ok (Some c, p') ∧
    alloc_post p p' c (MapNode k v None None None 1).
Proof.
  intros Hlen Hused Hc. unfold node_new, node_alloc.
  rewrite (node_alloc_from_spec p c 0 MAX_NODES) by (done || lia).
  destruct (lookup_lt_is_Some_2 p c ltac:(lia)) as [x Hx]. rewrite Hx.
  cbn [mbind result_bind]. unfold write.
  cbn [load pool_node_store]. unfold pool_load.
  rewrite list_lookup_insert_eq by lia. cbn [fmap option_fmap option_map].
  cbn [mbind result_bind store pool_node_store]. unfold pool_store.
  rewrite list_lookup_alter_eq, list_lookup_insert_eq by lia.
  cbn [fmap option_fmap option_map mbind result_bind].
  eexists. split; [reflexivity|].
  split_and!.
  - intros Hlive. apply Hused in Hlive. lia.
  - simpl. unfold pool_live. rewrite !list_lookup_alter_eq.
    rewrite list_lookup_insert_eq by lia. simpl. eexists. split; [done|]. done.
  - simpl. unfold pool_load. rewrite !list_lookup_alter_eq.
    by rewrite list_lookup_insert_eq by lia.
  - intros b Hb. simpl. unfold pool_load, pool_live.
    rewrite !list_lookup_alter_ne by done.
    by rewrite list_lookup_insert_ne by done.
Qed.

Lemma pool_store_length p a (n : map_node_t Z V) :
  is_Some (load p a) → length p = MAX_NODES → length (store p a n) = MAX_NODES.
Proof. intros _ Hp. simpl. unfold pool_store. by rewrite length_alter. Qed.

Lemma node_new_length p k v (o : ptr) p' :
  node_new p k v = Ok (o, p') → length p = MAX_NODES → length p' = MAX_NODES.
Proof.
  unfold node_new, node_alloc. intros H Hlen.
  assert (∀ i n q (o' : ptr), node_alloc_from p i n = Ok (o', q) → length q = MAX_NODES)
    as Halloc.
  { intros i n. revert i. induction n as [|n IH]; intros i q o' Hq.
    - by injection Hq as _ <-.
    - cbn [node_alloc_from] in Hq. destruct (p !! i) as [x|]; [|done].
      destruct (in_use x =? 0); [|by eapply IH].
      injection Hq as _ <-. by rewrite length_insert. }
  destruct (node_alloc_from p 0 MAX_NODES) as [[r0 q]| |] eqn:Hq; [|done..].
  apply Halloc in Hq. cbn [mbind result_bind] in H.
  destruct r0 as [a|]; [|by injection H as _ <-].
  destruct (write q (Some a) (set_key k)) as [q1| |] eqn:H1; [|done..].
  cbn [mbind result_bind] in H.
  destruct (write q1 (Some a) (set_value v)) as [q2| |] eqn:H2; [|done..].
  injection H as _ <-.
  eapply (write_closed _ pool_store_length); [exact H2|].
  eapply (write_closed _ pool_store_length); [exact H1|]. done.
Qed.

(** [map_insert] of an absent key into a map with a free slot. *)
Lemma pool_insert_new fuel m t k v :
  pool_ok m t → (depth t ≤ fuel)%nat → (count t < MAX_NODES)%nat →
  absent u32_order k t →
  ∃ m' t' xs ys,
    map_insert fuel m k v = Ok (1, m') ∧ pool_ok m' t' ∧
    entries t = xs ++ ys ∧ entries t' = xs ++ (k, v) :: ys.
Proof.
  intros Hok Hfuel Hcnt Habs. destruct (locate_absent _ _ _ Habs) as [c Hloc].
  destruct (node_new_free (pool m) (count t) k v (pk_len _ _ Hok) (pk_used _ _ Hok) Hcnt)
    as (p' & Hnew & Halloc).
  destruct (map_insert_new u32_order node_new fuel (state_of m) k v t c (count t) p'
              _ _ (pk_root _ _ Hok) (pk_rep _ _ Hok)
              (avl_hts_ok _ (pk_avl _ _ Hok)) Hfuel Hloc Hnew Halloc)
    as (s' & Hins & Hrep & Hlive).
  pose proof (locate_plug u32_order k t []) as Hplug.
  rewrite Hloc in Hplug. simpl in Hplug.
  pose proof (map_insert_closed (λ p, length p = MAX_NODES) pool_store_length
                node_new u32_order fuel (state_of m) k v _ _
                (λ s o s', node_new_length s k v o s') Hins (pk_len _ _ Hok)) as Hlen.
  eexists _, _, (before c).*2, (after c).*2.
  unfold map_insert. rewrite Hins. cbn [mbind result_bind].
  split; [reflexivity|]. split_and!.
  - split; cbn [of_state pool size root ts_mem ts_size ts_root] in *.
    + exact Hlen.
    + reflexivity.
    + exact Hrep.
    + apply insert_at_avl. rewrite Hplug. apply Hok.
    + eapply insert_at_bst; [apply _|apply Hok|exact Hloc|by apply u32_order_eq].
    + rewrite insert_at_count, Hplug.
      pose proof (pk_size _ _ Hok) as Hsz. pose proof MAX_NODES_val as HN.
      destruct t as [|a l k0 v0 h r]; [done|].
      cbn [state_of ts_size]. rewrite Hsz. unfold size_t_max.
      rewrite Z.mod_small; lia.
    + intros j. rewrite insert_at_count, Hplug.
      rewrite (Hlive j). destruct Halloc as (Hn & Hn' & _ & Hother).
      destruct (decide (j = count t)) as [->|Hne].
      * split; [lia|done].
      * destruct (Hother j Hne) as [_ ->]. rewrite (pk_used _ _ Hok j). lia.
  - by rewrite <- Hplug, entries_plug.
  - apply insert_at_entries.
Qed.

(** [map_insert] of an absent key into a full map. *)
Lemma pool_insert_full fuel m t k v :
  pool_ok m t → (depth t ≤ fuel)%nat → count t = MAX_NODES →
  absent u32_order k t →
  map_insert fuel m k v = Ok (-1, m).
Proof.
  intros Hok Hfuel Hcnt Habs. destruct (locate_absent _ _ _ Habs) as [c Hloc].
  unfold map_insert.
  rewrite (map_insert_failed u32_order _ fuel (state_of m) k v t c (pool m));
    [|apply Hok|by destruct (pk_rep _ _ Hok)|done|done|].
  - cbn [mbind result_bind]. by destruct m.
  - apply node_new_full; [apply Hok|].
    intros j. rewrite (pk_used _ _ Hok j). by rewrite Hcnt.
Qed.

(** Inserting pairs with distinct, absent keys fills as many slots. *)
Lemma pool_insert_all_ok fuel m t kvs :
  pool_ok m t → (MAX_NODES ≤ fuel)%nat →
  (count t + length kvs ≤ MAX_NODES)%nat →
  Forall (λ k, absent u32_order k t) kvs.*1 → NoDup kvs.*1 →
  ∃ m' t',
    pool_insert_all fuel m kvs = Ok (replicate (length kvs) 1, m') ∧
    pool_ok m' t' ∧ count t' = (count t + length kvs)%nat ∧
    entries t' ≡ₚ entries t ++ kvs.
Proof.
  intros Hok Hfuel. revert m t Hok.
  induction kvs as [|[k v] kvs IH]; intros m t Hok Hcnt Habs Hdis.
  { exists m, t. split_and!; [done|done|simpl; lia|]. by rewrite app_nil_r. }
  simpl in Hcnt. pose proof (depth_le_count t) as Hd.
  rewrite fmap_cons in Habs, Hdis. cbn [fst] in Habs, Hdis.
  apply Forall_cons in Habs as [Hk Habs]. apply NoDup_cons in Hdis as [Hkk Hdis].
  destruct (pool_insert_new fuel m t k v Hok ltac:(lia) ltac:(lia) Hk)
    as (m1 & t1 & xs & ys & Hrun & Hok1 & Ht & Ht1).
  assert (count t1 = Datatypes.S (count t)) as Hc1.
  { rewrite !count_entries, Ht1, Ht, !length_app. simpl. lia. }
  destruct (IH m1 t1 Hok1) as (m' & t' & Hrun' & Hok' & Hcnt' & Hent).
  - lia.
  - rewrite Forall_forall in Habs. apply Forall_forall.
    intros k2 Hk2 k' v' Hin. rewrite Ht1 in Hin.
    apply elem_of_app in Hin as [Hin|Hin].
    { apply (Habs k2 Hk2 k' v'). rewrite Ht. set_solver. }
    apply elem_of_cons in Hin as [Heq|Hin].
    + injection Heq as -> ->. rewrite u32_order_eq. by intros ->.
    + apply (Habs k2 Hk2 k' v'). rewrite Ht. set_solver.
  - done.
  - exists m', t'. cbn [pool_insert_all]. rewrite Hrun. cbn [mbind result_bind].
    rewrite Hrun'. cbn [mbind result_bind].
    split_and!; [done|done|simpl; lia|].
    rewrite Hent, Ht1, Ht. rewrite <- !app_assoc. apply Permutation_app_head.
    simpl. by rewrite <- Permutation_middle.
Qed.

End pool.
End PoolFacts.

Import Examples.

Lemma z_cmp_order : CmpOrder z_cmp.
Proof. split; unfold z_cmp; intros; lia. Qed.

Lemma one_node_ok v : map_ok (one_node v) (one_tree v).
Proof.
  split; [reflexivity| | |].
  - split; [by repeat split|]. simpl. by split_and!.
  - simpl. split_and!; done || lia.
  - unfold bst. simpl. by repeat constructor.
Qed.

Lemma three_nodes_ok : map_ok three_nodes three_tree.
Proof.
  split; [reflexivity| | |].
  - split; [by repeat split|]. simpl. split_and!; by vm_compute; eauto.
  - simpl. split_and!; done || lia.
  - unfold bst. simpl. repeat constructor; by vm_compute.
Qed.

(** *** Runs of the model *)

Example keys_after_inserts :
  keys_after [Insert true 5 50; Insert true 3 30; Insert true 8 80;
              Insert true 1 10; Insert true 4 40; Insert true 3 0]
  = Ok [1; 3; 4; 5; 8].
Proof. vm_compute. reflexivity. Qed.

Example keys_after_erase_root :
  keys_after [Insert true 1 10; Insert true 2 20; Insert true 3 30;
              Insert true 4 40; Insert true 5 50; Insert true 6 60;
              Insert true 7 70; Erase 4; Erase 9]
  = Ok [1; 2; 3; 5; 6; 7].
Proof. vm_compute. reflexivity. Qed.

(** Seven ascending insertions give the perfectly balanced tree. *)
Example ascending_inserts_balance :
  (m ← run 16 (map_create true (Some z_cmp) None false None false)
         ((λ k, Insert true k 0) <$> [1; 2; 3; 4; 5; 6; 7]);
   match m with
   | Some m => nd ← deref (mem m) (root m); Ok (key nd, height nd, size m)
   | None => Undefined
   end)
  = Ok (4, 3, 7).
Proof. vm_compute. reflexivity. Qed.

Example pool_insert_find :
  ('(_, m) ← PoolMap.map_insert 8 (PoolMap.map_init empty_pool) 7 70;
   '(rc, m) ← PoolMap.map_insert 8 m 3 30;
   v ← PoolMap.map_find 8 m 3;
   Ok (rc, v, PoolMap.size m))
  = Ok (1, 30, 2).
Proof. vm_compute. reflexivity. Qed.

(** ** The properties of the specification *)
Section map_properties.
Context {K V : Type} `{!EqDecision K, !EqDecision V}
        `{!Nullable K, !Nullable V}.
Implicit Types (m : map_t K V) (t l r : tree K V) (c : list (frame K V)).

(** C1.  Whatever sequence of [map_insert], [map_put] and [map_erase]
    calls is applied to a map made by [map_create], every call returns,
    and the nodes reachable from the root of the resulting map are laid
    out as a tree in which every node has a balance factor between -1
    and 1 and a height field equal to 1 + the larger of its children's
    heights (0 for an absent child), and whose keys are strictly
    increasing in symmetric order; the size field is the number of nodes
    when the number of calls fits [size_t].  The comparator is a
    three-way comparison of a total order and [key_dup] returns an equal
    key. *)
Theorem avl_bst_invariant_after_ops (cmp : K → K → Z) kd kf vd vf
    (ops : list (op K V)) (fuel : nat) :
  CmpOrder cmp → (∀ k, cmp k (dup_or_raw kd k) = 0) →
  (length ops ≤ fuel)%nat →
  ∃ m0 m t,
    map_create true (Some cmp) kd kf vd vf = Some m0 ∧
    run fuel (Some m0) ops = Ok (Some m) ∧
    root m = root_ptr t ∧ rep (mem m) None t ∧
    avl t ∧ bst cmp t ∧ bst_nodes cmp t ∧
    (Z.of_nat (length ops) < size_t_max → size m = Z.of_nat (count t)).
Proof.
  intros Hord Hdup Hfuel.
  destruct (map_create_ok cmp kd kf vd vf)
    as (m0 & Hm0 & Hok0 & Hsz0 & Hc & Hkd & _).
  assert (CmpOrder (DynMap.cmp m0)) as Hord0 by (by rewrite Hc).
  assert (dup_ok m0) as Hdup0 by (intros k; rewrite Hc, Hkd; apply Hdup).
  destruct (run_ok fuel m0 E ops Hdup0 Hok0)
    as (m & t & Hrun & Hok & Hcfg & _ & Hsized); [simpl; lia|].
  destruct Hcfg as [Hcm _]. rewrite Hc in Hcm.
  exists m0, m, t. destruct Hok as [Hr Hrep Havl Hbst]. rewrite Hcm in Hbst.
  split_and!; try done.
  - by apply bst_nodes_of_bst.
  - intros Hlen. apply Hsized; [|done]. by split.
Qed.

(** C5.  [map_insert] of a key that is present returns 0 and leaves the
    map as it is: the same root, size, node memory and callback log, so
    also the stored value, which [map_find] still returns. *)
Theorem insert_existing_unchanged fuel malloc_ok m t k v k' v' :
  CmpOrder (cmp m) → map_ok m t → (depth t ≤ fuel)%nat →
  (k', v') ∈ entries t → cmp m k k' = 0 →
  map_insert fuel malloc_ok (Some m) k v = Ok (0, Some m) ∧
  map_find fuel (Some m) k = Ok v'.
Proof.
  intros Hord Hok Hfuel Hin Hk. split.
  - by eapply dyn_insert_found.
  - rewrite (dyn_find fuel m t) by done.
    by rewrite (find_val_in (cmp m) k t k' v' (ok_bst _ _ Hok) Hin Hk).
Qed.

(** C6.  [map_insert] of a key that is absent, with the allocation
    succeeding, returns 1, and [map_find] of that key then yields the
    value that was stored: [v] itself, or [val_dup v] when a [val_dup]
    is configured. *)
Theorem insert_then_find fuel m t k v :
  CmpOrder (cmp m) → dup_ok m → map_ok m t → (count t < fuel)%nat →
  absent (cmp m) k t →
  ∃ m',
    map_insert fuel true (Some m) k v = Ok (1, Some m') ∧
    map_find fuel (Some m') k = Ok (dup_or_raw (val_dup m) v) ∧
    (val_dup m = None → map_find fuel (Some m') k = Ok v).
Proof.
  intros Hord Hdup Hok Hfuel Habs.
  destruct (dyn_insert_find fuel m t k v Hdup Hok Hfuel Habs)
    as (m' & Hrun & Hfind).
  exists m'. split_and!; [done|done|]. intros Hnone. by rewrite Hfind, Hnone.
Qed.

(** C10.  [map_find] returns [NULL] when the key is absent, and it
    returns [NULL] as well when the key is present with [NULL] stored as
    its value: the two results are the same.  Such an entry is what
    [map_insert] of an absent key with a [NULL] value makes when no
    [val_dup] is configured, so [map_find] gives [NULL] for that key both
    before and after the insertion. *)
Theorem find_null_ambiguous fuel m t k :
  CmpOrder (cmp m) → map_ok m t → (count t < fuel)%nat →
  (absent (cmp m) k t → map_find fuel (Some m) k = Ok null) ∧
  (∀ k', (k', null) ∈ entries t → cmp m k k' = 0 →
         map_find fuel (Some m) k = Ok null) ∧
  (absent (cmp m) k t → dup_ok m → val_dup m = None →
   ∃ m', map_insert fuel true (Some m) k null = Ok (1, Some m') ∧
     map_find fuel (Some m') k = Ok null).
Proof.
  intros Hord Hok Hfuel. pose proof (depth_le_count t) as Hd. split_and!.
  - intros Habs. rewrite (dyn_find fuel m t) by (done || lia).
    by rewrite (find_val_None (cmp m) k t Habs).
  - intros k' Hin Hk. rewrite (dyn_find fuel m t) by (done || lia).
    by rewrite (find_val_in (cmp m) k t k' null (ok_bst _ _ Hok) Hin Hk).
  - intros Habs Hdup Hnone.
    destruct (dyn_insert_find fuel m t k null Hdup Hok Hfuel Habs)
      as (m' & Hrun & Hfind).
    exists m'. split; [done|]. by rewrite Hfind, Hnone.
Qed.

(** C7.  On a [NULL] map handle [map_insert] and [map_put] return -1,
    [map_erase] and [map_size] return 0, [map_clear] and [map_destroy]
    do nothing, [map_begin] and [map_end] return [NULL]; but [map_find]
    passes the handle to [find_node], which reads [m->root]: its
    behaviour is undefined. *)
Theorem null_handle_find_undefined fuel malloc_ok (k : K) (v : V) :
  map_insert fuel malloc_ok None k v = Ok (-1, None) ∧
  map_put fuel malloc_ok None k v = Ok (-1, None) ∧
  map_erase fuel None k = Ok (0, None) ∧
  map_size (K:=K) (V:=V) None = 0 ∧
  map_clear (K:=K) (V:=V) fuel None = Ok None ∧
  map_destroy (K:=K) (V:=V) fuel None = Ok None ∧
  map_begin (K:=K) (V:=V) fuel None = Ok None ∧
  map_end (K:=K) (V:=V) None = None ∧
  map_find fuel None k = Undefined.
Proof. by split_and!. Qed.

End map_properties.

Lemma avl_bst_invariant_after_ops_witness :
  ∃ (m0 m : map_t Z Z) t,
    map_create true (Some z_cmp) None false None false = Some m0 ∧
    run 4 (Some m0)
      [Insert true 1 10; Put true 2 20; Insert false 3 30; Erase 1]
    = Ok (Some m) ∧
    root m = root_ptr t ∧ rep (mem m) None t ∧
    avl t ∧ bst z_cmp t ∧ bst_nodes z_cmp t ∧
    (Z.of_nat 4 < size_t_max → size m = Z.of_nat (count t)).
Proof.
  apply (avl_bst_invariant_after_ops z_cmp None false None false
           [Insert true 1 10; Put true 2 20; Insert false 3 30; Erase 1] 4).
  - exact z_cmp_order.
  - intros k. unfold z_cmp. simpl. lia.
  - simpl. lia.
Defined.

Lemma insert_existing_unchanged_witness :
  map_insert 1 true (Some (one_node 10)) 1 99 = Ok (0, Some (one_node 10)) ∧
  map_find 1 (Some (one_node 10)) 1 = Ok 10.
Proof.
  apply (insert_existing_unchanged 1 true (one_node 10) (one_tree 10) 1 99 1 10).
  - exact z_cmp_order.
  - exact (one_node_ok 10).
  - simpl. lia.
  - vm_compute. apply list_elem_of_here.
  - reflexivity.
Defined.

Lemma insert_then_find_witness :
  ∃ m',
    map_insert 2 true (Some (one_node 10)) 5 50 = Ok (1, Some m') ∧
    map_find 2 (Some m') 5 = Ok 50 ∧
    (val_dup (one_node 10) = None → map_find 2 (Some m') 5 = Ok 50).
Proof.
  apply (insert_then_find 2 (one_node 10) (one_tree 10) 5 50).
  - exact z_cmp_order.
  - intros k. cbv [one_node cmp key_dup dup_or_raw z_cmp]. lia.
  - exact (one_node_ok 10).
  - simpl. lia.
  - intros k' v' Hin. vm_compute in Hin.
    apply list_elem_of_singleton in Hin. injection Hin as -> ->. by vm_compute.
Defined.

Lemma find_null_ambiguous_witness :
  (absent z_cmp 1 (one_tree 0) → map_find 2 (Some (one_node 0)) 1 = Ok 0) ∧
  (∀ k', (k', 0) ∈ entries (one_tree 0) → z_cmp 1 k' = 0 →
         map_find 2 (Some (one_node 0)) 1 = Ok 0) ∧
  (absent z_cmp 1 (one_tree 0) → dup_ok (one_node 0) →
   val_dup (one_node 0) = None →
   ∃ m', map_insert 2 true (Some (one_node 0)) 1 0 = Ok (1, Some m') ∧
     map_find 2 (Some m') 1 = Ok 0).
Proof.
  apply (find_null_ambiguous 2 (one_node 0) (one_tree 0) 1).
  - exact z_cmp_order.
  - exact (one_node_ok 0).
  - simpl. lia.
Defined.

Section erase_cases.
Context {K V : Type}.
Implicit Types (t l r : tree K V) (c : list (frame K V)).

(** With at most one child it is the node itself that is unlinked. *)
Lemma erase_pos_one_child c n l kn vn hn r :
  l = E ∨ r = E → (erase_pos c (T n l kn vn hn r)).2 = Some n.
Proof. intros [-> | ->]; [done|]. by destruct l. Qed.

(** With two children it is the minimum of the right subtree that is
    unlinked, and its key and value are then in the node [n]. *)
Lemma erase_pos_two_children c n l kn vn hn r :
  l ≠ E → r ≠ E →
  ∃ c2 sa ks vs hs sr,
    min_path r [] = (c2, T sa E ks vs hs sr) ∧
    (erase_pos c (T n l kn vn hn r)).2 = Some sa ∧
    (n, (ks, vs)) ∈ inorder (erase_at c (T n l kn vn hn r)).
Proof.
  intros Hl Hr.
  destruct (min_path_node r []) as (sa & ks & vs & hs & sr & Hmin); [done|].
  pose proof (erase_pos_inorder c n l kn vn hn r) as Hin.
  unfold erase_at. rewrite inorder_rebal_up.
  destruct l as [|al ll kl vl hl rl]; [done|].
  destruct r as [|ar lr kr vr hr rr]; [done|].
  cbn [erase_pos] in *.
  destruct (min_path (T ar lr kr vr hr rr) []) as [c2 tm].
  simpl in Hmin. subst tm. cbn [fst snd] in *.
  exists c2, sa, ks, vs, hs, sr. split_and!; [done|done|].
  rewrite Hin. set_solver.
Qed.

End erase_cases.

Section map_properties2.
Context {K V : Type} `{!EqDecision K, !EqDecision V}
        `{!Nullable K, !Nullable V}.
Implicit Types (m : map_t K V) (t l r : tree K V) (c : list (frame K V)).

(** C2.  After pairs with distinct keys have been inserted into a map
    made by [map_create], the loop from [map_begin] along [map_next] to
    the end sentinel reads the inserted keys in strictly increasing
    comparator order, and the loop along [map_prev] from the node visited
    last reads them in exactly the reverse order. *)
Theorem iteration_visits_sorted_keys (cmp : K → K → Z) kd kf vd vf
    (kvs : list (K * V)) (fuel n : nat) :
  CmpOrder cmp → (∀ k, cmp k (dup_or_raw kd k) = 0) →
  distinct_keys cmp kvs.*1 →
  (length kvs ≤ fuel)%nat → (length kvs ≤ n)%nat →
  ∃ m0 m ks its,
    map_create true (Some cmp) kd kf vd vf = Some m0 ∧
    insert_all fuel (Some m0) kvs = Ok (replicate (length kvs) 1, Some m) ∧
    keys_forward fuel n m = Ok ks ∧
    increasing cmp ks ∧ ks ≡ₚ dup_or_raw kd <$> kvs.*1 ∧
    iters_forward fuel n m = Ok its ∧
    keys_backward fuel n m (default None (last its)) = Ok (reverse ks).
Proof.
  intros Hord Hdup Hdis Hfuel Hn.
  destruct (map_create_ok cmp kd kf vd vf)
    as (m0 & Hm0 & Hok0 & _ & Hc & Hkd & _).
  assert (CmpOrder (DynMap.cmp m0)) as Hord0 by (by rewrite Hc).
  assert (dup_ok m0) as Hdup0 by (intros k; rewrite Hc, Hkd; apply Hdup).
  destruct (insert_all_ok fuel m0 E kvs Hdup0 Hok0)
    as (m & t & Hrun & Hok & Hcfg & Hent).
  { simpl. lia. }
  { apply Forall_forall. intros k _ k' v' Hin. by apply elem_of_nil in Hin. }
  { by rewrite Hc. }
  simpl in Hent. destruct Hcfg as [Hcm _]. rewrite Hc in Hcm.
  assert (count t = length kvs) as Hcnt.
  { rewrite count_entries, Hent. by rewrite length_fmap. }
  pose proof (depth_le_count t) as Hd.
  exists m0, m, (keys t), (Some <$> addrs t). split_and!.
  - done.
  - done.
  - apply dyn_keys_forward; [done|lia|lia].
  - rewrite <- Hcm. apply Hok.
  - unfold keys. rewrite Hent, Hkd, <- !list_fmap_compose. done.
  - apply dyn_iters_forward; [done|lia|lia].
  - rewrite last_fmap_Some. apply dyn_keys_backward; [done|lia|lia].
Qed.

(** C4.  [map_put] of a key that is present returns 2; the map has the
    same root, size and tree shape, only the value field of the node
    found is overwritten; [map_find] of the key then returns the value
    stored, [v] or [val_dup v]; and [val_free] is called exactly once,
    on the old value, when it is configured, and not at all
    otherwise. *)
Theorem put_replaces_existing fuel malloc_ok m t k v k' v' :
  CmpOrder (cmp m) → map_ok m t → (depth t ≤ fuel)%nat →
  (k', v') ∈ entries t → cmp m k k' = 0 →
  ∃ m' t' a nd,
    map_put fuel malloc_ok (Some m) k v = Ok (2, Some m') ∧
    map_ok m' t' ∧ strip t' = strip t ∧
    root m' = root m ∧ size m' = size m ∧
    heap (mem m) !! a = Some nd ∧
    heap (mem m')
    = <[a:=set_value (dup_or_raw (val_dup m) v) nd]> (heap (mem m)) ∧
    map_find fuel (Some m') k = Ok (dup_or_raw (val_dup m) v) ∧
    trace (mem m')
    = trace (mem m) ++ (if val_free m then [ValFree v'] else []).
Proof.
  intros Hord Hok Hfuel Hin Hk.
  destruct (dyn_put_existing fuel malloc_ok m t k v k' v' Hok Hfuel Hin Hk)
    as (m' & t' & a & nd & xs & k0 & ys & Hrun & Hok' & Hcfg & Hsz & Hrt & Hs &
        Ht & Ht' & Hk0 & Hnd & Hheap & Htr).
  exists m', t', a, nd. split_and!; try done.
  pose proof (same_config_order m m' Hcfg) as Hord'. pose proof Hcfg as [Hc _].
  rewrite (dyn_find fuel m' t'); [|done|].
  - rewrite (find_val_in (cmp m') k t' k0 (dup_or_raw (val_dup m) v)
               (ok_bst _ _ Hok')); [done| |by rewrite Hc].
    rewrite Ht'. set_solver.
  - pose proof (f_equal depth Hs) as Hd.
    assert (∀ u : tree K V, depth (strip u) = depth u) as Hds.
    { induction u as [|? ? IHl ? ? ? ? IHr]; [done|]. simpl. by rewrite IHl, IHr. }
    rewrite !Hds in Hd. by rewrite Hd.
Qed.

End map_properties2.

(** C9.  When [rebalance_at] finds the node left-heavy by more than one
    and the two subtrees of its left child have equal heights, the
    result is the single right rotation: the left child becomes the root
    of the subtree and the node its right child; symmetrically, for a
    node right-heavy by more than one whose right child has subtrees of
    equal heights the result is the single left rotation. *)
Theorem tie_break_single_rotation {K V S : Type} `{!NodeStore K V S}
    (s : S) par a x ll kx vx hx lr k v h (r l : tree K V) z rl kz vz hz rr :
  (rep s par (T a (T x ll kx vx hx lr) k v h r) →
   hx - ht r > 1 → ht ll = ht lr →
   ∃ s', rebalance_at s (Some a) = Ok (Some x, s') ∧
     rep s' par (mk x ll kx vx (mk a lr k v r))) ∧
  (rep s par (T a l k v h (T z rl kz vz hz rr)) →
   ht l - hz < -1 → ht rr = ht rl →
   ∃ s', rebalance_at s (Some a) = Ok (Some z, s') ∧
     rep s' par (mk z (mk a l k v rl) kz vz rr)).
Proof.
  split.
  - intros Hrep Hbal Htie.
    destruct (rebalance_at_LL s par a x ll kx vx hx lr k v h r Hrep)
      as (s' & Hrun & Hrep' & _); [lia|lia|].
    by exists s'.
  - intros Hrep Hbal Htie.
    destruct (rebalance_at_RR s par a l k v h z rl kz vz hz rr Hrep)
      as (s' & Hrun & Hrep' & _); [lia|lia|lia|].
    by exists s'.
Qed.

(** C8.  In the pool variant, inserting [MAX_NODES] pairs with distinct
    keys into a freshly initialised map returns 1 every time; inserting
    one more new key then returns -1 and leaves the whole map, its size
    [MAX_NODES] included, exactly as it was. *)
Theorem pool_exhaustion_atomic {V : Type} `{!Nullable V}
    (m0 : PoolMap.u32map_t V) (kvs : list (Z * V)) (k : Z) (v : V)
    (fuel : nat) :
  length (PoolMap.pool m0) = PoolMap.MAX_NODES →
  length kvs = PoolMap.MAX_NODES → NoDup (kvs.*1 ++ [k]) →
  (PoolMap.MAX_NODES ≤ fuel)%nat →
  ∃ m,
    PoolSpec.pool_insert_all fuel (PoolMap.map_init m0) kvs
    = Ok (replicate PoolMap.MAX_NODES 1, m) ∧
    PoolMap.map_size (Some m) = Z.of_nat PoolMap.MAX_NODES ∧
    PoolMap.map_insert fuel m k v = Ok (-1, m).
Proof.
  intros Hlen Hkvs Hdis Hfuel.
  apply NoDup_app in Hdis as (Hdis & Hk & _).
  destruct (PoolFacts.pool_insert_all_ok fuel (PoolMap.map_init m0) E kvs
              (PoolFacts.map_init_ok m0 Hlen) Hfuel)
    as (m & t & Hrun & Hok & Hcnt & Hent).
  { simpl. lia. }
  { apply Forall_forall. intros k1 _ k' v' Hin. by apply elem_of_nil in Hin. }
  { done. }
  simpl in Hcnt, Hent. rewrite Hkvs in Hrun, Hcnt.
  exists m. split_and!.
  - done.
  - simpl. by rewrite (PoolSpec.pk_size _ _ Hok), Hcnt.
  - pose proof (depth_le_count t) as Hd.
    apply (PoolFacts.pool_insert_full fuel m t k v Hok); [lia|done|].
    intros k' v' Hin. rewrite PoolFacts.u32_order_eq. intros <-.
    apply (Hk k); [|set_solver]. rewrite Hent in Hin.
    apply list_elem_of_fmap. by exists (k, v').
Qed.

Ltac by_decide := apply (bool_decide_unpack _); vm_compute; exact I.

Lemma iteration_visits_sorted_keys_witness :
  ∃ (m0 m : map_t Z Z) ks its,
    map_create true (Some z_cmp) None false None false = Some m0 ∧
    insert_all 3 (Some m0) [(2, 20); (1, 10); (3, 30)]
    = Ok (replicate 3 1, Some m) ∧
    keys_forward 3 3 m = Ok ks ∧
    increasing z_cmp ks ∧ ks ≡ₚ [2; 1; 3] ∧
    iters_forward 3 3 m = Ok its ∧
    keys_backward 3 3 m (default None (last its)) = Ok (reverse ks).
Proof.
  apply (iteration_visits_sorted_keys z_cmp None false None false
           [(2, 20); (1, 10); (3, 30)] 3 3).
  - exact z_cmp_order.
  - intros k. unfold z_cmp. simpl. lia.
  - simpl. unfold z_cmp. repeat split; repeat constructor; lia.
  - simpl. lia.
  - simpl. lia.
Defined.

Lemma put_replaces_existing_witness :
  ∃ m' t' a nd,
    map_put 1 true (Some (one_node 10)) 1 99 = Ok (2, Some m') ∧
    map_ok m' t' ∧ strip t' = strip (one_tree 10) ∧
    root m' = root (one_node 10) ∧ size m' = size (one_node 10) ∧
    heap (mem (one_node 10)) !! a = Some nd ∧
    heap (mem m') = <[a:=set_value 99 nd]> (heap (mem (one_node 10))) ∧
    map_find 1 (Some m') 1 = Ok 99 ∧
    trace (mem m') = trace (mem (one_node 10)) ++ [ValFree 10].
Proof.
  apply (put_replaces_existing 1 true (one_node 10) (one_tree 10) 1 99 1 10).
  - exact z_cmp_order.
  - exact (one_node_ok 10).
  - simpl. lia.
  - by_decide.
  - reflexivity.
Defined.

Lemma tie_break_single_rotation_witness :
  (∃ s', rebalance_at left_heavy (Some 0%nat) = Ok (Some 1%nat, s') ∧
     rep s' None
       (mk 1 (T 2 E 1 10 1 E) 2 20 (mk 0 (T 3 E 3 30 1 E) 4 40 E))) ∧
  (∃ s', rebalance_at right_heavy (Some 0%nat) = Ok (Some 1%nat, s') ∧
     rep s' None
       (mk 1 (mk 0 E 1 10 (T 2 E 2 20 1 E)) 3 30 (T 3 E 4 40 1 E))).
Proof.
  split.
  - apply (proj1 (tie_break_single_rotation left_heavy None 0%nat 1%nat
                    (T 2 E 1 10 1 E) 2 20 2 (T 3 E 3 30 1 E) 4 40 3 E E
                    0%nat E 0 0 0 E)).
    + split; [by repeat split|]. simpl. split_and!; by vm_compute; eauto.
    + simpl. lia.
    + reflexivity.
  - apply (proj2 (tie_break_single_rotation right_heavy None 0%nat 0%nat
                    E 0 0 0 E 1 10 3 E E
                    1%nat (T 2 E 2 20 1 E) 3 30 2 (T 3 E 4 40 1 E))).
    + split; [by repeat split|]. simpl. split_and!; by vm_compute; eauto.
    + simpl. lia.
    + reflexivity.
Defined.

Lemma pool_exhaustion_atomic_witness :
  ∃ m,
    PoolSpec.pool_insert_all 256 (PoolMap.map_init empty_pool) pool_pairs
    = Ok (replicate PoolMap.MAX_NODES 1, m) ∧
    PoolMap.map_size (Some m) = Z.of_nat PoolMap.MAX_NODES ∧
    PoolMap.map_insert 256 m 256 7 = Ok (-1, m).
Proof.
  apply (pool_exhaustion_atomic empty_pool pool_pairs 256 7 256).
  - vm_compute. reflexivity.
  - vm_compute. reflexivity.
  - by_decide.
  - exact (le_n _).
Defined.

(** ** Lookups in terms of the entries *)
Section lookup.
Context {K V : Type} (cmp : K → K → Z) `{!CmpOrder cmp}.
Implicit Types (t : tree K V).

Lemma find_val_Some k t v :
  bst cmp t →
  find_val cmp k t = Some v ↔ ∃ k', (k', v) ∈ entries t ∧ cmp k k' = 0.
Proof.
  intros Hbst. split.
  - unfold find_val. destruct (locate cmp k t []) as [c t'] eqn:Hloc.
    destruct t' as [|a l k' v' h r]; [done|]. intros [= <-].
    exists k'. by eapply locate_in.
  - intros (k' & Hin & Hk). by eapply find_val_in.
Qed.

(** The lookup of [k] only depends on the entries whose key compares
    equal to [k]. *)
Lemma find_val_ext k t t' :
  bst cmp t → bst cmp t' →
  (∀ k' v, cmp k k' = 0 → (k', v) ∈ entries t ↔ (k', v) ∈ entries t') →
  find_val cmp k t = find_val cmp k t'.
Proof.
  intros Hb Hb' Hiff.
  destruct (find_val cmp k t) as [v|] eqn:Hf.
  - apply find_val_Some in Hf as (k' & Hin & Hk); [|done].
    symmetry. apply find_val_Some; [done|]. exists k'. split; [|done].
    by apply Hiff.
  - destruct (find_val cmp k t') as [v|] eqn:Hf'; [|done].
    apply find_val_Some in Hf' as (k' & Hin & Hk); [|done].
    apply Hiff in Hin; [|done].
    assert (find_val cmp k t = Some v) as Hs.
    { apply find_val_Some; [done|]. by exists k'. }
    congruence.
Qed.

Lemma cmp_ne_equiv k k0 k2 : cmp k k0 = 0 → cmp k2 k ≠ 0 → cmp k2 k0 ≠ 0.
Proof.
  intros Hk Hne H0. apply Hne.
  pose proof (cmp_equiv_r cmp k k0 k2 Hk) as Hs. rewrite H0 in Hs.
  by apply Z.sgn_null_iff.
Qed.

End lookup.

Section lookup2.
Context {K V : Type} (cmp : K → K → Z) `{!CmpOrder cmp}.
Implicit Types (t : tree K V).

(** Entries that do not compare equal to [k2] do not matter for its
    lookup. *)
Lemma find_val_other k2 t t' (xs ys es es' : list (K * V)) :
  bst cmp t → bst cmp t' →
  entries t = xs ++ es ++ ys → entries t' = xs ++ es' ++ ys →
  Forall (λ e, cmp k2 e.1 ≠ 0) es → Forall (λ e, cmp k2 e.1 ≠ 0) es' →
  find_val cmp k2 t = find_val cmp k2 t'.
Proof.
  intros Hb Hb' Ht Ht' Hes Hes'. apply find_val_ext; [done..|].
  intros k' v Hk. rewrite Ht, Ht', !elem_of_app.
  rewrite Forall_forall in Hes, Hes'.
  split; intros [?|[Hin|?]]; auto.
  - by destruct (Hes _ Hin).
  - by destruct (Hes' _ Hin).
Qed.

(** In a search tree no other entry has a key comparing equal to the
    key of a given entry. *)
Lemma entries_split_unique t xs k0 v0 ys k :
  bst cmp t → entries t = xs ++ (k0, v0) :: ys → cmp k k0 = 0 →
  ∀ k' v', (k', v') ∈ xs ++ ys → cmp k k' ≠ 0.
Proof.
  unfold bst, keys. intros Hb Ht Hk k' v' Hin. rewrite Ht in Hb.
  rewrite fmap_app, fmap_cons in Hb. simpl in Hb.
  apply increasing_cons_app in Hb as (_ & _ & Hlt & Hgt & _).
  rewrite Forall_forall in Hlt, Hgt.
  pose proof (cmp_equiv k k0 k' Hk) as Hs.
  apply elem_of_app in Hin as [Hin|Hin].
  - assert (cmp k' k0 < 0) as Hl.
    { apply Hlt. apply list_elem_of_fmap. by exists (k', v'). }
    intros H0. rewrite H0 in Hs. symmetry in Hs.
    apply Z.sgn_null_iff, (cmp_eq_sym cmp) in Hs. lia.
  - assert (cmp k0 k' < 0) as Hl.
    { apply Hgt. apply list_elem_of_fmap. by exists (k', v'). }
    intros H0. rewrite H0 in Hs. symmetry in Hs.
    apply Z.sgn_null_iff in Hs. lia.
Qed.

End lookup2.

(** ** Further properties of the [malloc]-backed map *)
Section more_properties.
Context {K V : Type} `{!EqDecision K, !EqDecision V}
        `{!Nullable K, !Nullable V}.
Implicit Types (m : map_t K V) (t l r : tree K V) (c : list (frame K V)).

Lemma find_other_same fuel m m' t t' k2 (xs ys es es' : list (K * V)) :
  CmpOrder (cmp m) → map_ok m t → map_ok m' t' → same_config m m' →
  (depth t ≤ fuel)%nat → (depth t' ≤ fuel)%nat →
  entries t = xs ++ es ++ ys → entries t' = xs ++ es' ++ ys →
  Forall (λ e, cmp m k2 e.1 ≠ 0) es → Forall (λ e, cmp m k2 e.1 ≠ 0) es' →
  map_find fuel (Some m') k2 = map_find fuel (Some m) k2.
Proof.
  intros Hord Hok Hok' [Hc _] Hd Hd' Ht Ht' Hes Hes'.
  rewrite (dyn_find fuel m t), (dyn_find fuel m' t') by done.
  rewrite Hc. f_equal. f_equal. symmetry.
  eapply (find_val_other (cmp m)); [apply Hok| |done..].
  rewrite <- Hc. apply Hok'.
Qed.

(** X1.  A successful [map_insert] of an absent key changes the result
    of [map_find] for no other key. *)
Theorem insert_keeps_other_keys fuel m t k v k2 :
  CmpOrder (cmp m) → dup_ok m → map_ok m t → (count t < fuel)%nat →
  absent (cmp m) k t → cmp m k2 k ≠ 0 →
  ∃ m',
    map_insert fuel true (Some m) k v = Ok (1, Some m') ∧
    map_find fuel (Some m') k2 = map_find fuel (Some m) k2.
Proof.
  intros Hord Hdup Hok Hfuel Habs Hk2. pose proof (depth_le_count t) as Hd.
  destruct (dyn_insert_new fuel m t k v Hok ltac:(lia) Habs Hdup)
    as (m' & t' & xs & ys & Hrun & Hok' & Hcfg & _ & Ht & Ht').
  exists m'. split; [done|].
  pose proof (depth_le_count t') as Hd'.
  assert (count t' = Datatypes.S (count t)) as Hcnt.
  { rewrite !count_entries, Ht, Ht', !length_app. simpl. lia. }
  eapply (find_other_same fuel m m' t t' k2 xs ys []
            [(dup_or_raw (key_dup m) k, dup_or_raw (val_dup m) v)]);
    try done; try lia.
  repeat constructor. simpl. eapply cmp_ne_equiv; [done|apply Hdup|done].
Qed.

(** X2.  After [map_erase] of a key that is present, [map_find] of that
    key returns [NULL], and [map_find] of every other key returns what it
    returned before. *)
Theorem erase_removes_only_key fuel m t k k' v' :
  CmpOrder (cmp m) → map_ok m t → (count t ≤ fuel)%nat →
  (k', v') ∈ entries t → cmp m k k' = 0 →
  ∃ m',
    map_erase fuel (Some m) k = Ok (1, Some m') ∧
    map_find fuel (Some m') k = Ok null ∧
    ∀ k2, cmp m k2 k ≠ 0 →
          map_find fuel (Some m') k2 = map_find fuel (Some m) k2.
Proof.
  intros Hord Hok Hfuel Hin Hk. pose proof (depth_le_count t) as Hd.
  destruct (dyn_erase_found fuel m t k k' v' Hok ltac:(lia) Hin Hk)
    as (m' & c & n & l & k0 & h & r & a & Hloc & Hrun & Hok' & Hcfg & _).
  destruct (dyn_erase_entries m t k c n l k0 v' h r Hok Hloc) as [Ht Ht'].
  pose proof (locate_in (cmp m) k t [] c n l k0 v' h r Hloc) as [_ Hk0].
  set (t' := erase_at c (T n l k0 v' h r)) in *.
  pose proof (depth_le_count t') as Hd'.
  assert (Datatypes.S (count t') = count t) as Hcnt.
  { rewrite !count_entries, Ht, Ht', !length_app. simpl. rewrite !length_app. lia. }
  pose proof Hcfg as [Hc _].
  pose proof (same_config_order m m' Hcfg) as Hord'.
  exists m'. split_and!; [done| |].
  - rewrite (dyn_find fuel m' t') by (done || lia).
    rewrite (find_val_None (cmp m') k t'); [done|]. rewrite Hc, Ht'.
    eapply (entries_split_unique (cmp m)); [apply Hok|exact Ht|done].
  - intros k2 Hk2.
    apply (find_other_same fuel m m' t t' k2
             ((before c).*2 ++ entries l) (entries r ++ (after c).*2)
             [(k0, v')] [] Hord Hok Hok' Hcfg); [lia|lia|exact Ht|exact Ht'| |done].
    repeat constructor. simpl. by eapply cmp_ne_equiv.
Qed.

(** X3.  [map_put] with the allocation succeeding returns 2 when the key
    is present and 1 when it is absent; in both cases [map_find] of the
    key then returns the stored value, and [map_find] of every other key
    returns what it returned before. *)
Theorem put_then_find fuel m t k v :
  CmpOrder (cmp m) → dup_ok m → map_ok m t → (count t < fuel)%nat →
  ∃ rc m',
    map_put fuel true (Some m) k v = Ok (rc, Some m') ∧
    rc = match find_val (cmp m) k t with Some _ => 2 | None => 1 end ∧
    map_find fuel (Some m') k = Ok (dup_or_raw (val_dup m) v) ∧
    ∀ k2, cmp m k2 k ≠ 0 →
          map_find fuel (Some m') k2 = map_find fuel (Some m) k2.
Proof.
  intros Hord Hdup Hok Hfuel. pose proof (depth_le_count t) as Hd.
  destruct (present_or_absent (cmp m) k t (ok_bst _ _ Hok))
    as [(k' & v' & Hin & Hk)|Habs].
  - destruct (dyn_put_existing fuel true m t k v k' v' Hok ltac:(lia) Hin Hk)
      as (m' & t' & a & nd & xs & k0 & ys & Hrun & Hok' & Hcfg & _ & _ & Hs &
          Ht & Ht' & Hk0 & _).
    assert (count t' = count t) as Hcnt.
    { by rewrite <- (strip_count t'), Hs, strip_count. }
    pose proof (depth_le_count t') as Hd'. pose proof Hcfg as [Hc _].
    pose proof (same_config_order m m' Hcfg) as Hord'.
    exists 2, m'. split_and!; [done| | |].
    + by rewrite (find_val_in (cmp m) k t k' v' (ok_bst _ _ Hok) Hin Hk).
    + rewrite (dyn_find fuel m' t') by (done || lia).
      rewrite (find_val_in (cmp m') k t' k0 (dup_or_raw (val_dup m) v)
                 (ok_bst _ _ Hok')); [done| |by rewrite Hc].
      rewrite Ht'. set_solver.
    + intros k2 Hk2.
      eapply (find_other_same fuel m m' t t' k2 xs ys [(k0, v')]
                [(k0, dup_or_raw (val_dup m) v)]); try done; try lia.
      * repeat constructor. simpl. by eapply cmp_ne_equiv.
      * repeat constructor. simpl. by eapply cmp_ne_equiv.
  - rewrite (dyn_put_absent fuel true m t k v) by (done || lia).
    destruct (dyn_insert_new fuel m t k v Hok ltac:(lia) Habs Hdup)
      as (m' & t' & xs & ys & Hrun & Hok' & Hcfg & _ & Ht & Ht').
    assert (count t' = Datatypes.S (count t)) as Hcnt.
    { rewrite !count_entries, Ht, Ht', !length_app. simpl. lia. }
    pose proof (depth_le_count t') as Hd'. pose proof Hcfg as [Hc _].
    pose proof (same_config_order m m' Hcfg) as Hord'.
    exists 1, m'. split_and!; [done| | |].
    + by rewrite (find_val_None (cmp m) k t Habs).
    + rewrite (dyn_find fuel m' t') by (done || lia).
      rewrite (find_val_in (cmp m') k t' (dup_or_raw (key_dup m) k)
                 (dup_or_raw (val_dup m) v) (ok_bst _ _ Hok')); [done| |].
      * rewrite Ht'. set_solver.
      * rewrite Hc. apply Hdup.
    + intros k2 Hk2.
      eapply (find_other_same fuel m m' t t' k2 xs ys []
                [(dup_or_raw (key_dup m) k, dup_or_raw (val_dup m) v)]);
        try done; try lia.
      repeat constructor. simpl. eapply cmp_ne_equiv; [done|apply Hdup|done].
Qed.

(** X4.  [map_erase] of a key that is absent returns 0 and leaves the
    map exactly as it is. *)
Theorem erase_absent_unchanged fuel m t k :
  CmpOrder (cmp m) → map_ok m t → (depth t ≤ fuel)%nat →
  absent (cmp m) k t →
  map_erase fuel (Some m) k = Ok (0, Some m).
Proof. intros Hord Hok Hfuel Habs. by eapply dyn_erase_missing. Qed.

(** X5.  When [malloc] fails, [map_insert] and [map_put] of an absent
    key return -1 and leave the map exactly as it is. *)
Theorem insert_malloc_failure_atomic fuel m t k v :
  CmpOrder (cmp m) → map_ok m t → (depth t ≤ fuel)%nat →
  absent (cmp m) k t →
  map_insert fuel false (Some m) k v = Ok (-1, Some m) ∧
  map_put fuel false (Some m) k v = Ok (-1, Some m).
Proof.
  intros Hord Hok Hfuel Habs.
  rewrite (dyn_put_absent fuel false m t k v) by done.
  by rewrite (dyn_insert_failed fuel m t k v).
Qed.

End more_properties.

(** ** Neighbours in the iteration order *)
Section neighbours.
Context {K V S : Type} `{!NodeStore K V S}.
Implicit Types (s : S) (t l r : tree K V).

(** [map_next] and [map_prev] at a node split the symmetric order. *)
Lemma next_prev_at fuel s t xs a k v ys :
  rep s None t → (depth t ≤ fuel)%nat →
  inorder t = xs ++ (a, (k, v)) :: ys →
  AvlCore.map_next fuel s (Some a) = Ok (head ys.*1) ∧
  AvlCore.map_prev fuel s (Some a) = Ok (last xs.*1).
Proof.
  intros Hrep Hfuel Hin.
  destruct (position_in t [] xs a k v ys Hin) as (c & l & h & r & Hplug & Hb & Ha).
  simpl in Hplug, Hb, Ha. rewrite app_nil_r in Ha. split.
  - rewrite (map_next_rep fuel s c a l k v h r); [|by rewrite Hplug..].
    by rewrite Ha.
  - rewrite (map_prev_rep fuel s c a l k v h r); [|by rewrite Hplug..].
    by rewrite Hb.
Qed.

Lemma addr_split t a :
  a ∈ addrs t → ∃ xs k v ys, inorder t = xs ++ (a, (k, v)) :: ys.
Proof.
  unfold addrs. intros Hin. apply list_elem_of_fmap in Hin as ([a' [k v]] & -> & Hin).
  apply list_elem_of_split in Hin as (xs & ys & ->). by exists xs, k, v, ys.
Qed.

(** Stepping forth and back, or back and forth, returns to the node. *)
Lemma next_prev_round fuel s t a :
  rep s None t → (depth t ≤ fuel)%nat → a ∈ addrs t →
  ∃ nx pv,
    AvlCore.map_next fuel s (Some a) = Ok nx ∧ AvlCore.map_prev fuel s (Some a) = Ok pv ∧
    (nx ≠ None → AvlCore.map_prev fuel s nx = Ok (Some a)) ∧
    (pv ≠ None → AvlCore.map_next fuel s pv = Ok (Some a)).
Proof.
  intros Hrep Hfuel Ha. destruct (addr_split t a Ha) as (xs & k & v & ys & Hin).
  destruct (next_prev_at fuel s t xs a k v ys Hrep Hfuel Hin) as [Hn Hp].
  exists (head ys.*1), (last xs.*1). split_and!; [done|done| |].
  - destruct ys as [|[b [kb vb]] ys]; [done|]. intros _.
    change (head ((b, (kb, vb)) :: ys).*1) with (Some b).
    destruct (next_prev_at fuel s t (xs ++ [(a, (k, v))]) b kb vb ys Hrep Hfuel)
      as [_ Hp'].
    { rewrite Hin. by rewrite <- app_assoc. }
    rewrite Hp', fmap_app. simpl. by rewrite last_snoc.
  - destruct xs as [|x xs _] using rev_ind; [done|]. intros _.
    destruct x as [b [kb vb]]. rewrite fmap_app.
    change ([(b, (kb, vb))].*1) with [b]. rewrite last_snoc.
    destruct (next_prev_at fuel s t xs b kb vb ((a, (k, v)) :: ys) Hrep Hfuel)
      as [Hn' _].
    { rewrite Hin. by rewrite <- app_assoc. }
    by rewrite Hn'.
Qed.

(** There is nothing before the first node and nothing after the
    last. *)
Lemma first_last_ends fuel s t :
  rep s None t → (depth t ≤ fuel)%nat →
  AvlCore.map_prev fuel s (head (addrs t)) = Ok None ∧
  AvlCore.map_next fuel s (last (addrs t)) = Ok None.
Proof.
  intros Hrep Hfuel. split.
  - destruct (inorder t) as [|[a [k v]] ys] eqn:Hin; unfold addrs; rewrite Hin; [done|].
    change (head ((a, (k, v)) :: ys).*1) with (Some a).
    by destruct (next_prev_at fuel s t [] a k v ys Hrep Hfuel Hin) as [_ ->].
  - destruct (inorder t) as [|[a [k v]] xs _] eqn:Hin using rev_ind;
      unfold addrs; rewrite Hin; [done|].
    rewrite fmap_app. change ([(a, (k, v))].*1) with [a]. rewrite last_snoc.
    by destruct (next_prev_at fuel s t xs a k v [] Hrep Hfuel Hin) as [-> _].
Qed.

End neighbours.

Section more_iteration.
Context {K V : Type} `{!EqDecision K, !EqDecision V}
        `{!Nullable K, !Nullable V}.
Implicit Types (m : map_t K V) (t l r : tree K V).

(** X6.  At every node of the map, [map_next] and [map_prev] undo each
    other: the node before the next node, and the node after the previous
    node, is the node itself.  [map_begin] has no previous node. *)
Theorem next_prev_inverse fuel m t :
  map_ok m t → (depth t ≤ fuel)%nat →
  (∀ a, a ∈ addrs t →
     ∃ nx pv,
       map_next fuel m (Some a) = Ok nx ∧ map_prev fuel m (Some a) = Ok pv ∧
       (nx ≠ None → map_prev fuel m nx = Ok (Some a)) ∧
       (pv ≠ None → map_next fuel m pv = Ok (Some a))) ∧
  (∃ first, map_begin fuel (Some m) = Ok first ∧
     map_prev fuel m first = Ok None).
Proof.
  intros Hok Hfuel. split.
  - intros a Ha. by apply (next_prev_round fuel (mem m) t a (ok_rep _ _ Hok)).
  - exists (head (addrs t)). split; [by apply dyn_map_begin|].
    by apply (first_last_ends fuel (mem m) t (ok_rep _ _ Hok)).
Qed.

(** X7.  After any sequence of [map_insert], [map_put] and [map_erase]
    calls on a new map, the forward loop reads strictly increasing keys,
    and [map_size] is the number of keys it reads. *)
Theorem iteration_after_ops (cmp : K → K → Z) kd kf vd vf
    (ops : list (op K V)) (fuel n : nat) :
  CmpOrder cmp → (∀ k, cmp k (dup_or_raw kd k) = 0) →
  (length ops ≤ fuel)%nat → (length ops ≤ n)%nat →
  Z.of_nat (length ops) < size_t_max →
  ∃ m0 m ks,
    map_create true (Some cmp) kd kf vd vf = Some m0 ∧
    run fuel (Some m0) ops = Ok (Some m) ∧
    keys_forward fuel n m = Ok ks ∧
    increasing cmp ks ∧ map_size (Some m) = Z.of_nat (length ks).
Proof.
  intros Hord Hdup Hfuel Hn Hlen.
  destruct (map_create_ok cmp kd kf vd vf)
    as (m0 & Hm0 & Hok0 & Hsz0 & Hc & Hkd & _).
  assert (CmpOrder (DynMap.cmp m0)) as Hord0 by (by rewrite Hc).
  assert (dup_ok m0) as Hdup0 by (intros k; rewrite Hc, Hkd; apply Hdup).
  destruct (run_ok fuel m0 E ops Hdup0 Hok0)
    as (m & t & Hrun & Hok & Hcfg & Hcnt & Hsized); [simpl; lia|].
  destruct Hcfg as [Hcm _]. rewrite Hc in Hcm.
  pose proof (depth_le_count t) as Hd. simpl in Hcnt.
  exists m0, m, (keys t). split_and!; [done|done| | |].
  - apply dyn_keys_forward; [done|lia|lia].
  - rewrite <- Hcm. apply Hok.
  - destruct Hsized as [Hs _]; [by split|done|].
    simpl. rewrite Hs. unfold keys. by rewrite length_fmap, count_entries.
Qed.

End more_iteration.

Section clear.
Context {K V : Type} `{!EqDecision K, !EqDecision V}
        `{!Nullable K, !Nullable V}.
Implicit Types (m : map_t K V) (t l r : tree K V) (w : world K V).

Lemma node_free_spec m w a nd :
  heap w !! a = Some nd →
  node_free m w (Some a)
  = Ok (World (delete a (heap w))
          (trace w ++ node_events (key_free m) (val_free m) (key nd) (value nd))).
Proof.
  intros Hnd. unfold node_free, deref. cbn [load world_node_store].
  rewrite Hnd. cbn [mbind result_bind]. unfold node_events.
  destruct (key_free m && bool_decide (key nd ≠ null)),
    (val_free m && bool_decide (value nd ≠ null)); simpl;
    by rewrite ?app_nil_r, <- ?app_assoc.
Qed.

(** [free_subtree] releases exactly the nodes of the subtree. *)
Lemma free_subtree_rep fuel m w par t :
  distinct t → cells_ok w par t → (depth t ≤ fuel)%nat →
  ∃ w',
    free_subtree fuel m w (root_ptr t) = Ok w' ∧
    (∀ b, notin b t → heap w' !! b = heap w !! b) ∧
    (∀ b, ¬ notin b t → heap w' !! b = None) ∧
    trace w' = trace w ++ free_events (key_free m) (val_free m) t.
Proof.
  revert fuel w par. induction t as [|a l IHl k v h r IHr]; intros fuel w par.
  { intros _ _ _. exists w. destruct fuel; simpl; split_and!; try done.
    all: by rewrite app_nil_r. }
  intros (Hal & Har & Hlr & Hdl & Hdr) (Hlv & Hld & Hcl & Hcr) Hfuel.
  simpl in Hfuel. destruct fuel as [|fuel]; [lia|].
  cbn [free_subtree root_ptr]. rewrite (deref_load _ _ _ Hld).
  cbn [mbind result_bind left right].
  destruct (IHl fuel w (Some a) Hdl Hcl ltac:(lia)) as (w1 & Hrun1 & Hout1 & Hin1 & Htr1).
  rewrite Hrun1. cbn [mbind result_bind].
  assert (load w1 a = load w a) as Hld1 by (by apply Hout1).
  rewrite (deref_load w1 a _ (eq_trans Hld1 Hld)). cbn [mbind result_bind right].
  assert (cells_ok w1 (Some a) r) as Hcr1.
  { eapply cells_ok_agree; [|exact Hcr]. intros b Hb.
    assert (notin b l) as Hbl by (by eapply notin_disj; [apply disj_sym|]).
    simpl. rewrite (Hout1 b Hbl). done. }
  destruct (IHr fuel w1 (Some a) Hdr Hcr1 ltac:(lia)) as (w2 & Hrun2 & Hout2 & Hin2 & Htr2).
  rewrite Hrun2. cbn [mbind result_bind].
  assert (heap w2 !! a = Some (MapNode k v (root_ptr l) (root_ptr r) par h)) as Hld2.
  { rewrite (Hout2 a Har). exact (eq_trans Hld1 Hld). }
  rewrite (node_free_spec m w2 a _ Hld2).
  eexists. split; [reflexivity|]. cbn [heap trace key value]. split_and!.
  - intros b (Hne & Hbl & Hbr). rewrite lookup_delete_ne by done.
    by rewrite (Hout2 b Hbr), (Hout1 b Hbl).
  - intros b Hb. destruct (decide (b = a)) as [->|Hne].
    { by rewrite lookup_delete_eq. }
    rewrite lookup_delete_ne by done.
    destruct (notin_dec b r) as [Hbr|Hbr]; [|by apply Hin2].
    rewrite (Hout2 b Hbr). apply Hin1. simpl in Hb. tauto.
  - rewrite Htr2, Htr1. simpl. by rewrite <- !app_assoc.
Qed.

(** [map_clear] on a well-formed map. *)
Lemma dyn_clear fuel m t :
  map_ok m t → (depth t ≤ fuel)%nat →
  ∃ m',
    map_clear fuel (Some m) = Ok (Some m') ∧
    root m' = None ∧ size m' = 0 ∧ same_config m m' ∧
    (∀ b, notin b t → heap (mem m') !! b = heap (mem m) !! b) ∧
    (∀ b, ¬ notin b t → heap (mem m') !! b = None) ∧
    trace (mem m')
    = trace (mem m) ++ free_events (key_free m) (val_free m) t.
Proof.
  intros Hok Hfuel. destruct (ok_rep _ _ Hok) as [Hd Hc].
  destruct (free_subtree_rep fuel m (mem m) None t Hd Hc Hfuel)
    as (w' & Hrun & Hout & Hin & Htr).
  unfold map_clear. rewrite (ok_root _ _ Hok), Hrun. cbn [mbind result_bind].
  eexists. split; [reflexivity|]. by split_and!.
Qed.

End clear.

(** ** The addresses of the nodes after an insertion or a removal *)
Section addrs_pure.
Context {K V : Type}.
Implicit Types (t l r : tree K V) (c : list (frame K V)).

Lemma addrs_plug c t : addrs (plug c t) = (before c).*1 ++ addrs t ++ (after c).*1.
Proof. unfold addrs. by rewrite inorder_plug, !fmap_app. Qed.

Lemma insert_at_addrs c n k v :
  addrs (insert_at c n k v) = (before c).*1 ++ n :: (after c).*1.
Proof.
  unfold insert_at, addrs. rewrite inorder_rebal_up, inorder_plug.
  by rewrite !fmap_app.
Qed.

(** Only the node that [erase_node] unlinks leaves the tree. *)
Lemma erase_at_addrs c n l kn vn hn r a b :
  (erase_pos c (T n l kn vn hn r)).2 = Some a →
  b ∈ addrs (plug c (T n l kn vn hn r)) ↔
  b = a ∨ b ∈ addrs (erase_at c (T n l kn vn hn r)).
Proof.
  intros Hpos. pose proof (erase_pos_inorder c n l kn vn hn r) as Hin.
  unfold erase_at, addrs at 2. rewrite inorder_rebal_up.
  rewrite addrs_plug, addrs_T.
  destruct l as [|al ll kl vl hl rl].
  { simpl in Hpos. injection Hpos as <-. cbn [erase_pos fst snd] in *.
    rewrite Hin, !fmap_app. change ((inorder r).*1) with (addrs r).
    change ((inorder E).*1) with (addrs (@E K V)).
    repeat (rewrite elem_of_app || rewrite elem_of_cons). tauto. }
  destruct r as [|ar lr kr vr hr rr].
  { simpl in Hpos. injection Hpos as <-. cbn [erase_pos fst snd] in *.
    rewrite Hin, !fmap_app.
    change ((inorder (T al ll kl vl hl rl)).*1) with (addrs (T al ll kl vl hl rl)).
    change ((inorder E).*1) with (addrs (@E K V)).
    repeat (rewrite elem_of_app || rewrite elem_of_cons). tauto. }
  destruct (min_path_node (T ar lr kr vr hr rr) [])
    as (sa & ks & vs & hs & sr & Hmin); [done|].
  pose proof (min_path_head (T ar lr kr vr hr rr) []) as Hhead.
  rewrite Hmin in Hhead. specialize (Hhead ltac:(done)).
  cbn [erase_pos] in Hpos, Hin |- *.
  destruct (min_path (T ar lr kr vr hr rr) []) as [c2 tm].
  simpl in Hmin. subst tm. cbn [fst snd] in *. injection Hpos as <-.
  rewrite Hin, !fmap_app. cbn [fmap list_fmap fst].
  change ((inorder (T al ll kl vl hl rl)).*1) with (addrs (T al ll kl vl hl rl)).
  assert (addrs (T ar lr kr vr hr rr)
          = sa :: (tail (inorder (T ar lr kr vr hr rr))).*1) as ->.
  { unfold addrs in *.
    destruct (inorder (T ar lr kr vr hr rr)) as [|[x ?] rest]; [done|].
    simpl in *. by injection Hhead as <-. }
  repeat (rewrite elem_of_app || rewrite elem_of_cons). tauto.
Qed.

End addrs_pure.

Section tight.
Context {K V : Type} `{!EqDecision K, !EqDecision V}
        `{!Nullable K, !Nullable V}.
Implicit Types (m : map_t K V) (t l r : tree K V) (c : list (frame K V)).

Lemma tight_in m t b : tight m t → is_Some (heap (mem m) !! b) → b ∈ addrs t.
Proof.
  intros Ht Hb. destruct (decide (b ∈ addrs t)) as [|Hn]; [done|].
  destruct (Ht b Hb). by apply notin_spec.
Qed.

Lemma tight_intro m t :
  (∀ b, is_Some (heap (mem m) !! b) → b ∈ addrs t) → tight m t.
Proof. intros Hb b Hs Hn. apply notin_spec in Hn. by apply Hn, Hb. Qed.

(** A successful [map_insert] of an absent key allocates one node, which
    is in the tree afterwards. *)
Lemma dyn_insert_new_tight fuel m `{!CmpOrder (cmp m)} t k v :
  map_ok m t → tight m t → (depth t ≤ fuel)%nat → absent (cmp m) k t →
  dup_ok m →
  ∃ m' t',
    map_insert fuel true (Some m) k v = Ok (1, Some m') ∧
    map_ok m' t' ∧ same_config m m' ∧ tight m' t' ∧
    count t' = Datatypes.S (count t).
Proof.
  intros Hok Htight Hfuel Habs Hdup. destruct (locate_absent _ _ _ Habs) as [c Hloc].
  destruct (node_new_alloc m (mem m) k v) as (n & w' & Hnew & Halloc & _).
  destruct (map_insert_new (cmp m) (node_new m true) fuel (state_of m) k v t c n w'
              _ _ (ok_root _ _ Hok) (ok_rep _ _ Hok)
              (avl_hts_ok _ (ok_avl _ _ Hok)) Hfuel Hloc Hnew Halloc)
    as (s' & Hins & Hrep & Hlive).
  pose proof (locate_plug (cmp m) k t []) as Hplug.
  rewrite Hloc in Hplug. simpl in Hplug.
  eexists _, _.
  unfold map_insert. rewrite Hins. cbn [mbind result_bind].
  split; [reflexivity|]. split_and!.
  - split; simpl; [done|done| |].
    + apply insert_at_avl. rewrite Hplug. apply Hok.
    + eapply insert_at_bst; [done|apply Hok|exact Hloc|apply Hdup].
  - done.
  - apply tight_intro. intros b Hb. cbn [mem with_state ts_mem] in Hb.
    rewrite insert_at_addrs.
    apply (Hlive b) in Hb. destruct Halloc as (_ & _ & _ & Hother).
    destruct (decide (b = n)) as [->|Hne]; [set_solver|].
    apply (Hother b Hne) in Hb. apply (tight_in m t) in Hb; [|done].
    rewrite <- Hplug, addrs_plug in Hb. simpl in Hb. set_solver.
  - rewrite insert_at_count. by rewrite Hplug.
Qed.

(** One call keeps every allocated node in the tree. *)
Lemma apply_op_tight fuel m `{!CmpOrder (cmp m)} t o :
  dup_ok m → map_ok m t → tight m t → (depth t ≤ fuel)%nat →
  ∃ rc m' t',
    apply_op fuel (Some m) o = Ok (rc, Some m') ∧
    map_ok m' t' ∧ same_config m m' ∧ tight m' t' ∧
    (count t' ≤ Datatypes.S (count t))%nat.
Proof.
  intros Hdup Hok Htight Hfuel.
  assert (∀ b k v, ∃ rc m' t',
    map_insert fuel b (Some m) k v = Ok (rc, Some m') ∧
    map_ok m' t' ∧ same_config m m' ∧ tight m' t' ∧
    (count t' ≤ Datatypes.S (count t))%nat) as Hins.
  { intros b k v.
    destruct (present_or_absent (cmp m) k t (ok_bst _ _ Hok))
      as [(k' & v' & Hin & Hk)|Habs].
    - exists 0, m, t. rewrite (dyn_insert_found fuel b m t k v k' v') by done.
      split_and!; [done|done|done|done|lia].
    - destruct b.
      + destruct (dyn_insert_new_tight fuel m t k v Hok Htight Hfuel Habs Hdup)
          as (m' & t' & Hrun & Hok' & Hcfg & Ht' & Hcnt).
        exists 1, m', t'. split_and!; [done|done|done|done|lia].
      + exists (-1), m, t. rewrite (dyn_insert_failed fuel m t k v) by done.
        split_and!; [done|done|done|done|lia]. }
  destruct o as [b k v|b k v|k]; cbn [apply_op].
  - apply Hins.
  - destruct (present_or_absent (cmp m) k t (ok_bst _ _ Hok))
      as [(k' & v' & Hin & Hk)|Habs].
    + destruct (dyn_put_existing fuel b m t k v k' v' Hok Hfuel Hin Hk)
        as (m' & t' & a & nd & xs & k0 & ys & Hrun & Hok' & Hcfg & _ & _ & Hs &
            _ & _ & _ & Hnd & Hheap & _).
      exists 2, m', t'. split_and!; [done|done|done| |].
      * apply tight_intro. intros b' Hb'. rewrite Hheap in Hb'.
        rewrite <- (strip_addrs t'), Hs, strip_addrs.
        apply (tight_in m t); [done|].
        destruct (decide (b' = a)) as [->|Hne]; [by rewrite Hnd|].
        by rewrite lookup_insert_ne in Hb'.
      * rewrite <- (strip_count t'), Hs, strip_count. lia.
    + rewrite (dyn_put_absent fuel b m t k v) by done. apply Hins.
  - destruct (present_or_absent (cmp m) k t (ok_bst _ _ Hok))
      as [(k' & v' & Hin & Hk)|Habs].
    + destruct (dyn_erase_found fuel m t k k' v' Hok Hfuel Hin Hk)
        as (m' & c & n & l & k0 & h & r & a & Hloc & Hrun & Hok' & Hcfg & _ & Hpos & Hlive).
      destruct (dyn_erase_entries m t k c n l k0 v' h r Hok Hloc) as [Ht Ht'].
      destruct (locate_cell _ _ _ _ _ _ _ _ _ _ Hok Hloc) as [Hplug _].

      exists 1, m', (erase_at c (T n l k0 v' h r)). split_and!; [done|done|done| |].
      * apply tight_intro. intros b Hb. destruct Hlive as [Ha Hother].
        destruct (decide (b = a)) as [->|Hne]; [by destruct Ha|].
        apply (Hother b Hne) in Hb. apply (tight_in m t) in Hb; [|done].
        rewrite Hplug in Hb.
        by destruct (proj1 (erase_at_addrs c n l k0 v' h r a b Hpos) Hb).
      * rewrite !count_entries, Ht, Ht', !length_app. simpl.
        rewrite !length_app. lia.
    + exists 0, m, t. rewrite (dyn_erase_missing fuel m t k) by done.
      split_and!; [done|done|done|done|lia].
Qed.

Lemma run_tight fuel m `{!CmpOrder (cmp m)} t ops :
  dup_ok m → map_ok m t → tight m t → (count t + length ops ≤ fuel)%nat →
  ∃ m' t',
    run fuel (Some m) ops = Ok (Some m') ∧ map_ok m' t' ∧ same_config m m' ∧
    tight m' t' ∧ (count t' ≤ count t + length ops)%nat.
Proof.
  intros Hdup Hok Ht. revert m CmpOrder0 t Hdup Hok Ht.
  induction ops as [|o ops IH]; intros m Hord t Hdup Hok Ht Hfuel.
  { exists m, t. split_and!; [done|done|done|done|lia]. }
  simpl in Hfuel. pose proof (depth_le_count t) as Hd.
  destruct (apply_op_tight fuel m t o Hdup Hok Ht)
    as (rc & m1 & t1 & Hrun & Hok1 & Hcfg & Ht1 & Hcnt); [lia|].
  destruct (IH m1 (same_config_order m m1 Hcfg) t1 (same_config_dup_ok _ _ Hcfg Hdup) Hok1 Ht1)
    as (m' & t' & Hrun' & Hok' & Hcfg' & Ht' & Hcnt'); [lia|].
  exists m', t'. cbn [run]. rewrite Hrun. cbn [mbind result_bind].
  split_and!; [done|done|by eapply same_config_trans|done|simpl; lia].
Qed.

End tight.

Section clear_properties.
Context {K V : Type} `{!EqDecision K, !EqDecision V}
        `{!Nullable K, !Nullable V}.
Implicit Types (m : map_t K V) (t l r : tree K V).

(** X8.  [map_clear] releases every node of the map and nothing else,
    and leaves an empty map of size 0 with the same callbacks, in which
    [map_find] finds nothing.  The free callbacks are invoked node by
    node, in the order left subtree, right subtree, node: [key_free] on
    a non-[NULL] key and [val_free] on a non-[NULL] value, each when
    configured. *)
Theorem clear_frees_all fuel m t :
  map_ok m t → (depth t ≤ fuel)%nat →
  ∃ m',
    map_clear fuel (Some m) = Ok (Some m') ∧
    map_ok m' E ∧ map_size (Some m') = 0 ∧ same_config m m' ∧
    (∀ k, map_find fuel (Some m') k = Ok null) ∧
    (∀ b, b ∈ addrs t → heap (mem m') !! b = None) ∧
    (∀ b, b ∉ addrs t → heap (mem m') !! b = heap (mem m) !! b) ∧
    trace (mem m')
    = trace (mem m) ++ free_events (key_free m) (val_free m) t.
Proof.
  intros Hok Hfuel.
  destruct (dyn_clear fuel m t Hok Hfuel)
    as (m' & Hrun & Hroot & Hsize & Hcfg & Hout & Hin & Htr).
  assert (map_ok m' E) as Hok' by (by split).
  exists m'. split_and!; try done.
  - intros k. by rewrite (dyn_find fuel m' E k Hok') by (simpl; lia).
  - intros b Hb. apply Hin. intros Hn. by apply notin_spec in Hn.
  - intros b Hb. apply Hout. by apply notin_spec.
Qed.

(** X9.  Whatever calls were made on a map since [map_create],
    [map_destroy] releases every node that is still allocated: no node
    is left behind. *)
Theorem destroy_no_leak (cmp : K → K → Z) kd kf vd vf
    (ops : list (op K V)) (fuel : nat) :
  CmpOrder cmp → (∀ k, cmp k (dup_or_raw kd k) = 0) →
  (length ops ≤ fuel)%nat →
  ∃ m0 m w,
    map_create true (Some cmp) kd kf vd vf = Some m0 ∧
    run fuel (Some m0) ops = Ok (Some m) ∧
    map_destroy fuel (Some m) = Ok (Some w) ∧ heap w = ∅.
Proof.
  intros Hord Hdup Hfuel.
  destruct (map_create_ok cmp kd kf vd vf)
    as (m0 & Hm0 & Hok0 & _ & Hc & Hkd & _ & _ & _ & Hmem).
  assert (CmpOrder (DynMap.cmp m0)) as Hord0 by (by rewrite Hc).
  assert (dup_ok m0) as Hdup0 by (intros k; rewrite Hc, Hkd; apply Hdup).
  assert (tight m0 E) as Ht0.
  { intros b Hb. rewrite Hmem in Hb. simpl in Hb.
    rewrite lookup_empty in Hb. by destruct Hb. }
  destruct (run_tight fuel m0 E ops Hdup0 Hok0 Ht0)
    as (m & t & Hrun & Hok & _ & Ht & Hcnt); [simpl; lia|].
  pose proof (depth_le_count t) as Hd. simpl in Hcnt.
  destruct (dyn_clear fuel m t Hok ltac:(lia))
    as (m' & Hclear & _ & _ & _ & Hout & Hin & _).
  exists m0, m, (mem m'). split_and!; [done|done| |].
  - unfold map_destroy. by rewrite Hclear.
  - apply map_eq. intros b. rewrite lookup_empty.
    destruct (notin_dec b t) as [Hb|Hb]; [|by apply Hin].
    rewrite (Hout b Hb). destruct (heap (mem m) !! b) eqn:Hl; [|done].
    by destruct (Ht b ltac:(by rewrite Hl)).
Qed.

End clear_properties.

(** ** The free callbacks invoked by the mutating functions *)

Section trace.
Context {K V : Type} `{!EqDecision K, !EqDecision V}
        `{!Nullable K, !Nullable V}.
Implicit Types (m : map_t K V) (t l r : tree K V) (w : world K V).

Lemma same_kv_refl w : same_kv w w.
Proof. split; [done|]. intros a nd Hnd. by exists nd. Qed.

Lemma same_kv_trans w1 w2 w3 : same_kv w1 w2 → same_kv w2 w3 → same_kv w1 w3.
Proof.
  intros [Ht1 H1] [Ht2 H2]. split; [congruence|].
  intros a nd Hnd. destruct (H1 a nd Hnd) as (nd1 & Hnd1 & Hk1 & Hv1).
  destruct (H2 a nd1 Hnd1) as (nd2 & Hnd2 & Hk2 & Hv2).
  exists nd2. split_and!; congruence.
Qed.

Lemma dyn_write w a f w' :
  write w (Some a) f = Ok w' →
  ∃ nd, heap w !! a = Some nd ∧ w' = World (<[a:=f nd]> (heap w)) (trace w).
Proof.
  unfold write. cbn [load store world_node_store].
  destruct (heap w !! a) as [nd|] eqn:Hnd; [|done].
  intros [= <-]. by exists nd.
Qed.

Lemma write_same_kv w p f w' :
  (∀ nd, key (f nd) = key nd ∧ value (f nd) = value nd) →
  write w p f = Ok w' → same_kv w w'.
Proof.
  intros Hf Hw. destruct p as [a|]; [|done].
  apply dyn_write in Hw as (nd & Hnd & ->). split; [done|].
  intros b nb Hb. simpl. destruct (decide (b = a)) as [->|Hne].
  - rewrite lookup_insert_eq. exists (f nd). split; [done|].
    rewrite Hnd in Hb. injection Hb as <-. apply Hf.
  - rewrite lookup_insert_ne by done. by exists nb.
Qed.

Lemma write_if_same_kv w p f w' :
  (∀ nd, key (f nd) = key nd ∧ value (f nd) = value nd) →
  write_if w p f = Ok w' → same_kv w w'.
Proof.
  intros Hf. unfold write_if. destruct p; [by apply write_same_kv|].
  intros [= <-]. apply same_kv_refl.
Qed.

Lemma dyn_deref w a nd : deref w (Some a) = Ok nd ↔ heap w !! a = Some nd.
Proof.
  unfold deref. cbn [load world_node_store].
  destruct (heap w !! a); split; congruence.
Qed.

(** The exchange of keys and values between a node and another leaves
    the first node's key and value in the other. *)
Lemma swap_kv w n sa nd0 nsuc w4 :
  heap w !! n = Some nd0 → heap w !! sa = Some nsuc →
  (w1 ← write w (Some n) (set_key (key nsuc));
   w2 ← write w1 (Some sa) (set_key (key nd0));
   nd ← deref w2 (Some n);
   nsuc ← deref w2 (Some sa);
   w3 ← write w2 (Some n) (set_value (value nsuc));
   write w3 (Some sa) (set_value (value nd))) = Ok w4 →
  trace w4 = trace w ∧
  ∃ x, heap w4 !! sa = Some x ∧ key x = key nd0 ∧ value x = value nd0.
Proof.
  intros Hn Hsa H.
  destruct (write w (Some n) (set_key (key nsuc))) as [w1| |] eqn:H1; [|done..].
  apply dyn_write in H1 as (x1 & Hx1 & ->). rewrite Hn in Hx1.
  injection Hx1 as <-. cbn [mbind result_bind] in H.
  destruct (write _ (Some sa) (set_key (key nd0))) as [w2| |] eqn:H2; [|done..].
  apply dyn_write in H2 as (x2 & Hx2 & ->). cbn [heap trace] in *.
  cbn [mbind result_bind] in H.
  destruct (deref _ (Some n)) as [nd'| |] eqn:Hn'; [|done..].
  apply dyn_deref in Hn'. cbn [heap mbind result_bind] in Hn', H.
  destruct (deref _ (Some sa)) as [nsuc'| |] eqn:Hs'; [|done..].
  apply dyn_deref in Hs'. cbn [heap mbind result_bind] in Hs', H.
  destruct (write _ (Some n) (set_value (value nsuc'))) as [w3| |] eqn:H3; [|done..].
  apply dyn_write in H3 as (x3 & Hx3 & ->). cbn [heap trace] in *.
  cbn [mbind result_bind] in H.
  apply dyn_write in H as (x4 & Hx4 & ->). cbn [heap trace] in *.
  split; [done|]. rewrite lookup_insert_eq. eexists. split; [done|].
  cbn [key value set_value].
  assert (value nd' = value nd0) as ->.
  { destruct (decide (n = sa)) as [->|Hne].
    - rewrite lookup_insert_eq in Hn'. injection Hn' as <-.
      rewrite lookup_insert_eq in Hx2. by injection Hx2 as <-.
    - rewrite lookup_insert_ne, lookup_insert_eq in Hn' by done.
      by injection Hn' as <-. }
  split; [|done].
  destruct (decide (sa = n)) as [->|Hne].
  - rewrite lookup_insert_eq in Hx4. injection Hx4 as <-. simpl.
    rewrite Hn' in Hx3. injection Hx3 as <-.
    rewrite lookup_insert_eq in Hn'. by injection Hn' as <-.
  - rewrite lookup_insert_ne, lookup_insert_eq in Hx4 by done.
    by injection Hx4 as <-.
Qed.

(** [erase_node] invokes the callbacks on the key and the value that the
    node holds when it is called, also when it unlinks the successor's
    node. *)
Lemma erase_node_trace fuel m (ts ts' : tree_state (world K V)) n nd0 p :
  AvlCore.erase_node (release m) fuel ts (Some n) = Ok (p, ts') →
  heap (ts_mem ts) !! n = Some nd0 →
  trace (ts_mem ts')
  = trace (ts_mem ts)
    ++ node_events (key_free m) (val_free m) (key nd0) (value nd0).
Proof.
  revert ts n nd0. induction fuel as [|fuel IH]; intros ts n nd0 H Hnd0; [done|].
  cbn [AvlCore.erase_node] in H. cbv zeta in H.
  rewrite (proj2 (dyn_deref _ _ _) Hnd0) in H. cbn [mbind result_bind] in H.
  destruct (left nd0) as [ln|] eqn:Hl, (right nd0) as [rn|] eqn:Hr.
  1: {
    destruct (subtree_min (Datatypes.S fuel) (ts_mem ts) (Some rn)) as [suc| |] eqn:Hsuc;
      [|done..].
    cbn [mbind result_bind] in H.
    destruct (deref (ts_mem ts) suc) as [nsuc| |] eqn:Hsa; [|done..].
    destruct suc as [sa|]; [|done]. apply dyn_deref in Hsa.
    cbn [mbind result_bind] in H.
    destruct (w1 ← write (ts_mem ts) (Some n) (set_key (key nsuc));
              w2 ← write w1 (Some sa) (set_key (key nd0));
              nd ← deref w2 (Some n);
              nsuc ← deref w2 (Some sa);
              w3 ← write w2 (Some n) (set_value (value nsuc));
              write w3 (Some sa) (set_value (value nd))) as [w4| |] eqn:Hswap.
    - destruct (swap_kv _ _ _ _ _ _ Hnd0 Hsa Hswap) as (Htr & x & Hx & Hkx & Hvx).
      assert (AvlCore.erase_node (release m) fuel
                (TreeState (ts_root ts) (ts_size ts) w4) (Some sa) = Ok (p, ts')) as H'.
      { rewrite <- H. clear H.
        repeat match type of Hswap with
        | mbind _ ?e = Ok _ =>
            destruct e eqn:?; cbn [mbind result_bind] in Hswap |- *; [|done..]
        end.
        by rewrite Hswap. }
      eapply IH in H'; [|exact Hx]. cbn [ts_mem] in H'.
      by rewrite H', Htr, Hkx, Hvx.
    - exfalso.
      repeat match type of Hswap with
      | mbind _ ?e = _ =>
          destruct e eqn:?; cbn [mbind result_bind] in Hswap, H; [|done..]
      end.
      by rewrite Hswap in H.
    - exfalso.
      repeat match type of Hswap with
      | mbind _ ?e = _ =>
          destruct e eqn:?; cbn [mbind result_bind] in Hswap, H; [|done..]
      end.
      by rewrite Hswap in H. }
  all: match type of H with
       | mbind _ ?e = _ => destruct e as [[root w1]| |] eqn:Hsplice; [|done..]
       end.
  all: cbn [mbind result_bind] in H.
  all: assert (same_kv (ts_mem ts) w1) as Hkv;
    [ repeat bind_step;
      repeat match goal with
      | H : write _ _ _ = Ok _ |- _ =>
          apply write_same_kv in H; [|by intros []]
      | H : write_if _ _ _ = Ok _ |- _ =>
          apply write_if_same_kv in H; [|by intros []]
      end;
      eauto using same_kv_refl, same_kv_trans
    | ].
  all: destruct Hkv as [Htr Hkv]; destruct (Hkv n nd0 Hnd0) as (nd1 & Hnd1 & Hk1 & Hv1).
  all: unfold release in H; cbn [ts_mem ts_root ts_size] in H.
  all: rewrite (node_free_spec m w1 n nd1 Hnd1) in H; cbn [mbind result_bind] in H.
  all: injection H as _ <-; cbn [ts_mem trace]; by rewrite Htr, Hk1, Hv1.
Qed.

End trace.

Section callbacks.
Context {K V : Type} `{!EqDecision K, !EqDecision V}
        `{!Nullable K, !Nullable V}.
Implicit Types (m : map_t K V) (t l r : tree K V) (w : world K V).

Lemma trace_store_closed (tr : list (event K V)) w a (n : map_node_t K V) :
  is_Some (load w a) → trace w = tr → trace (store w a n) = tr.
Proof. done. Qed.

(** [map_insert] invokes no free callback. *)
Lemma dyn_insert_trace fuel malloc_ok m k v rc m' :
  map_insert fuel malloc_ok (Some m) k v = Ok (rc, Some m') →
  trace (mem m') = trace (mem m).
Proof.
  unfold map_insert. intros H.
  destruct (AvlCore.map_insert _ _ _ _ _ _) as [[rc' ts]| |] eqn:Hins; [|done..].
  cbn [mbind result_bind] in H. injection H as _ <-.
  apply (map_insert_closed (λ w, trace w = trace (mem m))
           (trace_store_closed _) _ _ _ _ _ _ _ _) in Hins; [done| |done].
  intros s o s' Hnew Hs. unfold node_new in Hnew.
  destruct malloc_ok; injection Hnew as _ <-; done.
Qed.

(** [map_erase] of a key that is present invokes the callbacks of
    [node_free] on the stored key and value. *)
Lemma dyn_erase_trace fuel m `{!CmpOrder (cmp m)} t k k' v' m' :
  map_ok m t → (depth t ≤ fuel)%nat →
  (k', v') ∈ entries t → cmp m k k' = 0 →
  map_erase fuel (Some m) k = Ok (1, Some m') →
  trace (mem m')
  = trace (mem m) ++ node_events (key_free m) (val_free m) k' v'.
Proof.
  intros Hok Hfuel Hin Hk Hrun.
  destruct (locate_present (cmp m) k t k' v' (ok_bst _ _ Hok) Hin Hk)
    as (c & n & l & k0 & h & r & Hloc & Hk0).
  destruct (locate_cell _ _ _ _ _ _ _ _ _ _ Hok Hloc) as [Hplug Hld].
  destruct (dyn_erase_entries m t k c n l k0 v' h r Hok Hloc) as [Ht _].
  assert (k0 = k') as ->.
  { rewrite Ht in Hin. apply elem_of_app in Hin as [Hin|Hin].
    - destruct (entries_split_unique (cmp m) t _ k0 v' _ k (ok_bst _ _ Hok) Ht Hk0
                  k' v'); [set_solver|done].
    - apply elem_of_cons in Hin as [Heq|Hin]; [by injection Heq|].
      destruct (entries_split_unique (cmp m) t _ k0 v' _ k (ok_bst _ _ Hok) Ht Hk0
                  k' v'); [set_solver|done]. }
  pose proof (dyn_find_node fuel m t k Hok Hfuel) as Hfind.
  rewrite Hloc in Hfind. cbn [snd root_ptr] in Hfind.
  unfold map_erase, AvlCore.map_erase in Hrun. unfold find_node in Hfind.
  rewrite Hfind in Hrun. cbn [mbind result_bind] in Hrun.
  destruct (AvlCore.erase_node _ _ _ _) as [[p ts1]| |] eqn:Hers; [|done..].
  cbn [mbind result_bind] in Hrun.
  destruct (rebalance_up _ _ _ _) as [[root s2]| |] eqn:Hup; [|done..].
  cbn [mbind result_bind] in Hrun.
  destruct (clear_root_parent _ _) as [s3| |] eqn:Hclr; [|done..].
  cbn [mbind result_bind] in Hrun. injection Hrun as <-.
  cbn [mem with_state ts_mem].
  apply (erase_node_trace fuel m (state_of m) ts1 n
           (MapNode k' v' (root_ptr l) (root_ptr r) (ctx_parent c) h) p)
    in Hers; [|exact Hld].
  cbn [key value state_of ts_mem] in Hers. rewrite <- Hers.
  apply (clear_root_parent_closed (λ w, trace w = trace (ts_mem ts1))
           (trace_store_closed _) _ _ _ Hclr).
  by apply (rebalance_up_closed (λ w, trace w = trace (ts_mem ts1))
              (trace_store_closed _) _ _ _ _ _ _ Hup).
Qed.

(** X10.  [map_erase] of a key that is present invokes [key_free] on
    the stored key and then [val_free] on the stored value, each exactly
    once, when the callback is configured and its argument is not
    [NULL]; it invokes nothing else. *)
Theorem erase_frees_entry fuel m t k k' v' :
  CmpOrder (cmp m) → map_ok m t → (depth t ≤ fuel)%nat →
  (k', v') ∈ entries t → cmp m k k' = 0 →
  ∃ m',
    map_erase fuel (Some m) k = Ok (1, Some m') ∧
    trace (mem m')
    = trace (mem m) ++ node_events (key_free m) (val_free m) k' v'.
Proof.
  intros Hord Hok Hfuel Hin Hk.
  destruct (dyn_erase_found fuel m t k k' v' Hok Hfuel Hin Hk)
    as (m' & c & n & l & k0 & h & r & a & _ & Hrun & _).
  exists m'. split; [done|]. by eapply dyn_erase_trace.
Qed.

(** X11.  [map_insert] returns on every well-formed map, whether the key
    is present or not and whether [malloc] succeeds or not, and it never
    invokes a free callback. *)
Theorem insert_calls_no_free fuel malloc_ok m t k v :
  CmpOrder (cmp m) → dup_ok m → map_ok m t → (depth t ≤ fuel)%nat →
  ∃ rc m',
    map_insert fuel malloc_ok (Some m) k v = Ok (rc, Some m') ∧
    (rc = 1 ∨ rc = 0 ∨ rc = -1) ∧
    trace (mem m') = trace (mem m).
Proof.
  intros Hord Hdup Hok Hfuel.
  destruct (present_or_absent (cmp m) k t (ok_bst _ _ Hok))
    as [(k' & v' & Hin & Hk)|Habs].
  - exists 0, m. rewrite (dyn_insert_found fuel malloc_ok m t k v k' v') by done.
    split_and!; [done|tauto|done].
  - destruct malloc_ok.
    + destruct (dyn_insert_new fuel m t k v Hok Hfuel Habs Hdup)
        as (m' & t' & xs & ys & Hrun & _).
      exists 1, m'. split_and!; [done|tauto|]. by eapply dyn_insert_trace.
    + exists (-1), m. rewrite (dyn_insert_failed fuel m t k v) by done.
      split_and!; [done|tauto|done].
Qed.

End callbacks.

(** ** Counting the slots in use *)
Section pigeonhole.

Lemma bounded_length (l : list nat) n :
  NoDup l → (∀ x, x ∈ l → (x < n)%nat) → (length l ≤ n)%nat.
Proof.
  intros Hnd Hlt. rewrite <- (length_seq n 0). apply submseteq_length.
  apply NoDup_submseteq; [done|]. intros x Hx. apply elem_of_seq.
  specialize (Hlt x Hx). lia.
Qed.

Lemma bounded_full (l : list nat) n :
  NoDup l → (∀ x, x ∈ l → (x < n)%nat) → length l = n →
  ∀ j, (j < n)%nat → j ∈ l.
Proof.
  intros Hnd Hlt Hlen j Hj.
  assert (l ≡ₚ seq 0 n) as ->.
  { apply submseteq_length_Permutation.
    - apply NoDup_submseteq; [done|]. intros x Hx. apply elem_of_seq.
      specialize (Hlt x Hx). lia.
    - rewrite length_seq. lia. }
  apply elem_of_seq. lia.
Qed.

Lemma covering_length (l : list nat) n :
  (∀ j, (j < n)%nat → j ∈ l) → (n ≤ length l)%nat.
Proof.
  intros Hall. rewrite <- (length_seq n 0). apply submseteq_length.
  apply NoDup_submseteq; [apply NoDup_seq|]. intros x Hx.
  apply elem_of_seq in Hx. apply Hall. lia.
Qed.

End pigeonhole.

(** ** The pool-backed map in any state *)
Module PoolFacts2.
Import PoolMap PoolSpec PoolFacts PoolSpec2.

Section pool_general.
Context {V : Type} `{!Nullable V}.
Implicit Types (m : u32map_t V) (t l r : tree Z V) (p : list (node_t V)).
Local Opaque MAX_NODES.

(** [node_alloc] returns the first free slot of the range it scans, or
    [NULL] when every slot of the range is in use. *)
Lemma node_alloc_from_scan p i n :
  (i + n ≤ length p)%nat →
  (node_alloc_from p i n = Ok (None, p) ∧
   ∀ j, (i ≤ j < i + n)%nat → pool_live p j) ∨
  (∃ j0 x, (i ≤ j0 < i + n)%nat ∧ p !! j0 = Some x ∧ in_use x = 0 ∧
     node_alloc_from p i n
     = Ok (Some j0, <[j0:=Node (key x) null None None None 1 1]> p)).
Proof.
  revert i. induction n as [|n IH]; intros i Hlen.
  { left. split; [done|]. intros j Hj. lia. }
  cbn [node_alloc_from].
  destruct (lookup_lt_is_Some_2 p i ltac:(lia)) as [x Hx]. rewrite Hx.
  destruct (in_use x =? 0) eqn:Hu.
  - right. exists i, x. split_and!; [lia|lia|done|by apply Z.eqb_eq|done].
  - destruct (IH (Datatypes.S i) ltac:(lia)) as [[Hrun Hall]|(j0 & y & Hj & Hy & Hu' & Hrun)].
    + left. split; [done|]. intros j Hj.
      destruct (decide (j = i)) as [->|Hne]; [|apply Hall; lia].
      exists x. split; [done|by apply Z.eqb_neq].
    + right. exists j0, y. split_and!; [lia|lia|done|done|done].
Qed.

Lemma count_addrs t : count t = length (addrs t).
Proof. rewrite count_inorder. unfold addrs. by rewrite length_fmap. Qed.

Lemma inv_addr_bound m t j :
  pool_inv m t → j ∈ addrs t → (j < MAX_NODES)%nat.
Proof.
  intros Hinv Hj. apply (pi_used _ _ Hinv) in Hj as (x & Hx & _).
  apply lookup_lt_Some in Hx. by rewrite (pi_len _ _ Hinv) in Hx.
Qed.

Lemma inv_nodup m t : pool_inv m t → NoDup (addrs t).
Proof. intros Hinv. apply distinct_spec. by destruct (pi_rep _ _ Hinv). Qed.

(** The number of nodes never exceeds the number of slots. *)
Lemma inv_count_bound m t : pool_inv m t → (count t ≤ MAX_NODES)%nat.
Proof.
  intros Hinv. rewrite count_addrs.
  apply bounded_length; [by eapply inv_nodup|]. intros x. by eapply inv_addr_bound.
Qed.

(** The initialisation of the slot that [node_alloc] has returned. *)
Lemma node_new_at p j0 x k v :
  p !! j0 = Some x → in_use x = 0 →
  node_alloc p = Ok (Some j0, <[j0:=Node (key x) null None None None 1 1]> p) →
  ∃ p', node_new p k v = Ok (Some j0, p') ∧
    alloc_post p p' j0 (MapNode k v None None None 1).
Proof.
  intros Hx Hu Halloc. pose proof (lookup_lt_Some _ _ _ Hx) as Hlt.
  unfold node_new. rewrite Halloc.
  cbn [mbind result_bind]. unfold write.
  cbn [load pool_node_store]. unfold pool_load.
  rewrite list_lookup_insert_eq by lia. cbn [fmap option_fmap option_map].
  cbn [mbind result_bind store pool_node_store]. unfold pool_store.
  rewrite list_lookup_alter_eq, list_lookup_insert_eq by lia.
  cbn [fmap option_fmap option_map mbind result_bind].
  eexists. split; [reflexivity|].
  split_and!.
  - intros (y & Hy & Hu'). rewrite Hx in Hy. by injection Hy as <-.
  - simpl. unfold pool_live. rewrite !list_lookup_alter_eq.
    rewrite list_lookup_insert_eq by lia. simpl. eexists. split; [done|]. done.
  - simpl. unfold pool_load. rewrite !list_lookup_alter_eq.
    by rewrite list_lookup_insert_eq by lia.
  - intros b Hb. simpl. unfold pool_load, pool_live.
    rewrite !list_lookup_alter_ne by done.
    by rewrite list_lookup_insert_ne by done.
Qed.

(** [node_new] succeeds when fewer than [MAX_NODES] slots are in use. *)
Lemma node_new_room m t k v :
  pool_inv m t → (count t < MAX_NODES)%nat →
  ∃ j0 p', node_new (pool m) k v = Ok (Some j0, p') ∧
    alloc_post (pool m) p' j0 (MapNode k v None None None 1).
Proof.
  intros Hinv Hcnt.
  destruct (node_alloc_from_scan (pool m) 0 MAX_NODES)
    as [[_ Hall]|(j0 & x & Hj & Hx & Hu & Hrun)].
  { rewrite (pi_len _ _ Hinv). lia. }
  - exfalso. rewrite count_addrs in Hcnt.
    pose proof (covering_length (addrs t) MAX_NODES) as Hc.
    assert (MAX_NODES ≤ length (addrs t))%nat; [|lia].
    apply Hc. intros j Hj. apply (pi_used _ _ Hinv), Hall. lia.
  - exists j0. by apply (node_new_at _ _ x).
Qed.

(** [node_new] fails when all [MAX_NODES] slots are in use, and changes
    nothing. *)
Lemma node_new_exhausted m t k v :
  pool_inv m t → count t = MAX_NODES →
  node_new (pool m) k v = Ok (None, pool m).
Proof.
  intros Hinv Hcnt. unfold node_new, node_alloc.
  destruct (node_alloc_from_scan (pool m) 0 MAX_NODES)
    as [[Hrun _]|(j0 & x & Hj & Hx & Hu & _)].
  { rewrite (pi_len _ _ Hinv). lia. }
  - by rewrite Hrun.
  - exfalso. rewrite count_addrs in Hcnt.
    assert (j0 ∈ addrs t) as Hin.
    { apply (bounded_full _ MAX_NODES); [by eapply inv_nodup| |done|lia].
      intros y. by eapply inv_addr_bound. }
    apply (pi_used _ _ Hinv) in Hin as (y & Hy & Hu').
    rewrite Hx in Hy. by injection Hy as <-.
Qed.

Lemma pool_locate_cell m t k c a l k0 v0 h r :
  pool_inv m t → locate u32_order k t [] = (c, T a l k0 v0 h r) →
  t = plug c (T a l k0 v0 h r) ∧
  load (pool m) a
  = Some (MapNode k0 v0 (root_ptr l) (root_ptr r) (ctx_parent c) h).
Proof.
  intros Hinv Hloc.
  pose proof (locate_plug u32_order k t []) as Hplug.
  rewrite Hloc in Hplug. simpl in Hplug. split; [done|].
  pose proof (pi_rep _ _ Hinv) as Hrep. rewrite <- Hplug in Hrep.
  apply rep_plug in Hrep as (_ & _ & Hc). by destruct Hc as (_ & Hld & _).
Qed.

Lemma pool_find_node fuel m t k :
  pool_inv m t → (depth t ≤ fuel)%nat →
  find_node fuel m k = Ok (root_ptr (locate u32_order k t []).2).
Proof.
  intros Hinv Hfuel. unfold find_node, AvlCore.find_node, state_of.
  cbn [ts_mem ts_root]. rewrite (pi_root _ _ Hinv).
  apply find_from_rep with (par := None); [|done].
  by destruct (pi_rep _ _ Hinv).
Qed.

(** [map_find] returns the value the pure lookup finds, and [NULL] when
    there is none. *)
Lemma pool_find fuel m t k :
  pool_inv m t → (depth t ≤ fuel)%nat →
  map_find fuel m k = Ok (default null (find_val u32_order k t)).
Proof.
  intros Hinv Hfuel. unfold map_find. rewrite (pool_find_node fuel m t) by done.
  cbn [mbind result_bind]. unfold find_val.
  destruct (locate u32_order k t []) as [c t'] eqn:Hloc.
  destruct t' as [|a l k0 v0 h r]; [done|].
  destruct (pool_locate_cell _ _ _ _ _ _ _ _ _ _ Hinv Hloc) as [_ Hld].
  cbn [snd root_ptr]. by rewrite (deref_load (pool m) a _ Hld).
Qed.

(** [map_insert] of a key that is present. *)
Lemma pool_insert_found fuel m t k v k' v' :
  pool_inv m t → (depth t ≤ fuel)%nat →
  (k', v') ∈ entries t → u32_order k k' = 0 →
  map_insert fuel m k v = Ok (0, m).
Proof.
  intros Hinv Hfuel Hin Hk.
  destruct (locate_present u32_order k t k' v' (pi_bst _ _ Hinv) Hin Hk)
    as (c & a & l & k0 & h & r & Hloc & _).
  unfold map_insert.
  rewrite (map_insert_found u32_order _ fuel (state_of m) k v t c a l k0 v' h r);
    [|apply Hinv|by destruct (pi_rep _ _ Hinv)|done|done].
  cbn [mbind result_bind]. by destruct m.
Qed.

(** [map_insert] of an absent key while a slot is free. *)
Lemma pool_insert_room fuel m t k v :
  pool_inv m t → (depth t ≤ fuel)%nat → (count t < MAX_NODES)%nat →
  absent u32_order k t →
  ∃ m' t' xs ys,
    map_insert fuel m k v = Ok (1, m') ∧ pool_inv m' t' ∧
    entries t = xs ++ ys ∧ entries t' = xs ++ (k, v) :: ys.
Proof.
  intros Hinv Hfuel Hcnt Habs. destruct (locate_absent _ _ _ Habs) as [c Hloc].
  destruct (node_new_room m t k v Hinv Hcnt) as (j0 & p' & Hnew & Halloc).
  destruct (map_insert_new u32_order node_new fuel (state_of m) k v t c j0 p'
              _ _ (pi_root _ _ Hinv) (pi_rep _ _ Hinv)
              (avl_hts_ok _ (pi_avl _ _ Hinv)) Hfuel Hloc Hnew Halloc)
    as (s' & Hins & Hrep & Hlive).
  pose proof (locate_plug u32_order k t []) as Hplug.
  rewrite Hloc in Hplug. simpl in Hplug.
  pose proof (map_insert_closed (λ p, length p = MAX_NODES) pool_store_length
                node_new u32_order fuel (state_of m) k v _ _
                (λ s o s', node_new_length s k v o s') Hins (pi_len _ _ Hinv)) as Hlen.
  pose proof (inv_count_bound m t Hinv) as Hb.
  eexists _, _, (before c).*2, (after c).*2.
  unfold map_insert. rewrite Hins. cbn [mbind result_bind].
  split; [reflexivity|]. split_and!.
  - split; cbn [of_state pool size root ts_mem ts_size ts_root] in *.
    + exact Hlen.
    + reflexivity.
    + exact Hrep.
    + apply insert_at_avl. rewrite Hplug. apply Hinv.
    + eapply insert_at_bst; [apply _|apply Hinv|exact Hloc|by apply u32_order_eq].
    + rewrite insert_at_count, Hplug.
      pose proof (pi_size _ _ Hinv) as Hsz. pose proof MAX_NODES_val as HN.
      destruct t as [|a l k0 v0 h r]; [done|].
      cbn [state_of ts_size]. rewrite Hsz. unfold size_t_max.
      rewrite Z.mod_small; lia.
    + intros j. rewrite insert_at_addrs.
      rewrite (Hlive j). destruct Halloc as (Hn & Hn' & _ & Hother).
      destruct (decide (j = j0)) as [->|Hne].
      * split; [set_solver|done].
      * destruct (Hother j Hne) as [_ ->]. rewrite (pi_used _ _ Hinv j).
        rewrite <- Hplug, addrs_plug. simpl. set_solver.
  - by rewrite <- Hplug, entries_plug.
  - apply insert_at_entries.
Qed.

(** [map_insert] of an absent key when no slot is free. *)
Lemma pool_insert_exhausted fuel m t k v :
  pool_inv m t → (depth t ≤ fuel)%nat → count t = MAX_NODES →
  absent u32_order k t →
  map_insert fuel m k v = Ok (-1, m).
Proof.
  intros Hinv Hfuel Hcnt Habs. destruct (locate_absent _ _ _ Habs) as [c Hloc].
  unfold map_insert.
  rewrite (map_insert_failed u32_order _ fuel (state_of m) k v t c (pool m));
    [|apply Hinv|by destruct (pi_rep _ _ Hinv)|done|done|].
  - cbn [mbind result_bind]. by destruct m.
  - by apply (node_new_exhausted m t).
Qed.

End pool_general.
End PoolFacts2.

Section live_nodes.
Context {K V S : Type} `{!NodeStore K V S}.

Lemma cells_ok_live_in (s : S) par (t : tree K V) b :
  cells_ok s par t → b ∈ addrs t → live s b.
Proof.
  revert par. induction t as [|a l IHl k v h r IHr]; intros par; simpl.
  { intros _ Hb. by apply elem_of_nil in Hb. }
  intros (Hlv & _ & Hcl & Hcr). rewrite addrs_T.
  rewrite elem_of_app, elem_of_cons. intros [Hb|[->|Hb]]; eauto.
Qed.

End live_nodes.

Module PoolFacts3.
Import PoolMap PoolSpec PoolFacts PoolSpec2 PoolFacts2.

Section pool_general2.
Context {V : Type} `{!Nullable V}.
Implicit Types (m : u32map_t V) (t l r : tree Z V) (p : list (node_t V)).
Local Opaque MAX_NODES.

Lemma release_pool_ok :
  release_ok (release (V:=V)) (λ z, if z >? 0 then z - 1 else z).
Proof.
  intros rt sz s n [nd Hnd]. unfold release, node_free. cbn [ts_mem ts_root ts_size].
  simpl in Hnd. unfold pool_load in Hnd.
  destruct (s !! n) as [x|] eqn:Hx; [|done]. cbn [mbind result_bind].
  pose proof (lookup_lt_Some _ _ _ Hx) as Hlt.
  eexists. split; [reflexivity|].
  split; simpl.
  - intros (y & Hy & Hu). rewrite list_lookup_insert_eq in Hy by done.
    by injection Hy as <-.
  - intros b Hb. unfold pool_load, pool_live.
    by rewrite list_lookup_insert_ne by done.
Qed.

Lemma release_length (ts : tree_state (list (node_t V))) n
    (ts' : tree_state (list (node_t V))) :
  release ts n = Ok ts' →
  length (ts_mem ts) = MAX_NODES → length (ts_mem ts') = MAX_NODES.
Proof.
  unfold release, node_free. destruct n as [i|].
  - destruct (ts_mem ts !! i); [|done]. cbn [mbind result_bind].
    intros [= <-]. cbn [ts_mem]. by rewrite length_insert.
  - cbn [mbind result_bind]. by intros [= <-].
Qed.

(** [map_erase] of a key that is absent. *)
Lemma pool_erase_missing fuel m t k :
  pool_inv m t → (depth t ≤ fuel)%nat → absent u32_order k t →
  map_erase fuel m k = Ok (0, m).
Proof.
  intros Hinv Hfuel Habs. destruct (locate_absent _ _ _ Habs) as [c Hloc].
  unfold map_erase.
  rewrite (map_erase_missing u32_order _ fuel (state_of m) k t c);
    [|apply Hinv|by destruct (pi_rep _ _ Hinv)|done|done].
  cbn [mbind result_bind]. by destruct m.
Qed.

(** [map_erase] of a key that is present. *)
Lemma pool_erase_found fuel m t k k' v' :
  pool_inv m t → (depth t ≤ fuel)%nat →
  (k', v') ∈ entries t → u32_order k k' = 0 →
  ∃ m' t' xs k0 ys,
    map_erase fuel m k = Ok (1, m') ∧ pool_inv m' t' ∧
    entries t = xs ++ (k0, v') :: ys ∧ entries t' = xs ++ ys ∧
    u32_order k k0 = 0.
Proof.
  intros Hinv Hfuel Hin Hk.
  destruct (locate_present u32_order k t k' v' (pi_bst _ _ Hinv) Hin Hk)
    as (c & n & l & k0 & h & r & Hloc & Hk0).
  destruct (pool_locate_cell _ _ _ _ _ _ _ _ _ _ Hinv Hloc) as [Hplug _].
  destruct (map_erase_found u32_order release _ fuel (state_of m) k t c n l k0 v' h r
              release_pool_ok (pi_root _ _ Hinv) (pi_rep _ _ Hinv)
              (avl_hts_ok _ (pi_avl _ _ Hinv)) Hfuel Hloc)
    as (s' & a & Hers & Hrep & Hpos & Hlive).
  pose proof (map_erase_closed (λ p, length p = MAX_NODES) pool_store_length
                release release_length u32_order fuel (state_of m) k _ _ Hers
                (pi_len _ _ Hinv)) as Hlen.
  assert (entries t = ((before c).*2 ++ entries l) ++ (k0, v') :: (entries r ++ (after c).*2))
    as Ht.
  { rewrite Hplug, entries_plug, entries_T. by list_norm. }
  assert (entries (erase_at c (T n l k0 v' h r))
          = ((before c).*2 ++ entries l) ++ (entries r ++ (after c).*2)) as Ht'.
  { rewrite erase_at_entries. by list_norm. }
  assert (Datatypes.S (count (erase_at c (T n l k0 v' h r))) = count t) as Hcnt.
  { rewrite !count_entries, Ht, Ht', !length_app. simpl. rewrite !length_app. lia. }
  eexists _, _, _, k0, _.
  unfold map_erase. rewrite Hers. cbn [mbind result_bind].
  split; [reflexivity|]. split_and!; [|exact Ht|exact Ht'|done].
  split; cbn [of_state pool size root ts_mem ts_size ts_root state_of] in *.
  - exact Hlen.
  - reflexivity.
  - exact Hrep.
  - apply erase_at_avl. rewrite <- Hplug. apply Hinv.
  - apply erase_at_bst; try apply _. rewrite <- Hplug. apply Hinv.
  - rewrite (pi_size _ _ Hinv). destruct (Z.of_nat (count t) >? 0) eqn:Hpos'; lia.
  - intros j. destruct Hlive as [Ha Hother]. split.
    + intros Hj. destruct (decide (j = a)) as [->|Hne]; [by destruct Ha|].
      apply (Hother j Hne), (pi_used _ _ Hinv) in Hj.
      rewrite Hplug in Hj.
      by destruct (proj1 (erase_at_addrs c n l k0 v' h r a j Hpos) Hj).
    + intros Hj. destruct Hrep as [_ Hc]. change (live s' j).
      by eapply cells_ok_live_in.
Qed.

(** [map_put] of a key that is present. *)
Lemma pool_put_existing fuel m t k v k' v' :
  pool_inv m t → (depth t ≤ fuel)%nat →
  (k', v') ∈ entries t → u32_order k k' = 0 →
  ∃ m' t' xs k0 ys,
    map_put fuel m k v = Ok (2, m') ∧ pool_inv m' t' ∧
    size m' = size m ∧ strip t' = strip t ∧
    entries t = xs ++ (k0, v') :: ys ∧ entries t' = xs ++ (k0, v) :: ys ∧
    u32_order k k0 = 0.
Proof.
  intros Hinv Hfuel Hin Hk.
  destruct (locate_present u32_order k t k' v' (pi_bst _ _ Hinv) Hin Hk)
    as (c & a & l & k0 & h & r & Hloc & Hk0).
  destruct (pool_locate_cell _ _ _ _ _ _ _ _ _ _ Hinv Hloc) as [Hplug Hld].
  assert (is_Some (load (pool m) a)) as Hsome by (by rewrite Hld).
  exists (U32Map (store (pool m) a
                    (MapNode k0 v (root_ptr l) (root_ptr r) (ctx_parent c) h))
                 (size m) (root m)),
    (plug c (T a l k0 v h r)),
    ((before c).*2 ++ entries l), k0, (entries r ++ (after c).*2).
  split_and!.
  - unfold map_put. rewrite (pool_find_node fuel m t) by done.
    rewrite Hloc. cbn [mbind result_bind snd root_ptr].
    unfold write. rewrite Hld. by cbn [mbind result_bind].
  - split; cbn [pool size root].
    + simpl. unfold pool_store. rewrite length_alter. apply Hinv.
    + rewrite (pi_root _ _ Hinv), Hplug. by rewrite !root_ptr_plug.
    + apply (store_value_rep _ _ _ _ _ v'). rewrite <- Hplug. apply Hinv.
    + eapply avl_plug_strip; [|rewrite <- Hplug; apply Hinv]. done.
    + unfold bst. rewrite (keys_plug_strip c (T a l k0 v' h r)) by done.
      rewrite <- Hplug. apply Hinv.
    + rewrite (pi_size _ _ Hinv), Hplug.
      rewrite <- (strip_count (plug c (T a l k0 v h r))),
        (strip_plug c _ (T a l k0 v' h r)), strip_count; done.
    + intros j.
      change (live (store (pool m) a (MapNode k0 v (root_ptr l) (root_ptr r)
                                        (ctx_parent c) h)) j ↔ j ∈ addrs (plug c (T a l k0 v h r))).
      rewrite live_store by done.
      change (live (pool m) j) with (pool_live (pool m) j).
      rewrite (pi_used _ _ Hinv j), Hplug.
      rewrite <- (strip_addrs (plug c (T a l k0 v h r))),
        (strip_plug c _ (T a l k0 v' h r)), strip_addrs; done.
  - done.
  - rewrite Hplug. by apply strip_plug.
  - rewrite Hplug, entries_plug, entries_T. by list_norm.
  - rewrite entries_plug, entries_T. by list_norm.
  - done.
Qed.

(** [map_put] of an absent key is [map_insert]. *)
Lemma pool_put_absent fuel m t k v :
  pool_inv m t → (depth t ≤ fuel)%nat → absent u32_order k t →
  map_put fuel m k v = map_insert fuel m k v.
Proof.
  intros Hinv Hfuel Habs. destruct (locate_absent _ _ _ Habs) as [c Hloc].
  unfold map_put. rewrite (pool_find_node fuel m t) by done.
  by rewrite Hloc.
Qed.

(** A freshly initialised map is well formed and empty. *)
Lemma map_init_inv m :
  length (pool m) = MAX_NODES → pool_inv (map_init m) E.
Proof.
  intros Hlen. destruct (PoolFacts.map_init_ok m Hlen) as [H1 H2 H3 H4 H5 H6 H7].
  split; try done. intros j. rewrite (H7 j). simpl. split; [lia|].
  intros Hj. by apply elem_of_nil in Hj.
Qed.

(** One call keeps the map well formed. *)
Lemma pool_apply_ok fuel m t o :
  pool_inv m t → (depth t ≤ fuel)%nat →
  ∃ rc m' t', pool_apply fuel m o = Ok (rc, m') ∧ pool_inv m' t'.
Proof.
  intros Hinv Hfuel. pose proof (inv_count_bound m t Hinv) as Hb.
  assert (∀ k v, ∃ rc m' t', map_insert fuel m k v = Ok (rc, m') ∧ pool_inv m' t')
    as Hins.
  { intros k v.
    destruct (present_or_absent u32_order k t (pi_bst _ _ Hinv))
      as [(k' & v' & Hin & Hk)|Habs].
    - exists 0, m, t. split; [|done]. by eapply pool_insert_found; [done|lia|..].
    - destruct (decide (count t = MAX_NODES)) as [Hfull|Hroom].
      + exists (-1), m, t. split; [|done].
        by apply (pool_insert_exhausted fuel m t); [done|lia|..].
      + destruct (pool_insert_room fuel m t k v Hinv ltac:(lia) ltac:(lia) Habs)
          as (m' & t' & _ & _ & Hrun & Hinv' & _).
        by exists 1, m', t'. }
  destruct o as [k v|k v|k]; cbn [pool_apply].
  - apply Hins.
  - destruct (present_or_absent u32_order k t (pi_bst _ _ Hinv))
      as [(k' & v' & Hin & Hk)|Habs].
    + destruct (pool_put_existing fuel m t k v k' v' Hinv ltac:(lia) Hin Hk)
        as (m' & t' & _ & _ & _ & Hrun & Hinv' & _).
      by exists 2, m', t'.
    + rewrite (pool_put_absent fuel m t k v) by (done || lia). apply Hins.
  - destruct (present_or_absent u32_order k t (pi_bst _ _ Hinv))
      as [(k' & v' & Hin & Hk)|Habs].
    + destruct (pool_erase_found fuel m t k k' v' Hinv ltac:(lia) Hin Hk)
        as (m' & t' & _ & _ & _ & Hrun & Hinv' & _).
      by exists 1, m', t'.
    + exists 0, m, t. split; [|done].
      by apply (pool_erase_missing fuel m t); [done|lia|].
Qed.

Lemma pool_run_ok fuel m t ops :
  pool_inv m t → (MAX_NODES ≤ fuel)%nat →
  ∃ m' t', pool_run fuel m ops = Ok m' ∧ pool_inv m' t'.
Proof.
  intros Hinv Hfuel. revert m t Hinv.
  induction ops as [|o ops IH]; intros m t Hinv; [by exists m, t|].
  assert (depth t ≤ fuel)%nat as Hd.
  { pose proof (inv_count_bound m t Hinv). pose proof (depth_le_count t). lia. }
  destruct (pool_apply_ok fuel m t o Hinv Hd) as (rc & m1 & t1 & Hrun & Hinv1).
  destruct (IH m1 t1 Hinv1) as (m' & t' & Hrun' & Hinv').
  exists m', t'. cbn [pool_run]. rewrite Hrun. by cbn [mbind result_bind].
Qed.

(** The forward loop reads the keys in symmetric order. *)
Lemma pool_keys_forward_ok fuel n m t :
  pool_inv m t → (depth t ≤ fuel)%nat → (count t ≤ n)%nat →
  pool_keys_forward fuel n m = Ok (keys t).
Proof.
  intros Hinv Hfuel Hn. unfold pool_keys_forward, map_begin.
  destruct (pi_rep _ _ Hinv) as [Hd Hc].
  rewrite (pi_root _ _ Hinv), (subtree_min_rep fuel (pool m) t Hc Hfuel).
  cbn [mbind result_bind].
  change (map_next fuel m) with (AvlCore.map_next fuel (pool m)).
  rewrite keys_fmap.
  apply (visit_next_rep _ _ fuel n (pool m) t [] (inorder t) (pi_rep _ _ Hinv) Hfuel);
    [|done|by rewrite <- count_inorder].
  intros [a [k v]] Hx.
  destruct (cells_ok_lookup _ _ _ _ _ _ Hc Hx) as (nd & Hld & Hk & _).
  cbn [fst]. rewrite (deref_load _ _ _ Hld). cbn [mbind result_bind].
  by rewrite Hk.
Qed.

End pool_general2.
End PoolFacts3.

Module PoolFacts4.
Import PoolMap PoolSpec PoolFacts PoolSpec2 PoolFacts2 PoolFacts3.

Section pool_lookup.
Context {V : Type} `{!Nullable V}.
Implicit Types (m : u32map_t V) (t l r : tree Z V).

Lemma pool_find_other fuel m m' t t' k2 (xs ys es es' : list (Z * V)) :
  pool_inv m t → pool_inv m' t' →
  (depth t ≤ fuel)%nat → (depth t' ≤ fuel)%nat →
  entries t = xs ++ es ++ ys → entries t' = xs ++ es' ++ ys →
  Forall (λ e, k2 ≠ e.1) es → Forall (λ e, k2 ≠ e.1) es' →
  map_find fuel m' k2 = map_find fuel m k2.
Proof.
  intros Hinv Hinv' Hd Hd' Ht Ht' Hes Hes'.
  rewrite (pool_find fuel m t), (pool_find fuel m' t') by done.
  f_equal. f_equal. symmetry.
  eapply (find_val_other u32_order); [apply Hinv|apply Hinv'|done..| |].
  - eapply Forall_impl; [exact Hes|]. intros e He. by rewrite u32_order_eq.
  - eapply Forall_impl; [exact Hes'|]. intros e He. by rewrite u32_order_eq.
Qed.

Lemma pool_find_in fuel m t k v :
  pool_inv m t → (depth t ≤ fuel)%nat → (k, v) ∈ entries t →
  map_find fuel m k = Ok v.
Proof.
  intros Hinv Hfuel Hin. rewrite (pool_find fuel m t) by done.
  rewrite (find_val_in u32_order k t k v (pi_bst _ _ Hinv) Hin); [done|].
  by apply u32_order_eq.
Qed.

Lemma pool_inv_depth m t fuel :
  pool_inv m t → (MAX_NODES ≤ fuel)%nat → (depth t ≤ fuel)%nat.
Proof.
  intros Hinv Hfuel. pose proof (inv_count_bound m t Hinv).
  pose proof (depth_le_count t). lia.
Qed.

End pool_lookup.
End PoolFacts4.

Import PoolSpec PoolFacts PoolSpec2 PoolFacts2 PoolFacts3 PoolFacts4.
#[local] Existing Instance PoolMap.pool_node_store.

(** X12.  In the pool variant, whatever sequence of [map_insert],
    [map_put] and [map_erase] calls follows [map_init], every call
    returns, the slots in use are exactly the nodes of a balanced search
    tree with correct height fields that hangs from [root] (a slot is in
    use if and only if it is a node of that tree), [map_size] is the
    number of its nodes and is at most [MAX_NODES], and the loop from
    [map_begin] along [map_next] reads that many keys in strictly
    increasing order. *)
Theorem pool_ops_invariant {V : Type} `{!Nullable V}
    (m0 : PoolMap.u32map_t V) (ops : list (pool_op V)) (fuel n : nat) :
  length (PoolMap.pool m0) = PoolMap.MAX_NODES →
  (PoolMap.MAX_NODES ≤ fuel)%nat → (PoolMap.MAX_NODES ≤ n)%nat →
  ∃ m (t : tree Z V) ks,
    pool_run fuel (PoolMap.map_init m0) ops = Ok m ∧
    length (PoolMap.pool m) = PoolMap.MAX_NODES ∧
    PoolMap.root m = root_ptr t ∧ rep (PoolMap.pool m) None t ∧
    (∀ j, PoolMap.pool_live (PoolMap.pool m) j ↔ j ∈ addrs t) ∧
    avl t ∧ bst PoolMap.u32_order t ∧
    ks = keys t ∧
    pool_keys_forward fuel n m = Ok ks ∧ increasing PoolMap.u32_order ks ∧
    PoolMap.map_size (Some m) = Z.of_nat (length ks) ∧
    (length ks ≤ PoolMap.MAX_NODES)%nat.
Proof.
  intros Hlen Hfuel Hn.
  destruct (pool_run_ok fuel (PoolMap.map_init m0) E ops (map_init_inv m0 Hlen) Hfuel)
    as (m & t & Hrun & Hinv).
  pose proof (inv_count_bound m t Hinv) as Hb.
  pose proof (depth_le_count t) as Hd.
  assert (length (keys t) = count t) as Hk.
  { unfold keys. by rewrite length_fmap, count_entries. }
  exists m, t, (keys t). split_and!; try apply Hinv; try done.
  - apply pool_keys_forward_ok; [done|lia|lia].
  - simpl. by rewrite (pi_size _ _ Hinv), Hk.
  - by rewrite Hk.
Qed.

(** X13.  In the pool variant, [map_insert] of an absent key succeeds
    exactly when fewer than [MAX_NODES] entries are stored, in whatever
    order slots were used and released before: it then returns 1, the
    size grows by one and [map_find] returns the value; with [MAX_NODES]
    entries it returns -1 and changes nothing. *)
Theorem pool_insert_when_room {V : Type} `{!Nullable V}
    fuel (m : PoolMap.u32map_t V) (t : tree Z V) k v :
  pool_inv m t → (PoolMap.MAX_NODES ≤ fuel)%nat →
  absent PoolMap.u32_order k t →
  (PoolMap.size m < Z.of_nat PoolMap.MAX_NODES →
   ∃ m', PoolMap.map_insert fuel m k v = Ok (1, m') ∧
     PoolMap.map_find fuel m' k = Ok v ∧
     PoolMap.size m' = PoolMap.size m + 1) ∧
  (PoolMap.size m = Z.of_nat PoolMap.MAX_NODES →
   PoolMap.map_insert fuel m k v = Ok (-1, m)).
Proof.
  intros Hinv Hfuel Habs. pose proof (pool_inv_depth m t fuel Hinv Hfuel) as Hd.
  pose proof (pi_size _ _ Hinv) as Hsz. split.
  - intros Hroom.
    destruct (pool_insert_room fuel m t k v Hinv Hd ltac:(lia) Habs)
      as (m' & t' & xs & ys & Hrun & Hinv' & Ht & Ht').
    exists m'. split_and!; [done| |].
    + apply (pool_find_in fuel m' t'); [done|by eapply pool_inv_depth|].
      rewrite Ht'. set_solver.
    + rewrite (pi_size _ _ Hinv'), Hsz, !count_entries, Ht, Ht', !length_app.
      simpl. lia.
  - intros Hfull. apply (pool_insert_exhausted fuel m t); [done|done|lia|done].
Qed.

(** X14.  In the pool variant, [map_erase] of a key that is present
    returns 1 and decreases the size by one; afterwards [map_find] of
    the key returns [NULL] and [map_find] of any other key is unchanged;
    and the slot is free again: a following [map_insert] of that key
    succeeds, also when the pool was full. *)
Theorem pool_erase_frees_slot {V : Type} `{!Nullable V}
    fuel (m : PoolMap.u32map_t V) (t : tree Z V) k v' :
  pool_inv m t → (PoolMap.MAX_NODES ≤ fuel)%nat → (k, v') ∈ entries t →
  ∃ m',
    PoolMap.map_erase fuel m k = Ok (1, m') ∧
    PoolMap.size m' = PoolMap.size m - 1 ∧
    PoolMap.map_find fuel m' k = Ok null ∧
    (∀ k2, k2 ≠ k → PoolMap.map_find fuel m' k2 = PoolMap.map_find fuel m k2) ∧
    (∀ v, ∃ m'', PoolMap.map_insert fuel m' k v = Ok (1, m'') ∧
       PoolMap.map_find fuel m'' k = Ok v).
Proof.
  intros Hinv Hfuel Hin. pose proof (pool_inv_depth m t fuel Hinv Hfuel) as Hd.
  assert (PoolMap.u32_order k k = 0) as Hk by (by apply u32_order_eq).
  destruct (pool_erase_found fuel m t k k v' Hinv Hd Hin Hk)
    as (m' & t' & xs & k0 & ys & Hrun & Hinv' & Ht & Ht' & Hk0).
  apply u32_order_eq in Hk0 as <-.
  pose proof (pool_inv_depth m' t' fuel Hinv' Hfuel) as Hd'.
  assert (Datatypes.S (count t') = count t) as Hcnt.
  { rewrite !count_entries, Ht, Ht', !length_app. simpl. lia. }
  assert (absent PoolMap.u32_order k t') as Habs.
  { intros k'' v'' Hin'. rewrite Ht' in Hin'.
    eapply (entries_split_unique PoolMap.u32_order t);
      [apply Hinv|exact Ht|exact Hk|exact Hin']. }
  exists m'. split_and!; [done| | | |].
  - rewrite (pi_size _ _ Hinv'), (pi_size _ _ Hinv). lia.
  - rewrite (pool_find fuel m' t') by done.
    by rewrite (find_val_None PoolMap.u32_order k t' Habs).
  - intros k2 Hk2.
    apply (pool_find_other fuel m m' t t' k2 xs ys [(k, v')] []);
      try done. by repeat constructor.
  - intros v. pose proof (inv_count_bound m t Hinv) as Hb.
    destruct (pool_insert_room fuel m' t' k v Hinv' Hd' ltac:(lia) Habs)
      as (m'' & t'' & xs' & ys' & Hrun' & Hinv'' & _ & Ht'').
    exists m''. split; [done|].
    apply (pool_find_in fuel m'' t''); [done|by eapply pool_inv_depth|].
    rewrite Ht''. set_solver.
Qed.

(** X15.  In the pool variant, [map_put] returns 2 and keeps the size
    when the key is present.  When the key is absent it behaves as
    [map_insert]: it returns 1 with the size grown by one when fewer
    than [MAX_NODES] entries are stored, and -1 with nothing changed
    when the pool is full.  Unless it returns -1, [map_find] of the key
    then returns the value, and [map_find] of any other key is
    unchanged. *)
Theorem pool_put_then_find {V : Type} `{!Nullable V}
    fuel (m : PoolMap.u32map_t V) (t : tree Z V) k v :
  pool_inv m t → (PoolMap.MAX_NODES ≤ fuel)%nat →
  ∃ rc m',
    PoolMap.map_put fuel m k v = Ok (rc, m') ∧
    (∀ v', (k, v') ∈ entries t →
       rc = 2 ∧ PoolMap.size m' = PoolMap.size m) ∧
    ((∀ v', (k, v') ∉ entries t) →
     PoolMap.size m < Z.of_nat PoolMap.MAX_NODES →
       rc = 1 ∧ PoolMap.size m' = PoolMap.size m + 1) ∧
    ((∀ v', (k, v') ∉ entries t) →
     PoolMap.size m = Z.of_nat PoolMap.MAX_NODES →
       rc = -1 ∧ m' = m) ∧
    PoolMap.size m ≤ Z.of_nat PoolMap.MAX_NODES ∧
    (rc = 2 ∨ rc = 1 ∨ rc = -1) ∧
    (rc ≠ -1 →
     PoolMap.map_find fuel m' k = Ok v ∧
     ∀ k2, k2 ≠ k → PoolMap.map_find fuel m' k2 = PoolMap.map_find fuel m k2).
Proof.
  intros Hinv Hfuel. pose proof (pool_inv_depth m t fuel Hinv Hfuel) as Hd.
  pose proof (inv_count_bound m t Hinv) as Hb.
  pose proof (pi_size _ _ Hinv) as Hsz.
  destruct (present_or_absent PoolMap.u32_order k t (pi_bst _ _ Hinv))
    as [(k' & v' & Hin & Hk)|Habs].
  - destruct (pool_put_existing fuel m t k v k' v' Hinv Hd Hin Hk)
      as (m' & t' & xs & k0 & ys & Hrun & Hinv' & Hsize & _ & Ht & Ht' & Hk0).
    apply u32_order_eq in Hk0 as <-. apply u32_order_eq in Hk as <-.
    pose proof (pool_inv_depth m' t' fuel Hinv' Hfuel) as Hd'.
    exists 2, m'. split_and!; [done|done| | |lia|by left|].
    + intros Hno. by destruct (Hno v').
    + intros Hno. by destruct (Hno v').
    + intros _. split.
      * apply (pool_find_in fuel m' t'); [done|done|]. rewrite Ht'. set_solver.
      * intros k2 Hk2.
        apply (pool_find_other fuel m m' t t' k2 xs ys [(k, v')] [(k, v)]);
          try done; by repeat constructor.
  - assert (∀ v', (k, v') ∉ entries t) as Hno.
    { intros v' Hin. apply (Habs k v' Hin). by apply u32_order_eq. }
    rewrite (pool_put_absent fuel m t k v) by done.
    destruct (decide (count t = PoolMap.MAX_NODES)) as [Hfull|Hroom].
    + exists (-1), m. rewrite (pool_insert_exhausted fuel m t) by done.
      split_and!; [done| | |done|lia|by right; right|done].
      * intros v' Hin. by destruct (Hno v').
      * lia.
    + destruct (pool_insert_room fuel m t k v Hinv Hd ltac:(lia) Habs)
        as (m' & t' & xs & ys & Hrun & Hinv' & Ht & Ht').
      pose proof (pool_inv_depth m' t' fuel Hinv' Hfuel) as Hd'.
      assert (PoolMap.size m' = PoolMap.size m + 1) as Hsz'.
      { rewrite (pi_size _ _ Hinv'), Hsz, !count_entries, Ht, Ht', !length_app.
        simpl. lia. }
      exists 1, m'. split_and!; [done| |done| |lia|by right; left|].
      * intros v' Hin. by destruct (Hno v').
      * lia.
      * intros _. split.
        -- apply (pool_find_in fuel m' t'); [done|done|]. rewrite Ht'. set_solver.
        -- intros k2 Hk2.
           apply (pool_find_other fuel m m' t t' k2 xs ys [] [(k, v)]);
             try done; by repeat constructor.
Qed.

Import PoolSpec2.

Lemma pool_one_inv : pool_inv pool_one pool_one_tree.
Proof.
  split.
  - vm_compute. reflexivity.
  - reflexivity.
  - split; [by repeat split|]. cbn [cells_ok pool_one_tree].
    split_and!; try done.
    eexists. split; [vm_compute; reflexivity|done].
  - simpl. split_and!; done || lia.
  - unfold bst. simpl. by repeat constructor.
  - reflexivity.
  - intros j. change (addrs pool_one_tree) with [3%nat].
    rewrite list_elem_of_singleton. split.
    + intros (n & Hn & Huse). destruct (decide (j = 3%nat)) as [|Hne]; [done|].
      unfold pool_one in Hn. cbn [PoolMap.pool] in Hn.
      rewrite list_lookup_insert_ne in Hn by done.
      apply lookup_replicate in Hn as [-> _]. by destruct Huse.
    + intros ->. eexists. split; [vm_compute; reflexivity|done].
Qed.

Ltac absent_in Hin :=
  simpl in Hin;
  repeat (apply elem_of_cons in Hin as [Hin|Hin];
          [injection Hin as -> ->; by vm_compute|]);
  by apply elem_of_nil in Hin.

Lemma insert_keeps_other_keys_witness :
  ∃ m',
    map_insert 2 true (Some (one_node 10)) 5 50 = Ok (1, Some m') ∧
    map_find 2 (Some m') 1 = map_find 2 (Some (one_node 10)) 1.
Proof.
  apply (insert_keeps_other_keys 2 (one_node 10) (one_tree 10) 5 50 1).
  - exact z_cmp_order.
  - intros k. cbv [one_node cmp key_dup dup_or_raw z_cmp]. lia.
  - exact (one_node_ok 10).
  - simpl. lia.
  - intros k' v' Hin. absent_in Hin.
  - by vm_compute.
Defined.

Lemma erase_removes_only_key_witness :
  ∃ m',
    map_erase 3 (Some three_nodes) 2 = Ok (1, Some m') ∧
    map_find 3 (Some m') 2 = Ok null ∧
    ∀ k2, cmp three_nodes k2 2 ≠ 0 →
          map_find 3 (Some m') k2 = map_find 3 (Some three_nodes) k2.
Proof.
  apply (erase_removes_only_key 3 three_nodes three_tree 2 2 20).
  - exact z_cmp_order.
  - exact three_nodes_ok.
  - simpl. lia.
  - by_decide.
  - reflexivity.
Defined.

Lemma put_then_find_witness :
  ∃ rc m',
    map_put 2 true (Some (one_node 10)) 1 99 = Ok (rc, Some m') ∧
    rc = match find_val (cmp (one_node 10)) 1 (one_tree 10) with
         | Some _ => 2 | None => 1 end ∧
    map_find 2 (Some m') 1 = Ok (dup_or_raw (val_dup (one_node 10)) 99) ∧
    ∀ k2, cmp (one_node 10) k2 1 ≠ 0 →
          map_find 2 (Some m') k2 = map_find 2 (Some (one_node 10)) k2.
Proof.
  apply (put_then_find 2 (one_node 10) (one_tree 10) 1 99).
  - exact z_cmp_order.
  - intros k. cbv [one_node cmp key_dup dup_or_raw z_cmp]. lia.
  - exact (one_node_ok 10).
  - simpl. lia.
Defined.

Lemma erase_absent_unchanged_witness :
  map_erase 2 (Some three_nodes) 9 = Ok (0, Some three_nodes).
Proof.
  apply (erase_absent_unchanged 2 three_nodes three_tree 9).
  - exact z_cmp_order.
  - exact three_nodes_ok.
  - simpl. lia.
  - intros k' v' Hin. absent_in Hin.
Defined.

Lemma insert_malloc_failure_atomic_witness :
  map_insert 2 false (Some three_nodes) 9 90 = Ok (-1, Some three_nodes) ∧
  map_put 2 false (Some three_nodes) 9 90 = Ok (-1, Some three_nodes).
Proof.
  apply (insert_malloc_failure_atomic 2 three_nodes three_tree 9 90).
  - exact z_cmp_order.
  - exact three_nodes_ok.
  - simpl. lia.
  - intros k' v' Hin. absent_in Hin.
Defined.

Lemma next_prev_inverse_witness :
  (∀ a, a ∈ addrs three_tree →
     ∃ nx pv,
       map_next 2 three_nodes (Some a) = Ok nx ∧
       map_prev 2 three_nodes (Some a) = Ok pv ∧
       (nx ≠ None → map_prev 2 three_nodes nx = Ok (Some a)) ∧
       (pv ≠ None → map_next 2 three_nodes pv = Ok (Some a))) ∧
  (∃ first, map_begin 2 (Some three_nodes) = Ok first ∧
     map_prev 2 three_nodes first = Ok None).
Proof.
  apply (next_prev_inverse 2 three_nodes three_tree).
  - exact three_nodes_ok.
  - simpl. lia.
Defined.

Lemma iteration_after_ops_witness :
  ∃ (m0 m : map_t Z Z) ks,
    map_create true (Some z_cmp) None false None false = Some m0 ∧
    run 4 (Some m0)
      [Insert true 3 30; Put true 1 10; Insert true 2 20; Erase 3]
    = Ok (Some m) ∧
    keys_forward 4 4 m = Ok ks ∧
    increasing z_cmp ks ∧ map_size (Some m) = Z.of_nat (length ks).
Proof.
  apply (iteration_after_ops z_cmp None false None false
           [Insert true 3 30; Put true 1 10; Insert true 2 20; Erase 3] 4 4).
  - exact z_cmp_order.
  - intros k. unfold z_cmp. simpl. lia.
  - simpl. lia.
  - simpl. lia.
  - by vm_compute.
Defined.

Lemma clear_frees_all_witness :
  ∃ m',
    map_clear 1 (Some (one_node 10)) = Ok (Some m') ∧
    map_ok m' E ∧ map_size (Some m') = 0 ∧ same_config (one_node 10) m' ∧
    (∀ k, map_find 1 (Some m') k = Ok null) ∧
    (∀ b, b ∈ addrs (one_tree 10) → heap (mem m') !! b = None) ∧
    (∀ b, b ∉ addrs (one_tree 10) →
          heap (mem m') !! b = heap (mem (one_node 10)) !! b) ∧
    trace (mem m')
    = trace (mem (one_node 10))
      ++ free_events (key_free (one_node 10)) (val_free (one_node 10))
           (one_tree 10).
Proof.
  apply (clear_frees_all 1 (one_node 10) (one_tree 10)).
  - exact (one_node_ok 10).
  - simpl. lia.
Defined.

Lemma destroy_no_leak_witness :
  ∃ (m0 m : map_t Z Z) w,
    map_create true (Some z_cmp) None false None false = Some m0 ∧
    run 4 (Some m0)
      [Insert true 3 30; Put true 1 10; Insert false 2 20; Erase 3]
    = Ok (Some m) ∧
    map_destroy 4 (Some m) = Ok (Some w) ∧ heap w = ∅.
Proof.
  apply (destroy_no_leak z_cmp None false None false
           [Insert true 3 30; Put true 1 10; Insert false 2 20; Erase 3] 4).
  - exact z_cmp_order.
  - intros k. unfold z_cmp. simpl. lia.
  - simpl. lia.
Defined.

Lemma erase_frees_entry_witness :
  ∃ m',
    map_erase 1 (Some (one_node 10)) 1 = Ok (1, Some m') ∧
    trace (mem m')
    = trace (mem (one_node 10))
      ++ node_events (key_free (one_node 10)) (val_free (one_node 10)) 1 10.
Proof.
  apply (erase_frees_entry 1 (one_node 10) (one_tree 10) 1 1 10).
  - exact z_cmp_order.
  - exact (one_node_ok 10).
  - simpl. lia.
  - by_decide.
  - reflexivity.
Defined.

Lemma insert_calls_no_free_witness :
  ∃ rc m',
    map_insert 2 false (Some (one_node 10)) 5 50 = Ok (rc, Some m') ∧
    (rc = 1 ∨ rc = 0 ∨ rc = -1) ∧
    trace (mem m') = trace (mem (one_node 10)).
Proof.
  apply (insert_calls_no_free 2 false (one_node 10) (one_tree 10) 5 50).
  - exact z_cmp_order.
  - intros k. cbv [one_node cmp key_dup dup_or_raw z_cmp]. lia.
  - exact (one_node_ok 10).
  - simpl. lia.
Defined.

Lemma pool_ops_invariant_witness :
  ∃ m (t : tree Z Z) ks,
    pool_run 256 (PoolMap.map_init empty_pool)
      [PInsert 5 50; PPut 3 30; PErase 5; PInsert 9 90] = Ok m ∧
    length (PoolMap.pool m) = PoolMap.MAX_NODES ∧
    PoolMap.root m = root_ptr t ∧ rep (PoolMap.pool m) None t ∧
    (∀ j, PoolMap.pool_live (PoolMap.pool m) j ↔ j ∈ addrs t) ∧
    avl t ∧ bst PoolMap.u32_order t ∧
    ks = keys t ∧
    pool_keys_forward 256 256 m = Ok ks ∧ increasing PoolMap.u32_order ks ∧
    PoolMap.map_size (Some m) = Z.of_nat (length ks) ∧
    (length ks ≤ PoolMap.MAX_NODES)%nat.
Proof.
  apply (pool_ops_invariant empty_pool
           [PInsert 5 50; PPut 3 30; PErase 5; PInsert 9 90] 256 256).
  - vm_compute. reflexivity.
  - exact (le_n _).
  - exact (le_n _).
Defined.

Lemma pool_insert_when_room_witness :
  (PoolMap.size pool_one < Z.of_nat PoolMap.MAX_NODES →
   ∃ m', PoolMap.map_insert 256 pool_one 5 50 = Ok (1, m') ∧
     PoolMap.map_find 256 m' 5 = Ok 50 ∧
     PoolMap.size m' = PoolMap.size pool_one + 1) ∧
  (PoolMap.size pool_one = Z.of_nat PoolMap.MAX_NODES →
   PoolMap.map_insert 256 pool_one 5 50 = Ok (-1, pool_one)).
Proof.
  apply (pool_insert_when_room 256 pool_one pool_one_tree 5 50).
  - exact pool_one_inv.
  - exact (le_n _).
  - intros k' v' Hin. absent_in Hin.
Defined.

Lemma pool_erase_frees_slot_witness :
  ∃ m',
    PoolMap.map_erase 256 pool_one 7 = Ok (1, m') ∧
    PoolMap.size m' = PoolMap.size pool_one - 1 ∧
    PoolMap.map_find 256 m' 7 = Ok null ∧
    (∀ k2, k2 ≠ 7 →
           PoolMap.map_find 256 m' k2 = PoolMap.map_find 256 pool_one k2) ∧
    (∀ v, ∃ m'', PoolMap.map_insert 256 m' 7 v = Ok (1, m'') ∧
       PoolMap.map_find 256 m'' 7 = Ok v).
Proof.
  apply (pool_erase_frees_slot 256 pool_one pool_one_tree 7 70).
  - exact pool_one_inv.
  - exact (le_n _).
  - by_decide.
Defined.

Lemma pool_put_then_find_witness :
  ∃ rc m',
    PoolMap.map_put 256 pool_one 7 99 = Ok (rc, m') ∧
    (∀ v', (7, v') ∈ entries pool_one_tree →
       rc = 2 ∧ PoolMap.size m' = PoolMap.size pool_one) ∧
    ((∀ v', (7, v') ∉ entries pool_one_tree) →
     PoolMap.size pool_one < Z.of_nat PoolMap.MAX_NODES →
       rc = 1 ∧ PoolMap.size m' = PoolMap.size pool_one + 1) ∧
    ((∀ v', (7, v') ∉ entries pool_one_tree) →
     PoolMap.size pool_one = Z.of_nat PoolMap.MAX_NODES →
       rc = -1 ∧ m' = pool_one) ∧
    PoolMap.size pool_one ≤ Z.of_nat PoolMap.MAX_NODES ∧
    (rc = 2 ∨ rc = 1 ∨ rc = -1) ∧
    (rc ≠ -1 →
     PoolMap.map_find 256 m' 7 = Ok 99 ∧
     ∀ k2, k2 ≠ 7 →
           PoolMap.map_find 256 m' k2 = PoolMap.map_find 256 pool_one k2).
Proof.
  apply (pool_put_then_find 256 pool_one pool_one_tree 7 99).
  - exact pool_one_inv.
  - exact (le_n _).
Defined.

(** ** The depth of a balanced tree *)
Section height.
Context {K V : Type}.
Implicit Types t l r : tree K V.

Lemma least_step d :
  least (Datatypes.S (Datatypes.S d)) = (least (Datatypes.S d) + least d)%nat.
Proof. reflexivity. Qed.

Lemma least_pos d : (0 < least d)%nat.
Proof.
  induction d as [d IH] using lt_wf_ind.
  destruct d as [|[|d]]; [simpl; lia..|].
  rewrite least_step. pose proof (IH d ltac:(lia)). lia.
Qed.

Lemma least_succ d : (least d ≤ least (Datatypes.S d))%nat.
Proof.
  destruct d as [|d]; [simpl; lia|]. rewrite least_step. lia.
Qed.

Lemma least_mono d d' : (d ≤ d')%nat → (least d ≤ least d')%nat.
Proof.
  induction 1 as [|d' _ IH]; [done|]. pose proof (least_succ d'). lia.
Qed.

Lemma least_pow d : (2 ^ d ≤ least (2 * d))%nat.
Proof.
  induction d as [|d IH]; [simpl; lia|].
  replace (2 * Datatypes.S d)%nat with (Datatypes.S (Datatypes.S (2 * d)))
    by lia.
  rewrite least_step, Nat.pow_succ_r'. pose proof (least_succ (2 * d)). lia.
Qed.

Lemma avl_ht_depth t : avl t → ht t = Z.of_nat (depth t).
Proof.
  induction t as [|a l IHl k v h r IHr]; [done|].
  intros (Hh & Hb & Hl & Hr). cbn [ht depth].
  rewrite Hh, (IHl Hl), (IHr Hr). lia.
Qed.

(** A balanced tree of depth [d] has at least [least d - 1] nodes. *)
Lemma avl_count t : avl t → (least (depth t) ≤ Datatypes.S (count t))%nat.
Proof.
  induction t as [|a l IHl k v h r IHr]; [simpl; lia|].
  intros (Hh & Hb & Hl & Hr). specialize (IHl Hl). specialize (IHr Hr).
  rewrite (avl_ht_depth l Hl), (avl_ht_depth r Hr) in Hb.
  cbn [depth count].
  destruct (depth l) as [|dl] eqn:Hdl, (depth r) as [|dr] eqn:Hdr.
  - simpl. lia.
  - assert (dr = 0%nat) as -> by lia. simpl in *. lia.
  - assert (dl = 0%nat) as -> by lia. simpl in *. lia.
  - destruct (decide (dl = dr)) as [->|Hne].
    + rewrite Nat.max_id, least_step. pose proof (least_succ dr). lia.
    + destruct (decide (dl < dr)%nat).
      * assert (dr = Datatypes.S dl) as -> by lia.
        rewrite Nat.max_r, least_step by lia. lia.
      * assert (dl = Datatypes.S dr) as -> by lia.
        rewrite Nat.max_l, least_step by lia. lia.
Qed.

Lemma avl_depth_log t d :
  avl t → (Datatypes.S (count t) < 2 ^ d)%nat → (depth t < 2 * d)%nat.
Proof.
  intros Havl Hcnt. pose proof (avl_count t Havl) as Hl.
  pose proof (least_pow d) as Hp.
  destruct (decide (depth t < 2 * d)%nat) as [|Hge]; [done|].
  pose proof (least_mono (2 * d) (depth t) ltac:(lia)). lia.
Qed.

Lemma avl_depth_pool t :
  avl t → (count t ≤ 256)%nat → (depth t ≤ 11)%nat.
Proof.
  intros Havl Hcnt. pose proof (avl_count t Havl) as Hl.
  destruct (decide (depth t ≤ 11)%nat) as [|Hge]; [done|].
  pose proof (least_mono 12 (depth t) ltac:(lia)) as Hm.
  change (least 12) with 377%nat in Hm. lia.
Qed.

End height.

Module PoolFacts5.
Import PoolMap PoolSpec PoolFacts PoolSpec2 PoolFacts2 PoolFacts3 PoolFacts4.

Section pool_depth.
Context {V : Type} `{!Nullable V}.
Implicit Types (m : u32map_t V) (t : tree Z V).

Lemma pool_inv_depth_log m t : pool_inv m t → (depth t ≤ 11)%nat.
Proof.
  intros Hinv. apply avl_depth_pool; [apply Hinv|].
  pose proof (inv_count_bound m t Hinv) as Hb.
  by rewrite MAX_NODES_val in Hb.
Qed.

Lemma pool_run_short fuel m t ops :
  pool_inv m t → (11 ≤ fuel)%nat →
  ∃ m' t', pool_run fuel m ops = Ok m' ∧ pool_inv m' t'.
Proof.
  intros Hinv Hfuel. revert m t Hinv.
  induction ops as [|o ops IH]; intros m t Hinv; [by exists m, t|].
  pose proof (pool_inv_depth_log m t Hinv) as Hd.
  destruct (pool_apply_ok fuel m t o Hinv ltac:(lia))
    as (rc & m1 & t1 & Hrun & Hinv1).
  destruct (IH m1 t1 Hinv1) as (m' & t' & Hrun' & Hinv').
  exists m', t'. cbn [pool_run]. rewrite Hrun. by cbn [mbind result_bind].
Qed.

End pool_depth.
End PoolFacts5.

Import PoolSpec PoolFacts PoolSpec2 PoolFacts2 PoolFacts3 PoolFacts4 PoolFacts5.

(** X16.  The balancing keeps every search path logarithmic: in a map
    of [n] entries with [n + 1 < 2 ^ d], the loops of [map_find],
    [map_insert] and [map_erase] (the descent, the search for the
    successor and the walk back up that rebalances) each end within
    [2 * d] iterations, so that the three functions return. *)
Theorem loops_logarithmic {K V : Type}
    `{!EqDecision K, !EqDecision V, !Nullable K, !Nullable V}
    fuel d malloc_ok (m : map_t K V) (t : tree K V) k v :
  CmpOrder (cmp m) → dup_ok m → map_ok m t → sized m t →
  map_size (Some m) + 1 < 2 ^ Z.of_nat d → (2 * d ≤ fuel)%nat →
  (∃ r, map_find fuel (Some m) k = Ok r) ∧
  (∃ rc m', map_insert fuel malloc_ok (Some m) k v = Ok (rc, Some m')) ∧
  (∃ rc m', map_erase fuel (Some m) k = Ok (rc, Some m')).
Proof.
  intros Hord Hdup Hok [Hsz _] Hlog Hfuel. simpl in Hlog. rewrite Hsz in Hlog.
  assert (depth t ≤ fuel)%nat as Hd.
  { assert (Datatypes.S (count t) < 2 ^ d)%nat as Hc.
    { apply Nat2Z.inj_lt. rewrite Nat2Z.inj_pow. simpl (Z.of_nat 2). lia. }
    pose proof (avl_depth_log t d (ok_avl _ _ Hok) Hc). lia. }
  split_and!.
  - eexists. by apply (dyn_find fuel m t).
  - destruct (present_or_absent (cmp m) k t (ok_bst _ _ Hok))
      as [(k' & v' & Hin & Hk)|Habs].
    + exists 0, m. by apply (dyn_insert_found fuel malloc_ok m t k v k' v').
    + destruct malloc_ok.
      * destruct (dyn_insert_new fuel m t k v Hok Hd Habs Hdup)
          as (m' & t' & xs & ys & Hrun & _). by exists 1, m'.
      * exists (-1), m. by apply (dyn_insert_failed fuel m t k v).
  - destruct (present_or_absent (cmp m) k t (ok_bst _ _ Hok))
      as [(k' & v' & Hin & Hk)|Habs].
    + destruct (dyn_erase_found fuel m t k k' v' Hok Hd Hin Hk)
        as (m' & c & n & l & k0 & h & r & a & _ & Hrun & _). by exists 1, m'.
    + exists 0, m. by apply (dyn_erase_missing fuel m t).
Qed.

(** X17.  In the pool variant no search path is longer than 11 nodes,
    since a balanced tree of depth 12 has more than [MAX_NODES] nodes:
    whatever calls were made since [map_init], the loops of
    [map_insert], [map_put], [map_erase] and [map_find] each end within
    11 iterations. *)
Theorem pool_loops_bounded {V : Type} `{!Nullable V}
    (m0 : PoolMap.u32map_t V) (ops : list (pool_op V)) (k : Z) (fuel : nat) :
  length (PoolMap.pool m0) = PoolMap.MAX_NODES → (11 ≤ fuel)%nat →
  ∃ m r,
    pool_run fuel (PoolMap.map_init m0) ops = Ok m ∧
    PoolMap.map_find fuel m k = Ok r.
Proof.
  intros Hlen Hfuel.
  destruct (pool_run_short fuel (PoolMap.map_init m0) E ops
              (map_init_inv m0 Hlen) Hfuel) as (m & t & Hrun & Hinv).
  pose proof (pool_inv_depth_log m t Hinv) as Hd.
  exists m. eexists. split; [done|].
  apply (pool_find fuel m t); [done|lia].
Qed.

Lemma loops_logarithmic_witness :
  (∃ r, map_find 6 (Some three_nodes) 9 = Ok r) ∧
  (∃ rc m', map_insert 6 true (Some three_nodes) 9 90 = Ok (rc, Some m')) ∧
  (∃ rc m', map_erase 6 (Some three_nodes) 9 = Ok (rc, Some m')).
Proof.
  apply (loops_logarithmic 6 3 true three_nodes three_tree 9 90).
  - exact z_cmp_order.
  - intros k. cbv [three_nodes cmp key_dup dup_or_raw z_cmp]. lia.
  - exact three_nodes_ok.
  - split; [reflexivity|]. vm_compute. reflexivity.
  - vm_compute. reflexivity.
  - simpl. lia.
Defined.

Lemma pool_loops_bounded_witness :
  ∃ m r,
    pool_run 11 (PoolMap.map_init empty_pool)
      [PInsert 5 50; PPut 3 30; PErase 5; PInsert 9 90] = Ok m ∧
    PoolMap.map_find 11 m 9 = Ok r.
Proof.
  apply (pool_loops_bounded empty_pool
           [PInsert 5 50; PPut 3 30; PErase 5; PInsert 9 90] 9 11).
  - vm_compute. reflexivity.
  - exact (le_n _).
Defined.

Lemma three_owned_ok : map_ok three_owned three_tree.
Proof.
  split; [reflexivity| | |].
  - split; [by repeat split|]. simpl. split_and!; by vm_compute; eauto.
  - simpl. split_and!; done || lia.
  - unfold bst. simpl. repeat constructor; by vm_compute.
Qed.

Section erase_properties.
Context {K V : Type} `{!EqDecision K, !EqDecision V}
        `{!Nullable K, !Nullable V}.
Implicit Types (m : map_t K V) (t l r : tree K V) (c : list (frame K V)).

(** C3.  [map_erase] of a key that is present returns 1 and decreases
    the size by one; the tree invariants hold afterwards, the entry of
    the key is gone and the others are as before, and exactly one node
    has been released.  When the node found has two children, the node
    released is the minimum of its right subtree, which has no left
    child, and the node found now holds that successor's key and value;
    otherwise the node released is the node found.  In every case the
    free callbacks are invoked on the key and the value of the erased
    entry, which the swap has moved into the node released, and on
    nothing else. *)
Theorem erase_present_key fuel m t k k' v' :
  CmpOrder (cmp m) → map_ok m t → sized m t → (depth t ≤ fuel)%nat →
  (k', v') ∈ entries t → cmp m k k' = 0 →
  ∃ m' t' c n l k0 h r a xs ys,
    locate (cmp m) k t [] = (c, T n l k0 v' h r) ∧
    map_erase fuel (Some m) k = Ok (1, Some m') ∧
    size m' = size m - 1 ∧
    map_ok m' t' ∧ sized m' t' ∧
    entries t = xs ++ (k0, v') :: ys ∧ entries t' = xs ++ ys ∧
    live_except (mem m) (mem m') a ∧
    match l, r with
    | T _ _ _ _ _ _, T _ _ _ _ _ _ =>
        ∃ c2 ks vs hs sr nd,
          min_path r [] = (c2, T a E ks vs hs sr) ∧
          load (mem m') n = Some nd ∧ key nd = ks ∧ value nd = vs
    | _, _ => a = n
    end ∧
    trace (mem m')
    = trace (mem m) ++ node_events (key_free m) (val_free m) k0 v'.
Proof.
  intros Hord Hok [Hsz Hbound] Hfuel Hin Hk.
  destruct (dyn_erase_found fuel m t k k' v' Hok Hfuel Hin Hk)
    as (m' & c & n & l & k0 & h & r & a & Hloc & Hrun & Hok' & Hcfg & Hsize & Hpos & Hlive).
  destruct (dyn_erase_entries m t k c n l k0 v' h r Hok Hloc) as [Ht Ht'].
  assert (Datatypes.S (count (erase_at c (T n l k0 v' h r))) = count t) as Hcnt.
  { rewrite !count_entries, Ht, Ht', !length_app. simpl. rewrite !length_app. lia. }
  exists m', (erase_at c (T n l k0 v' h r)), c, n, l, k0, h, r, a.
  eexists _, _. split_and!; try done.
  - rewrite Hsize, Hsz. unfold size_t_max in *. rewrite Z.mod_small; lia.
  - split; [|lia]. rewrite Hsize, Hsz. unfold size_t_max in *.
    rewrite Z.mod_small; lia.
  - destruct l as [|al ll kl vl hl rl].
    { rewrite erase_pos_one_child in Hpos by (by left). by injection Hpos. }
    destruct r as [|ar lr kr vr hr rr].
    { rewrite erase_pos_one_child in Hpos by (by right). by injection Hpos. }
    destruct (erase_pos_two_children c n (T al ll kl vl hl rl) k0 v' h
                (T ar lr kr vr hr rr))
      as (c2 & sa & ks & vs & hs & sr & Hmin & Hpos' & Hnode); [done|done|].
    rewrite Hpos' in Hpos. injection Hpos as ->.
    destruct (ok_rep _ _ Hok') as [_ Hcells].
    destruct (cells_ok_lookup _ _ _ _ _ _ Hcells Hnode) as (nd & Hld & Hkey & Hval).
    by exists c2, ks, vs, hs, sr, nd.
  - destruct (locate_present (cmp m) k t k' v' (ok_bst _ _ Hok) Hin Hk)
      as (c1 & n1 & l1 & k1 & h1 & r1 & Hloc1 & Hk1).
    rewrite Hloc in Hloc1. injection Hloc1 as -> -> -> -> -> ->.
    apply (dyn_erase_trace fuel m t k k1 v'); try done.
    rewrite Ht. set_solver.
Qed.

End erase_properties.

Lemma erase_present_key_witness :
  ∃ m' t' c n l k0 h r a xs ys,
    locate (cmp three_owned) 2 three_tree [] = (c, T n l k0 20 h r) ∧
    map_erase 2 (Some three_owned) 2 = Ok (1, Some m') ∧
    size m' = size three_owned - 1 ∧
    map_ok m' t' ∧ sized m' t' ∧
    entries three_tree = xs ++ (k0, 20) :: ys ∧ entries t' = xs ++ ys ∧
    live_except (mem three_owned) (mem m') a ∧
    match l, r with
    | T _ _ _ _ _ _, T _ _ _ _ _ _ =>
        ∃ c2 ks vs hs sr nd,
          min_path r [] = (c2, T a E ks vs hs sr) ∧
          load (mem m') n = Some nd ∧ key nd = ks ∧ value nd = vs
    | _, _ => a = n
    end ∧
    trace (mem m')
    = trace (mem three_owned)
      ++ node_events (key_free three_owned) (val_free three_owned) k0 20.
Proof.
  apply (erase_present_key 2 three_owned three_tree 2 2 20).
  - exact z_cmp_order.
  - exact three_owned_ok.
  - split; [reflexivity|]. vm_compute. reflexivity.
  - simpl. lia.
  - by_decide.
  - reflexivity.
Defined.
